(** * Lineage querier: a shallow embedding of
    [mindinsight/lineagemgr/querier/querier.py] and its specification.

    The Python module is embedded function by function.  Exceptions are
    values of [exn]; a method that mutates the querier is a function from
    the querier to an outcome and the querier it leaves behind (a raised
    exception keeps the mutations made before it, as in Python). *)

From Stdlib Require Import ZArith Ascii String DecimalString DecimalNat OrderedTypeEx Permutation.
From stdpp Require Import base option list gmap strings fin_maps sorting.

Local Open Scope string_scope.
Local Open Scope Z_scope.

(** ** Exceptions and outcomes *)

(** The exception classes that appear in the module, and the built-in ones
    its expressions can raise.  [LineageQuerierParamException] carries its
    message (the parameter name is left out). *)
Inductive exn : Type :=
| LineageParamTypeError
| LineageQuerierParamException (msg : string)
| LineageSummaryParseException
| LineageSummaryAnalyzeException
| LineageEventNotExistException
| LineageEventFieldNotExistException
| TypeError
| AttributeError
| ValueError
| IndexError
| OtherError (name : string).

Inductive outcome (A : Type) : Type :=
| Return (a : A)
| Raise (e : exn).
Arguments Return {A} a.
Arguments Raise {A} e.

Definition obind {A B} (m : outcome A) (k : A -> outcome B) : outcome B :=
  match m with
  | Return a => k a
  | Raise e => Raise e
  end.

Notation "x <-! m ; k" := (obind m (fun x => k))
  (at level 100, m at next level, right associativity).

Definition is_return {A} (m : outcome A) : bool :=
  match m with Return _ => true | Raise _ => false end.

(** ** Python values that reach the querier *)

(** A field value is [None], a number or a string; numbers are the
    integers (floating point is outside the embedding). *)
Inductive scalar : Type :=
| SNum (n : Z)
| SStr (s : string).

Definition value : Type := option scalar.

(** The expected value of an expression is a field-like value or a list
    (or tuple) of them. *)
Inductive expected : Type :=
| EVal (v : value)
| EList (vs : list value).

#[global] Instance scalar_eq_dec : EqDecision scalar.
Proof. solve_decision. Defined.

(** [==] on field values. *)
Definition py_eq (a b : value) : bool :=
  match a, b with
  | None, None => true
  | Some (SNum x), Some (SNum y) => Z.eqb x y
  | Some (SStr s), Some (SStr t) => String.eqb s t
  | _, _ => false
  end.

(** [<] on field values: defined between two numbers or two strings,
    [TypeError] otherwise. *)
Definition py_lt (a b : value) : outcome bool :=
  match a, b with
  | Some (SNum x), Some (SNum y) => Return (Z.ltb x y)
  | Some (SStr s), Some (SStr t) => Return (String.ltb s t)
  | _, _ => Raise TypeError
  end.

Definition py_gt (a b : value) : outcome bool := py_lt b a.

Definition py_le (a b : value) : outcome bool :=
  match a, b with
  | Some (SNum x), Some (SNum y) => Return (Z.leb x y)
  | Some (SStr s), Some (SStr t) => Return (String.leb s t)
  | _, _ => Raise TypeError
  end.

Definition py_ge (a b : value) : outcome bool := py_le b a.

(** [s in t] for two strings: [s] occurs in [t]. *)
Fixpoint str_contains (t s : string) : bool :=
  String.prefix s t ||
  match t with
  | EmptyString => false
  | String _ t' => str_contains t' s
  end.

(** ** The [operator] module *)

Module operator.

Definition eq (a : value) (b : expected) : outcome bool :=
  match b with
  | EVal v => Return (py_eq a v)
  | EList _ => Return false
  end.

Definition ne (a : value) (b : expected) : outcome bool :=
  match b with
  | EVal v => Return (negb (py_eq a v))
  | EList _ => Return true
  end.

Definition ordering (op : value -> value -> outcome bool)
    (a : value) (b : expected) : outcome bool :=
  match b with
  | EVal v => op a v
  | EList _ => Raise TypeError
  end.

Definition lt := ordering py_lt.
Definition gt := ordering py_gt.
Definition le := ordering py_le.
Definition ge := ordering py_ge.

(** [operator.contains(b, a)] is [a in b]. *)
Definition contains (b : expected) (a : value) : outcome bool :=
  match b with
  | EList vs => Return (existsb (py_eq a) vs)
  | EVal (Some (SStr t)) =>
      match a with
      | Some (SStr s) => Return (str_contains t s)
      | _ => Raise TypeError
      end
  | EVal _ => Raise TypeError
  end.

(** [getattr(operator, name)] for the comparison functions; the other
    attributes of the module are not embedded and the lookup of any
    other name is an [AttributeError] here. *)
Definition getattr (name : string) : outcome (value -> expected -> outcome bool) :=
  if String.eqb name "eq" then Return eq
  else if String.eqb name "ne" then Return ne
  else if String.eqb name "lt" then Return lt
  else if String.eqb name "gt" then Return gt
  else if String.eqb name "le" then Return le
  else if String.eqb name "ge" then Return ge
  else Raise AttributeError.

End operator.

(** ** The enumerations *)

Definition str_in (s : string) (l : list string) : bool :=
  existsb (String.eqb s) l.

Module ConditionParam.
Definition LIMIT := "limit".
Definition OFFSET := "offset".
Definition SORTED_NAME := "sorted_name".
Definition SORTED_TYPE := "sorted_type".
Definition LINEAGE_TYPE := "lineage_type".

Definition _value2member_map_ : list string :=
  [LIMIT; OFFSET; SORTED_NAME; SORTED_TYPE; LINEAGE_TYPE].

Definition is_condition_type (value : string) : bool :=
  str_in value _value2member_map_.
End ConditionParam.

Module ExpressionType.
Definition EQ := "eq".
Definition LT := "lt".
Definition GT := "gt".
Definition LE := "le".
Definition GE := "ge".
Definition IN := "in".

Definition _value2member_map_ : list string := [EQ; LT; GT; LE; GE; IN].

Definition is_valid_exp (key : string) : bool :=
  str_in key _value2member_map_.

Definition is_match (except_key : string) (except_value : expected)
    (actual_value : value) : outcome bool :=
  if bool_decide (actual_value = None) && str_in except_key [LT; GT; LE; GE]
  then Return false
  else if String.eqb except_key IN
  then operator.contains except_value actual_value
  else f <-! operator.getattr except_key; f actual_value except_value.
End ExpressionType.

Module LineageFilterKey.
Definition METRIC := "metric".
Definition HYPER_PARAM := "hyper_parameters".
Definition ALGORITHM := "algorithm".
Definition TRAIN_DATASET := "train_dataset".
Definition VALID_DATASET := "valid_dataset".
Definition MODEL := "model".
Definition DATASET_GRAPH := "dataset_graph".

Definition get_key_list : list string :=
  [METRIC; HYPER_PARAM; ALGORITHM; TRAIN_DATASET; VALID_DATASET; MODEL;
   DATASET_GRAPH].

Definition is_valid_filter_key (key : string) : bool :=
  str_in key get_key_list.
End LineageFilterKey.

Module LineageType.
Definition DATASET := "dataset".
Definition MODEL := "model".
End LineageType.

(** ** Built-ins and library functions used by the module *)

(** [str(n)] and [int(s)] on the naturals and the digit strings. *)
Definition py_str (n : nat) : string :=
  NilEmpty.string_of_uint (Nat.to_uint n).

Definition py_int (s : string) : outcome nat :=
  match s with
  | EmptyString => Raise ValueError
  | _ =>
      match NilEmpty.uint_of_string s with
      | Some d => Return (Nat.of_uint d)
      | None => Raise ValueError
      end
  end.

(** [max] over strings: the first greatest element in the order of [<] on
    strings, which compares character by character. *)
Definition py_max (l : list string) : outcome string :=
  match l with
  | [] => Raise ValueError
  | s :: rest =>
      Return (fold_left (fun m x => if String.ltb m x then x else m) rest s)
  end.

(** [posixpath.dirname]. *)
Definition is_sep (c : ascii) : bool := Ascii.eqb c "/"%char.

Fixpoint upto_last_sep (p : string) : string :=
  match p with
  | EmptyString => EmptyString
  | String c p' =>
      match upto_last_sep p' with
      | EmptyString => if is_sep c then String c EmptyString else EmptyString
      | h => String c h
      end
  end.

Fixpoint all_sep (s : string) : bool :=
  match s with
  | EmptyString => true
  | String c s' => is_sep c && all_sep s'
  end.

Fixpoint rstrip_sep (s : string) : string :=
  match s with
  | EmptyString => EmptyString
  | String c s' =>
      match rstrip_sep s' with
      | EmptyString => if is_sep c then EmptyString else String c EmptyString
      | r => String c r
      end
  end.

Definition dirname (p : string) : string :=
  let head := upto_last_sep p in
  if negb (String.eqb head "") && negb (all_sep head)
  then rstrip_sep head else head.

(** [l[start:stop]] for integer bounds; a negative bound counts from the
    end and every bound is clipped to the list. *)
Definition slice_bound (len i : Z) : Z :=
  if i <? 0 then Z.max (i + len) 0 else Z.min i len.

Definition py_slice {A} (l : list A) (start stop : Z) : list A :=
  let len := Z.of_nat (length l) in
  let s := slice_bound len start in
  let e := slice_bound len stop in
  take (Z.to_nat (e - s)) (drop (Z.to_nat s) l).

(** [filter(f, l)] forced into a list: [f] runs on the elements in order
    and the first exception ends the call. *)
Fixpoint py_filter {A} (f : A -> outcome bool) (l : list A) : outcome (list A) :=
  match l with
  | [] => Return []
  | x :: l' =>
      b <-! f x;
      r <-! py_filter f l';
      Return (if b then x :: r else r)
  end.

(** [sorted(l, key=cmp_to_key(cmp), reverse=reverse)].  The key objects
    compare with [cmp(a, b) < 0].  The sort is stable and is written here as
    an insertion sort; with [reverse] the list is reversed, sorted and
    reversed again, which is how the built-in keeps equal elements in their
    original order.  A comparison that raises ends the sort; which pairs
    the built-in compares on the way is its own affair, so the properties of
    the sort are stated for lists on which no comparison raises. *)
Definition cmp_to_key {A} (cmp : A -> A -> outcome Z) (a b : A) : outcome bool :=
  c <-! cmp a b; Return (c <? 0).

Fixpoint insert_sorted {A} (lt : A -> A -> outcome bool) (x : A) (l : list A)
    : outcome (list A) :=
  match l with
  | [] => Return [x]
  | y :: l' =>
      b <-! lt y x;
      if b then r <-! insert_sorted lt x l'; Return (y :: r)
      else Return (x :: y :: l')
  end.

Fixpoint stable_sort {A} (lt : A -> A -> outcome bool) (l : list A)
    : outcome (list A) :=
  match l with
  | [] => Return []
  | x :: l' => s <-! stable_sort lt l'; insert_sorted lt x s
  end.

Definition sorted {A} (l : list A) (key : A -> A -> outcome bool)
    (reverse : bool) : outcome (list A) :=
  if reverse then r <-! stable_sort key (rev l); Return (rev r)
  else stable_sort key l.

(** A dictionary whose iteration order matters is a list of items in
    insertion order; [dict_update] replaces the value of a present key where
    it stands and puts a new key last. *)
Definition dict_get {V} (k : string) (d : list (string * V)) : option V :=
  snd <$> List.find (fun kv => String.eqb kv.1 k) d.

Definition dict_has {V} (k : string) (d : list (string * V)) : bool :=
  str_in k d.*1.

Definition dict_update {V} (k : string) (v : V) (d : list (string * V))
    : list (string * V) :=
  if dict_has k d
  then map (fun kv => if String.eqb kv.1 k then (kv.1, v) else kv) d
  else d ++ [(k, v)].

(** ** The querier *)

Section Querier.

(** Dataset graphs are nested structures that the querier only compares
    with [==]: any type with decidable equality. *)
Context {graph : Type} `{EqDecision graph}.

(** [FIELD_MAPPING] of [query_model]: the table of the field names. *)
Variable FIELD_MAPPING : gset string.

(** *** The collaborators: the analyzer's result and the record *)

(** One section of a parsed log: its field values, and whether every
    required sub-section is there. *)
Record lineage_section : Type := {
  section_complete : bool;
  section_values : gmap string scalar
}.

(** What [LineageSummaryAnalyzer.get_summary_infos] returns. *)
Record lineage_info : Type := {
  train_lineage : option lineage_section;
  eval_lineage : option lineage_section;
  info_dataset_graph : option graph
}.

(** The state of the log files during one call: what the analyzer does
    on each path. *)
Definition analyzer : Type := string -> outcome lineage_info.

(** Modelled from the spec: the record of [query_model], with the
    attributes that the querier reads and writes.  A run without a dataset
    graph has [None] for it, and the mark is unset until the grouping pass
    gives one. *)
Record LineageObj : Type := {
  summary_dir : string;
  lineage_values : gmap string scalar;
  dataset_graph : option graph;
  dataset_mark : option string
}.

Definition set_dataset_mark (o : LineageObj) (mark : string) : LineageObj :=
  {| summary_dir := summary_dir o;
     lineage_values := lineage_values o;
     dataset_graph := dataset_graph o;
     dataset_mark := Some mark |}.

(** Modelled from the spec: the constructor of [LineageObj], which is in
    [query_model] and not in this file.  It fails when the train lineage is
    absent and when a section lacks a required sub-section; the record it
    builds holds the directory, the values of both sections, the dataset
    graph, and no mark yet. *)
Definition LineageObj_init (summary_dir : string) (info : lineage_info)
    : outcome LineageObj :=
  match train_lineage info with
  | None => Raise LineageEventNotExistException
  | Some train =>
      let eval := default {| section_complete := true; section_values := ∅ |}
                          (eval_lineage info) in
      if section_complete train && section_complete eval
      then Return {| summary_dir := summary_dir;
                     lineage_values := section_values train ∪ section_values eval;
                     dataset_graph := info_dataset_graph info;
                     dataset_mark := None |}
      else Raise LineageEventFieldNotExistException
  end.

(** Modelled from the spec: [LineageObj.get_value_by_key], the value of a
    field or [None]. *)
Definition get_value_by_key (o : LineageObj) (key : string) : value :=
  lineage_values o !! key.

(** The projections of a record are kept as they are requested. *)
Inductive projection : Type :=
| summary_info (o : LineageObj) (filter_keys : list string)
| dataset_lineage_dict (o : LineageObj)
| filtration_dict (o : LineageObj).

(** *** The state *)

(** The attributes of a [Querier], and the paths handed to the analyzer so
    far, in call order (a ghost field that records the calls). *)
Record Querier : Type := {
  _lineage_objects : list LineageObj;
  _index_map : gmap string nat;
  _parse_failed_paths : list string;
  _size : nat;
  analyzer_calls : list string
}.

Definition with_objects (objs : list LineageObj) (q : Querier) : Querier :=
  {| _lineage_objects := objs; _index_map := _index_map q;
     _parse_failed_paths := _parse_failed_paths q; _size := _size q;
     analyzer_calls := analyzer_calls q |}.

Definition with_index (dir : string) (index : nat) (q : Querier) : Querier :=
  {| _lineage_objects := _lineage_objects q;
     _index_map := <[dir := index]> (_index_map q);
     _parse_failed_paths := _parse_failed_paths q; _size := _size q;
     analyzer_calls := analyzer_calls q |}.

Definition with_failed (paths : list string) (q : Querier) : Querier :=
  {| _lineage_objects := _lineage_objects q; _index_map := _index_map q;
     _parse_failed_paths := paths; _size := _size q;
     analyzer_calls := analyzer_calls q |}.

Definition with_size (n : nat) (q : Querier) : Querier :=
  {| _lineage_objects := _lineage_objects q; _index_map := _index_map q;
     _parse_failed_paths := _parse_failed_paths q; _size := n;
     analyzer_calls := analyzer_calls q |}.

Definition with_call (path : string) (q : Querier) : Querier :=
  {| _lineage_objects := _lineage_objects q; _index_map := _index_map q;
     _parse_failed_paths := _parse_failed_paths q; _size := _size q;
     analyzer_calls := analyzer_calls q ++ [path] |}.

(** *** [_add_dataset_mark] *)

Definition group_table : Type := list (string * option graph).

(** The inner loop: the mark of the first group whose graph equals the
    record's, or ["0"]. *)
Definition find_mark (g : option graph) (marked_dataset_group : group_table)
    : string :=
  default "0"
    (fst <$> List.find (fun kv => bool_decide (kv.2 = g)) marked_dataset_group).

(** [str(int(max(marked_dataset_group.keys())) + 1)]. *)
Definition new_mark (marked_dataset_group : group_table) : outcome string :=
  m <-! py_max marked_dataset_group.*1;
  n <-! py_int m;
  Return (py_str (n + 1)).

(** One turn of the outer loop: the mark of the record and the table
    after it. *)
Definition mark_one (marked_dataset_group : group_table) (lineage : LineageObj)
    : outcome (string * group_table) :=
  let dataset_mark := find_mark (dataset_graph lineage) marked_dataset_group in
  if String.eqb dataset_mark "0"
  then
    dataset_mark <-! new_mark marked_dataset_group;
    Return (dataset_mark,
            dict_update dataset_mark (dataset_graph lineage) marked_dataset_group)
  else Return (dataset_mark, marked_dataset_group).

Fixpoint mark_all (marked_dataset_group : group_table) (objs : list LineageObj)
    : outcome (list LineageObj) :=
  match objs with
  | [] => Return []
  | lineage :: rest =>
      marked <-! mark_one marked_dataset_group lineage;
      rest' <-! mark_all marked.2 rest;
      Return (set_dataset_mark lineage marked.1 :: rest')
  end.

Definition _add_dataset_mark (objs : list LineageObj) : outcome (list LineageObj) :=
  mark_all [("1", None)] objs.

(** *** Ingestion *)

(** The exceptions that the [except] clause of [_parse_summary_log]
    catches. *)
Definition is_caught (e : exn) : bool :=
  match e with
  | LineageSummaryAnalyzeException
  | LineageEventNotExistException
  | LineageEventFieldNotExistException => true
  | _ => false
  end.

Definition _parse_summary_log (w : analyzer) (log_path : string) (index : nat)
    (is_save_fail_path : bool) (q : Querier) : outcome bool * Querier :=
  let log_dir := dirname log_path in
  let q := with_call log_path q in
  match (lineage_info <-! w log_path; LineageObj_init log_dir lineage_info) with
  | Return lineage_obj =>
      let q := with_objects (_lineage_objects q ++ [lineage_obj]) q in
      match _add_dataset_mark (_lineage_objects q) with
      | Return marked => (Return true, with_index log_dir index (with_objects marked q))
      | Raise e => (Raise e, q)   (* never taken: the pass always returns *)
      end
  | Raise e =>
      if is_caught e
      then (Return false,
            if is_save_fail_path
            then with_failed (_parse_failed_paths q ++ [log_path]) q
            else q)
      else (Raise e, q)
  end.

(** The [for] loop of [_parse_summary_logs] over a list of paths. *)
Fixpoint parse_paths (w : analyzer) (summary_path : list string) (index : nat)
    (q : Querier) : outcome unit * Querier :=
  match summary_path with
  | [] => (Return tt, q)
  | path :: rest =>
      match _parse_summary_log w path index true q with
      | (Return parse_result, q) =>
          parse_paths w rest (if parse_result then S index else index) q
      | (Raise e, q) => (Raise e, q)
      end
  end.

(** The argument of the constructor: a string, a list of strings, or any
    other Python value, of which only the truth value matters. *)
Inductive path_arg : Type :=
| PathStr (s : string)
| PathList (l : list string)
| PathOther (truthy : bool).

Definition truthy (a : path_arg) : bool :=
  match a with
  | PathStr s => negb (String.eqb s "")
  | PathList l => negb (bool_decide (l = []))
  | PathOther b => b
  end.

Definition _parse_summary_logs (w : analyzer) (summary_path : path_arg)
    (q : Querier) : outcome unit * Querier :=
  if negb (truthy summary_path)
  then (Raise (LineageQuerierParamException "The summary path is empty."), q)
  else
    let '(r, q) :=
      match summary_path with
      | PathStr s =>
          match _parse_summary_log w s 0 true q with
          | (Return _, q) => (Return tt, q)
          | (Raise e, q) => (Raise e, q)
          end
      | PathList l => parse_paths w l 0 q
      | PathOther _ => (Raise LineageParamTypeError, q)
      end in
    match r with
    | Raise e => (Raise e, q)
    | Return _ =>
        if bool_decide (_lineage_objects q = [])
        then (Raise LineageSummaryParseException, q)
        else (Return tt, q)
    end.

Definition empty_querier : Querier :=
  {| _lineage_objects := []; _index_map := ∅; _parse_failed_paths := [];
     _size := 0; analyzer_calls := [] |}.

(** [Querier.__init__]: the new querier, or the exception that leaves
    none. *)
Definition __init__ (w : analyzer) (summary_path : path_arg) : outcome Querier :=
  match _parse_summary_logs w summary_path empty_querier with
  | (Return _, q) => Return (with_size (length (_lineage_objects q)) q)
  | (Raise e, _) => Raise e
  end.

(** The [for] loop of [_parse_fail_summary_logs]; [failed_paths] is the
    local list. *)
Fixpoint retry_paths (w : analyzer) (paths failed_paths : list string)
    (q : Querier) : outcome (list string) * Querier :=
  match paths with
  | [] => (Return failed_paths, q)
  | path :: rest =>
      match _parse_summary_log w path (_size q) false q with
      | (Return true, q) => retry_paths w rest failed_paths (with_size (S (_size q)) q)
      | (Return false, q) => retry_paths w rest (failed_paths ++ [path]) q
      | (Raise e, q) => (Raise e, q)
      end
  end.

Definition _parse_fail_summary_logs (w : analyzer) (q : Querier)
    : outcome unit * Querier :=
  match _parse_failed_paths q with
  | [] => (Return tt, q)
  | paths =>
      match retry_paths w paths [] q with
      | (Return failed_paths, q) => (Return tt, with_failed failed_paths q)
      | (Raise e, q) => (Raise e, q)
      end
  end.

(** *** [get_summary_lineage] *)

Fixpoint check_filter_keys (filter_keys : list string) : outcome unit :=
  match filter_keys with
  | [] => Return tt
  | key :: rest =>
      if negb (LineageFilterKey.is_valid_filter_key key)
      then Raise (LineageQuerierParamException
                    ("The filter key " ++ key ++ " is invalid."))
      else check_filter_keys rest
  end.

(** The first [if] of [get_summary_lineage]: the default keys, or the
    given ones once each is checked. *)
Definition resolve_filter_keys (filter_keys : option (list string))
    : outcome (list string) :=
  match filter_keys with
  | None => Return LineageFilterKey.get_key_list
  | Some keys => _ <-! check_filter_keys keys; Return keys
  end.

Definition get_summary_lineage (w : analyzer) (summary_dir : option string)
    (filter_keys : option (list string)) (q : Querier)
    : outcome (list projection) * Querier :=
  match _parse_fail_summary_logs w q with
  | (Raise e, q) => (Raise e, q)
  | (Return _, q) =>
      (keys <-! resolve_filter_keys filter_keys;
       match summary_dir with
       | None => Return (map (fun item => summary_info item keys) (_lineage_objects q))
       | Some dir =>
           match _index_map q !! dir with
           | None => Raise (LineageQuerierParamException
                              ("Summary dir " ++ dir ++ " does not exist."))
           | Some index =>
               match _lineage_objects q !! index with
               | Some lineage_obj => Return [summary_info lineage_obj keys]
               | None => Raise IndexError
               end
           end
       end, q)
  end.

(** *** [filter_summary_lineage] *)

(** A value of the condition: an integer, a string, [None], or the
    dictionary of the expressions of a field. *)
Inductive cond_value : Type :=
| CInt (z : Z)
| CStr (s : string)
| CNone
| CDict (d : list (string * expected)).

Definition condition : Type := list (string * cond_value).

(** [v == s] for what [condition.get] returns and a string literal. *)
Definition get_is_str (v : option cond_value) (s : string) : bool :=
  match v with
  | Some (CStr t) => String.eqb t s
  | _ => false
  end.

(** [_is_valid_field]: true when the field name is NOT a supported one. *)
Definition _is_valid_field (field_name : string) : bool :=
  bool_decide (field_name ∉ FIELD_MAPPING)
  && negb (String.prefix "metric_" field_name).

(** The inner loop of [_filter] over the expressions of one field. *)
Fixpoint filter_expressions (value : value) (exps : list (string * expected))
    : outcome bool :=
  match exps with
  | [] => Return true
  | (exp_key, exp_value) :: rest =>
      if negb (ExpressionType.is_valid_exp exp_key)
      then Raise (LineageQuerierParamException
                    ("The expression " ++ exp_key ++ " not supported."))
      else
        matched <-! ExpressionType.is_match exp_key exp_value value;
        if matched then filter_expressions value rest else Return false
  end.

Fixpoint _filter (condition : condition) (lineage_obj : LineageObj)
    : outcome bool :=
  match condition with
  | [] => Return true
  | (condition_key, condition_value) :: rest =>
      if ConditionParam.is_condition_type condition_key
      then _filter rest lineage_obj
      else if _is_valid_field condition_key
      then Raise (LineageQuerierParamException
                    ("The field " ++ condition_key ++ " not supported"))
      else
        let value := get_value_by_key lineage_obj condition_key in
        matched <-! match condition_value with
                    | CDict exps => filter_expressions value exps
                    | _ => Raise AttributeError
                    end;
        if matched then _filter rest lineage_obj else Return false
  end.

Definition b2z (b : bool) : Z := if b then 1 else 0.

Definition _cmp (sorted_name : string) (obj1 obj2 : LineageObj) : outcome Z :=
  let value1 := get_value_by_key obj1 sorted_name in
  let value2 := get_value_by_key obj2 sorted_name in
  match value1, value2 with
  | None, None => Return 0
  | None, _ => Return (-1)
  | _, None => Return 1
  | _, _ =>
      gt <-! py_gt value1 value2;
      lt <-! py_lt value1 value2;
      Return (b2z gt - b2z lt)
  end.

Definition _handle_limit_and_offset {A} (condition : condition) (result : list A)
    : outcome (list A) :=
  let offset :=
    if dict_has ConditionParam.OFFSET condition
    then default CNone (dict_get ConditionParam.OFFSET condition) else CInt 0 in
  let limit :=
    if dict_has ConditionParam.LIMIT condition
    then default CNone (dict_get ConditionParam.LIMIT condition) else CInt 10 in
  if negb (dict_has ConditionParam.OFFSET condition)
     && negb (dict_has ConditionParam.LIMIT condition)
  then Return result
  else
    match offset, limit with
    | CInt offset, CInt limit =>
        Return (py_slice result (offset * limit) (limit * (offset + 1)))
    | _, _ => Raise TypeError
    end.

(** The dictionary that [filter_summary_lineage] returns. *)
Record lineage_result : Type := {
  object : list projection;
  count : nat
}.

(** The part of [filter_summary_lineage] between the filter and the
    pagination: the sort, when the condition asks for one. *)
Definition sort_result (condition : condition) (result : list LineageObj)
    : outcome (list LineageObj) :=
  if dict_has ConditionParam.SORTED_NAME condition
  then
    match default CNone (dict_get ConditionParam.SORTED_NAME condition) with
    | CStr sorted_name =>
        if _is_valid_field sorted_name
        then Raise (LineageQuerierParamException
                      ("The sorted name " ++ sorted_name ++ " not supported."))
        else
          let sorted_type := dict_get ConditionParam.SORTED_TYPE condition in
          let reverse := get_is_str sorted_type "descending" in
          sorted result (cmp_to_key (_cmp sorted_name)) reverse
    | CDict _ => Raise TypeError
    | _ => Raise AttributeError
    end
  else Return result.

Definition project (condition : condition) (item : LineageObj) : projection :=
  let search_type := dict_get ConditionParam.LINEAGE_TYPE condition in
  if get_is_str search_type LineageType.DATASET
  then dataset_lineage_dict item else filtration_dict item.

Definition filter_summary_lineage (w : analyzer) (condition : option condition)
    (q : Querier) : outcome lineage_result * Querier :=
  match _parse_fail_summary_logs w q with
  | (Raise e, q) => (Raise e, q)
  | (Return _, q) =>
      let condition := default [] condition in
      (result <-! py_filter (_filter condition) (_lineage_objects q);
       result <-! sort_result condition result;
       offset_result <-! _handle_limit_and_offset condition result;
       Return {| object := map (project condition) offset_result;
                 count := length result |}, q)
  end.

End Querier.

(** ** Notions used to state the properties *)

(** The stable insertion sort for a comparison that does not raise: what
    [stable_sort] computes when every comparison returns. *)
Fixpoint insert_by {A} (lt : A -> A -> bool) (x : A) (l : list A) : list A :=
  match l with
  | [] => [x]
  | y :: l' => if lt y x then y :: insert_by lt x l' else x :: y :: l'
  end.

Fixpoint sort_by {A} (lt : A -> A -> bool) (l : list A) : list A :=
  match l with
  | [] => []
  | x :: l' => insert_by lt x (sort_by lt l')
  end.

(** Neither of two elements is below the other. *)
Definition tied {A} (lt : A -> A -> bool) (x a : A) : bool :=
  negb (lt x a) && negb (lt a x).

(** The order that [_cmp] gives to the values of a field: [None] first,
    then the numbers by size and the strings lexically.  A number and a
    string are not comparable in Python; that numbers come first here only
    makes the order total. *)
Definition value_lt (a b : value) : bool :=
  match a, b with
  | None, None => false
  | None, Some _ => true
  | Some _, None => false
  | Some (SNum x), Some (SNum y) => Z.ltb x y
  | Some (SStr s), Some (SStr t) => String.ltb s t
  | Some (SNum _), Some (SStr _) => true
  | Some (SStr _), Some (SNum _) => false
  end.

Definition comparable (a b : value) : bool :=
  match a, b with
  | Some (SNum _), Some (SStr _) | Some (SStr _), Some (SNum _) => false
  | _, _ => true
  end.

Section Notions.

Context {graph : Type} `{EqDecision graph}.

(** What the [try] block of [_parse_summary_log] builds from a path. *)
Definition attempt (w : analyzer) (log_path : string)
    : outcome (LineageObj (graph := graph)) :=
  lineage_info <-! w log_path; LineageObj_init (dirname log_path) lineage_info.

(** The path parses under [w]. *)
Definition parses (w : analyzer (graph := graph)) (log_path : string) : bool :=
  is_return (attempt w log_path).

(** The path parses or fails with an exception that is caught. *)
Definition retryable (w : analyzer (graph := graph)) (log_path : string) : bool :=
  match attempt w log_path with
  | Return _ => true
  | Raise e => is_caught e
  end.

(** The order of two records by the value of a field. *)
Definition key_lt (sorted_name : string) (o1 o2 : LineageObj (graph := graph))
    : bool :=
  value_lt (get_value_by_key o1 sorted_name) (get_value_by_key o2 sorted_name).

(** No two records of the list have a number and a string for the
    field. *)
Definition keys_comparable (sorted_name : string)
    (l : list (LineageObj (graph := graph))) : bool :=
  forallb (fun a =>
    forallb (fun b => comparable (get_value_by_key a sorted_name)
                                 (get_value_by_key b sorted_name)) l) l.

(** The record [a] has the same value for the field as [x]. *)
Definition same_key (sorted_name : string) (x a : LineageObj (graph := graph))
    : bool :=
  bool_decide (get_value_by_key a sorted_name = get_value_by_key x sorted_name).

(** Two conditions that differ at most in the values of [limit] and
    [offset]. *)
Definition same_but_paging (c1 c2 : condition) : Prop :=
  Forall2 (fun kv1 kv2 : string * cond_value =>
             kv1.1 = kv2.1 /\
             (kv1.1 = ConditionParam.LIMIT \/ kv1.1 = ConditionParam.OFFSET \/
              kv1.2 = kv2.2)) c1 c2.

(** The integer that the condition gives for a control key, or the
    default when the key is absent. *)
Definition control_int (key : string) (dflt : Z) (c : condition) : option Z :=
  if dict_has key c
  then match dict_get key c with Some (CInt z) => Some z | _ => None end
  else Some dflt.

(** The group table of [_add_dataset_mark] is well formed: ["1"] with no
    graph comes first, every mark is a positive number in decimal, and no
    mark and no graph is there twice. *)
Definition table_ok (T : list (string * option graph)) : Prop :=
  head T = Some ("1", None) /\
  (forall k, k ∈ T.*1 -> exists n : nat, (1 <= n)%nat /\ k = py_str n) /\
  NoDup T.*1 /\ NoDup T.*2.

(** The marks given so far, as pairs of a graph and its mark, agree with
    the table: a graph that is in the table is there under its mark, and a
    graph that is no longer there had the mark that the table gives next. *)
Definition consistent (T : list (string * option graph))
    (given : list (option graph * string)) : Prop :=
  forall g m, (g, m) ∈ given ->
    (forall m', (m', g) ∈ T -> m' = m) /\
    (g ∉ T.*2 -> new_mark T = Return m /\ m ∈ T.*1).

Definition marks_of (objs : list (LineageObj (graph := graph)))
    : list (option graph * string) :=
  omap (fun o => pair (dataset_graph o) <$> dataset_mark o) objs.

(** Two records are the same up to the dataset mark. *)
Definition same_record (o o' : LineageObj (graph := graph)) : Prop :=
  summary_dir o' = summary_dir o /\
  lineage_values o' = lineage_values o /\
  dataset_graph o' = dataset_graph o.

(** The records that the paths of a list produce under [w], in order. *)
Definition built (w : analyzer) (paths : list string)
    : list (LineageObj (graph := graph)) :=
  omap (fun p => match attempt w p with
                 | Return o => Some o
                 | Raise _ => None
                 end) paths.

(** The index map after the directories of [paths] are registered one
    after the other from position [index] on. *)
Fixpoint index_from (m : gmap string nat) (index : nat) (paths : list string)
    : gmap string nat :=
  match paths with
  | [] => m
  | p :: paths => index_from (<[dirname p := index]> m) (S index) paths
  end.

(** The index map of a querier gives every held record its position. *)
Definition index_ok (q : Querier (graph := graph)) : Prop :=
  forall (i : nat) o, _lineage_objects q !! i = Some o ->
                      _index_map q !! summary_dir o = Some i.

(** The directories of the held records and of the failed paths are
    pairwise distinct. *)
Definition dirs_distinct (q : Querier (graph := graph)) : Prop :=
  NoDup ((summary_dir <$> _lineage_objects q)
         ++ (dirname <$> _parse_failed_paths q)).

Definition well_indexed (q : Querier (graph := graph)) : Prop :=
  _size q = length (_lineage_objects q) /\ index_ok q /\ dirs_distinct q.

(** The paths of the argument of the constructor. *)
Definition paths_of (a : path_arg) : list string :=
  match a with
  | PathStr s => [s]
  | PathList l => l
  | PathOther _ => []
  end.

(** The queriers that a construction on [summary_path] and then any
    number of completed retry passes lead to; every query starts with such
    a pass, under the state of the log files at that time. *)
Inductive reachable (summary_path : path_arg) : Querier (graph := graph) -> Prop :=
| reachable_init w q :
    __init__ w summary_path = Return q -> reachable summary_path q
| reachable_retry w q q' :
    reachable summary_path q ->
    _parse_fail_summary_logs w q = (Return tt, q') ->
    reachable summary_path q'.

End Notions.

(** ** Sample data *)

Module Sample.

(** Dataset graphs are named by a string in the samples. *)
Definition FIELD_MAPPING : gset string :=
  {["epoch"]} ∪ {["batch_size"]} ∪ {["model_size"]}.

Definition train (epoch : Z) : lineage_section :=
  {| section_complete := true;
     section_values := {["epoch" := SNum epoch]} |}.

Definition parsed (epoch : Z) (g : option string) : lineage_info :=
  {| train_lineage := Some (train epoch);
     eval_lineage := None;
     info_dataset_graph := g |}.

Definition no_train_event : lineage_info (graph := string) :=
  {| train_lineage := None; eval_lineage := None; info_dataset_graph := None |}.

Definition run1 : string := "/base/run1/events.summary".
Definition run2 : string := "/base/run2/events.summary".

(** The first run is complete and the second has no train event yet. *)
Definition w_first : analyzer :=
  fun p => if String.eqb p run1 then Return (parsed 10 (Some "mnist"))
           else if String.eqb p run2 then Return no_train_event
           else Raise LineageSummaryAnalyzeException.

(** Later both runs are complete. *)
Definition w_both : analyzer :=
  fun p => if String.eqb p run1 then Return (parsed 10 (Some "mnist"))
           else if String.eqb p run2 then Return (parsed 20 (Some "mnist"))
           else Raise LineageSummaryAnalyzeException.

Definition the (m : outcome (Querier (graph := string))) : Querier :=
  match m with
  | Return q => q
  | Raise _ => empty_querier
  end.

(** A querier on the first run alone, and one on both runs. *)
Definition q_one : Querier := the (__init__ w_first (PathStr run1)).
Definition q_two : Querier := the (__init__ w_first (PathList [run1; run2])).

Definition record (dir : string) (epoch : option Z) (g : option string)
    : LineageObj :=
  {| summary_dir := dir;
     lineage_values := match epoch with
                       | Some e => {["epoch" := SNum e]}
                       | None => ∅
                       end;
     dataset_graph := g;
     dataset_mark := None |}.

(** Two records with the same epoch. *)
Definition tied_pair : list LineageObj :=
  [record "/base/a" (Some 1) None; record "/base/b" (Some 1) None].

Definition asc_cond : condition := [("sorted_name", CStr "epoch")].
Definition desc_cond : condition :=
  [("sorted_name", CStr "epoch"); ("sorted_type", CStr "descending")].

(** Ten records whose dataset graphs are pairwise different. *)
Definition ten_records : list LineageObj :=
  map (fun n => record ("/base/r" ++ py_str n) (Some 1) (Some ("g" ++ py_str n)))
      (seq 1 10).

(** The group table once nine of them are marked. *)
Definition nine_groups : list (string * option string) :=
  ("1", None)
  :: map (fun n => (py_str (n + 1), Some ("g" ++ py_str n))) (seq 1 9).

(** A filter on a field that no record matches, followed by a field that
    does not exist, and one followed by an expression that does not
    exist. *)
Definition mismatch_then_unknown_field : condition :=
  [("epoch", CDict [("eq", EVal (Some (SNum 99)))]);
   ("not_a_field", CDict [("eq", EVal (Some (SNum 1)))])].

Definition mismatch_then_unknown_expression : condition :=
  [("epoch", CDict [("eq", EVal (Some (SNum 99))); ("like", EVal (Some (SNum 1)))])].

Definition unknown_field : condition :=
  [("not_a_field", CDict [("eq", EVal (Some (SNum 1)))])].

Definition page_cond : condition := [("offset", CInt 1); ("limit", CInt 2)].

End Sample.

(** ** Further notions *)

(** A call that returned [True]. *)
Definition returned_true (m : outcome bool) : bool :=
  match m with
  | Return true => true
  | _ => false
  end.

(** An expression of a field passes on a value: its kind is one of the
    six and it matches. *)
Definition expression_ok (actual : value) (e : string * expected) : Prop :=
  ExpressionType.is_valid_exp e.1 = true /\
  ExpressionType.is_match e.1 e.2 actual = Return true.

(** The condition that asks for page [offset] of [limit] records. *)
Definition page (offset limit : Z) : list (string * cond_value) :=
  [("offset", CInt offset); ("limit", CInt limit)].

Section MoreNotions.

Context {graph : Type} `{EqDecision graph}.

(** The table of the grouping pass has the marks ["1"] to [py_str k] for
    some [k] up to ten; the marks given so far are marks of the table, and a
    mark other than ["10"] stands in the table with the graph it was given
    to; every graph of the table is absent or the graph of a marked
    record. *)
Definition bounded_table (T : list (string * option graph))
    (given : list (option graph * string)) : Prop :=
  exists k : nat,
    (1 <= k <= 10)%nat /\
    T.*1 = map py_str (seq 1 k) /\
    (forall g m, (g, m) ∈ given -> m ∈ T.*1 /\ (m <> "10" -> (m, g) ∈ T)) /\
    (forall m g, (m, g) ∈ T -> g = None \/ g ∈ given.*1).

(** The queriers that a construction and then any number of retry passes
    lead to, whether a pass returns or ends with an exception. *)
Inductive reachable_any (summary_path : path_arg) : Querier (graph := graph) -> Prop :=
| reachable_any_init w q :
    __init__ w summary_path = Return q -> reachable_any summary_path q
| reachable_any_retry w q r q' :
    reachable_any summary_path q ->
    _parse_fail_summary_logs w q = (r, q') ->
    reachable_any summary_path q'.

(** The index map holds, for every directory, the position of the last
    held record of that directory, and nothing else. *)
Definition index_last (objs : list (LineageObj (graph := graph)))
    (m : gmap string nat) : Prop :=
  forall (d : string) (i : nat),
    m !! d = Some i <->
    (summary_dir <$> objs) !! i = Some d /\
    forall j : nat, (i < j)%nat -> (summary_dir <$> objs) !! j <> Some d.

(** The marks of the held records are those that the grouping pass gives
    them. *)
Definition marks_current (objs : list (LineageObj (graph := graph))) : Prop :=
  _add_dataset_mark objs = Return objs.

Definition querier_ok (q : Querier (graph := graph)) : Prop :=
  _size q = length (_lineage_objects q) /\
  index_last (_lineage_objects q) (_index_map q) /\
  marks_current (_lineage_objects q).

(** An entry of a condition passes on a record: it is a control key, or
    a supported field with a dictionary of expressions that all pass on the
    value of the field. *)
Definition entry_ok (FIELD_MAPPING : gset string) (o : LineageObj (graph := graph))
    (kv : string * cond_value) : Prop :=
  ConditionParam.is_condition_type kv.1 = true \/
  (_is_valid_field FIELD_MAPPING kv.1 = false /\
   exists exps, kv.2 = CDict exps /\
                Forall (expression_ok (get_value_by_key o kv.1)) exps).

End MoreNotions.

(** ** More sample data *)

Module MoreSample.

Definition run3 : string := "/base/run3/events.summary".

(** The second run is complete and reading the third raises an exception
    that the querier does not catch. *)
Definition w_abort : analyzer :=
  fun p => if String.eqb p Sample.run2 then Return (Sample.parsed 20 (Some "mnist"))
           else if String.eqb p run3 then Raise (OtherError "OSError")
           else Return (Sample.parsed 10 (Some "mnist")).

(** All three runs are complete. *)
Definition w_all : analyzer :=
  fun p => if String.eqb p Sample.run2 then Return (Sample.parsed 20 (Some "mnist"))
           else if String.eqb p run3 then Return (Sample.parsed 30 (Some "cifar"))
           else Return (Sample.parsed 10 (Some "mnist")).

(** A querier on three runs of which the first alone parsed. *)
Definition q_three : Querier :=
  Sample.the (__init__ Sample.w_first (PathList [Sample.run1; Sample.run2; run3])).

Definition epoch_at_least (n : Z) : condition :=
  [("lineage_type", CStr "model"); ("epoch", CDict [("ge", EVal (Some (SNum n)))])].

Definition unknown_after_control : condition :=
  [("lineage_type", CStr "model"); ("not_a_field", CDict [("eq", EVal (Some (SNum 1)))])].

Definition sorted_by_unknown : condition := [("sorted_name", CStr "not_a_field")].

(** Three records with different values for the epoch, one without. *)
Definition distinct_records : list LineageObj :=
  [Sample.record "/base/a" (Some 2) None; Sample.record "/base/b" (Some 1) None;
   Sample.record "/base/c" None (Some "mnist")].

End MoreSample.

(** * Properties *)

Local Open Scope list_scope.

(** ** The filter expressions *)

Lemma py_eq_spec (a b : value) : py_eq a b = bool_decide (a = b).
Proof.
  destruct a as [[x|s]|], b as [[y|t]|]; simpl; try reflexivity.
  - destruct (Z.eqb_spec x y) as [->|Hne].
    + symmetry. by apply bool_decide_eq_true.
    + symmetry. apply bool_decide_eq_false. congruence.
  - destruct (String.eqb_spec s t) as [->|Hne].
    + symmetry. by apply bool_decide_eq_true.
    + symmetry. apply bool_decide_eq_false. congruence.
Qed.

Lemma existsb_py_eq (a : value) (vs : list value) :
  existsb (py_eq a) vs = bool_decide (a ∈ vs).
Proof.
  induction vs as [|v vs IH]; simpl.
  - reflexivity.
  - rewrite IH, py_eq_spec.
    destruct (decide (a = v)) as [->|Hne].
    + rewrite bool_decide_eq_true_2 by done. simpl.
      symmetry. apply bool_decide_eq_true. apply elem_of_cons. by left.
    + rewrite (bool_decide_eq_false_2 (a = v)) by done. simpl.
      apply bool_decide_ext. rewrite elem_of_cons.
      split; [by right | by intros [?|?]].
Qed.

(** C5.  [is_match] is false on a [None] actual value for each of the four
    ordering kinds, whatever is expected; for [in] and a list it is true
    exactly when the actual value is an element of the list; for every other
    kind it is the comparison operator of that name applied to the actual and
    the expected value: equality of the values for [eq], and for the ordering
    kinds the order of the integers on two numbers and the lexical order on
    two strings. *)
Theorem is_match_kinds :
  (forall e : expected,
      ExpressionType.is_match "lt" e None = Return false /\
      ExpressionType.is_match "gt" e None = Return false /\
      ExpressionType.is_match "le" e None = Return false /\
      ExpressionType.is_match "ge" e None = Return false) /\
  (forall (vs : list value) (a : value),
      ExpressionType.is_match "in" (EList vs) a = Return (bool_decide (a ∈ vs))) /\
  (forall (e : expected) (a : value),
      ExpressionType.is_match "in" e a = operator.contains e a /\
      ExpressionType.is_match "eq" e a = operator.eq a e) /\
  (forall (e : expected) (x : scalar),
      ExpressionType.is_match "lt" e (Some x) = operator.lt (Some x) e /\
      ExpressionType.is_match "gt" e (Some x) = operator.gt (Some x) e /\
      ExpressionType.is_match "le" e (Some x) = operator.le (Some x) e /\
      ExpressionType.is_match "ge" e (Some x) = operator.ge (Some x) e) /\
  (forall a b : value,
      operator.eq a (EVal b) = Return (bool_decide (a = b))) /\
  (forall x y : Z,
      operator.lt (Some (SNum x)) (EVal (Some (SNum y))) = Return (bool_decide (x < y)) /\
      operator.gt (Some (SNum x)) (EVal (Some (SNum y))) = Return (bool_decide (x > y)) /\
      operator.le (Some (SNum x)) (EVal (Some (SNum y))) = Return (bool_decide (x <= y)) /\
      operator.ge (Some (SNum x)) (EVal (Some (SNum y))) = Return (bool_decide (x >= y))) /\
  (forall s t : string,
      operator.lt (Some (SStr s)) (EVal (Some (SStr t)))
        = Return (bool_decide (String.compare s t = Lt)) /\
      operator.gt (Some (SStr s)) (EVal (Some (SStr t)))
        = Return (bool_decide (String.compare s t = Gt)) /\
      operator.le (Some (SStr s)) (EVal (Some (SStr t)))
        = Return (bool_decide (String.compare s t <> Gt)) /\
      operator.ge (Some (SStr s)) (EVal (Some (SStr t)))
        = Return (bool_decide (String.compare s t <> Lt))).
Proof.
  repeat match goal with |- _ /\ _ => split end.
  - intros e. by repeat split.
  - intros vs a. unfold ExpressionType.is_match. simpl.
    destruct (bool_decide (a = None)); simpl; by rewrite existsb_py_eq.
  - intros e a. unfold ExpressionType.is_match. simpl.
    by destruct (bool_decide (a = None)).
  - intros e x. by repeat split.
  - intros a b. simpl. by rewrite py_eq_spec.
  - intros x y. unfold operator.gt, operator.ge, py_gt, py_ge. simpl.
    repeat split; f_equal.
    + destruct (Z.ltb_spec x y); symmetry;
        [by apply bool_decide_eq_true | apply bool_decide_eq_false; lia].
    + destruct (Z.ltb_spec y x); symmetry;
        [apply bool_decide_eq_true; lia | apply bool_decide_eq_false; lia].
    + destruct (Z.leb_spec x y); symmetry;
        [by apply bool_decide_eq_true | apply bool_decide_eq_false; lia].
    + destruct (Z.leb_spec y x); symmetry;
        [apply bool_decide_eq_true; lia | apply bool_decide_eq_false; lia].
  - intros s t. unfold operator.gt, operator.ge, py_gt, py_ge. simpl.
    unfold String.ltb, String.leb. rewrite (String.compare_antisym t s).
    destruct (String.compare s t); simpl; repeat split; f_equal; symmetry;
      solve [ by apply bool_decide_eq_true
            | apply bool_decide_eq_false; congruence ].
Qed.

(** ** Pagination *)

Lemma py_slice_lookup {A} (l : list A) (s n i : nat) :
  py_slice l (Z.of_nat s) (Z.of_nat (s + n)) !! i
  = if bool_decide (i < n)%nat then l !! (s + i)%nat else None.
Proof.
  unfold py_slice, slice_bound.
  destruct (Z.ltb_spec (Z.of_nat s) 0) as [?|_]; [lia|].
  destruct (Z.ltb_spec (Z.of_nat (s + n)) 0) as [?|_]; [lia|].
  set (len := length l).
  replace (Z.to_nat (Z.of_nat s `min` Z.of_nat len)) with (s `min` len)%nat by lia.
  replace (Z.to_nat (Z.of_nat (s + n) `min` Z.of_nat len - Z.of_nat s `min` Z.of_nat len))
    with ((s + n) `min` len - s `min` len)%nat by lia.
  rewrite lookup_take, lookup_drop.
  case_decide as Hi; case_bool_decide as Hn; try done.
  - replace (s `min` len + i)%nat with (s + i)%nat by lia. done.
  - exfalso. lia.
  - symmetry. apply lookup_ge_None_2. fold len. lia.
Qed.

Lemma py_slice_length {A} (l : list A) (start stop : Z) :
  (length (py_slice l start stop) <= length l)%nat.
Proof.
  unfold py_slice. rewrite length_take, length_drop. lia.
Qed.

(** C7.  Without [limit] and [offset] in the condition the sequence comes
    back unchanged.  With at least one of them, [offset] defaulting to 0 and
    [limit] to 10, the window is the slice from [offset * limit] up to but
    not including [offset * limit + limit]: its element [i] is element
    [offset * limit + i] of the sequence for [i < limit], and it has no
    other; bounds beyond the end give a shorter or an empty window.  For
    all integers the call returns, with a window no longer than the
    sequence. *)
Theorem handle_limit_and_offset_window {A} (c : condition) (result : list A) :
  (dict_has ConditionParam.OFFSET c = false ->
   dict_has ConditionParam.LIMIT c = false ->
   _handle_limit_and_offset c result = Return result) /\
  (forall offset limit : nat,
      dict_has ConditionParam.OFFSET c || dict_has ConditionParam.LIMIT c = true ->
      control_int ConditionParam.OFFSET 0 c = Some (Z.of_nat offset) ->
      control_int ConditionParam.LIMIT 10 c = Some (Z.of_nat limit) ->
      exists window,
        _handle_limit_and_offset c result = Return window /\
        (forall i : nat,
            window !! i = if bool_decide (i < limit)%nat
                          then result !! (offset * limit + i)%nat else None) /\
        (length window <= limit)%nat) /\
  (forall offset limit : Z,
      control_int ConditionParam.OFFSET 0 c = Some offset ->
      control_int ConditionParam.LIMIT 10 c = Some limit ->
      exists window,
        _handle_limit_and_offset c result = Return window /\
        (length window <= length result)%nat).
Proof.
  split; [|split].
  - intros Ho Hl. unfold _handle_limit_and_offset. by rewrite Ho, Hl.
  - intros offset limit Hany Ho Hl.
    exists (py_slice result (Z.of_nat (offset * limit))
                     (Z.of_nat (offset * limit + limit))).
    assert (Hlookup : forall i : nat,
      py_slice result (Z.of_nat (offset * limit))
               (Z.of_nat (offset * limit + limit)) !! i
      = if bool_decide (i < limit)%nat
        then result !! (offset * limit + i)%nat else None)
      by (intros i; apply py_slice_lookup).
    split; [|split; [exact Hlookup|]].
    + unfold _handle_limit_and_offset, control_int in *.
      destruct (dict_has ConditionParam.OFFSET c) eqn:Eo,
               (dict_has ConditionParam.LIMIT c) eqn:El; simpl in *; try done.
      * destruct (dict_get ConditionParam.OFFSET c) as [[]|]; try done.
        destruct (dict_get ConditionParam.LIMIT c) as [[]|]; try done.
        simplify_eq/=. do 2 f_equal; lia.
      * destruct (dict_get ConditionParam.OFFSET c) as [[]|]; try done.
        simplify_eq/=. do 2 f_equal; lia.
      * destruct (dict_get ConditionParam.LIMIT c) as [[]|]; try done.
        simplify_eq/=. do 2 f_equal; lia.
    + destruct (decide (length (py_slice result (Z.of_nat (offset * limit))
                  (Z.of_nat (offset * limit + limit))) <= limit)%nat) as [|Hgt];
        [done|].
      specialize (Hlookup limit).
      rewrite bool_decide_eq_false_2 in Hlookup by lia.
      apply lookup_ge_None_1 in Hlookup. lia.
  - intros offset limit Ho Hl.
    unfold _handle_limit_and_offset, control_int in *.
    destruct (dict_has ConditionParam.OFFSET c) eqn:Eo,
             (dict_has ConditionParam.LIMIT c) eqn:El; simpl in *;
      repeat match goal with
             | H : match ?x with _ => _ end = Some _ |- _ =>
                 destruct x as [[]|]; try discriminate H
             end;
      eexists; (split; [reflexivity|]); (apply py_slice_length || lia).
Qed.

(** ** Decimal marks *)

Lemma py_str_nonempty (n : nat) : py_str n <> "".
Proof.
  unfold py_str.
  assert (Hn : Nat.to_uint n <> Decimal.Nil).
  { intros Hnil. assert (n = 0%nat) as ->
      by (rewrite <- (Unsigned.of_to n), Hnil; reflexivity).
    discriminate Hnil. }
  destruct (Nat.to_uint n); try done; simpl; discriminate.
Qed.

Lemma py_int_py_str (n : nat) : py_int (py_str n) = Return n.
Proof.
  unfold py_int. pose proof (py_str_nonempty n) as Hne.
  destruct (py_str n) eqn:E; [done|]. rewrite <- E. unfold py_str.
  by rewrite NilEmpty.usu, Unsigned.of_to.
Qed.

Lemma py_str_inj (n m : nat) : py_str n = py_str m -> n = m.
Proof.
  intros E. pose proof (py_int_py_str n) as Hn.
  rewrite E, py_int_py_str in Hn. congruence.
Qed.

Lemma str_in_spec (s : string) (l : list string) : str_in s l = bool_decide (s ∈ l).
Proof.
  unfold str_in. induction l as [|x l IH]; simpl; [done|].
  rewrite IH. destruct (String.eqb_spec s x) as [->|Hne]; simpl.
  - symmetry. apply bool_decide_eq_true. by left.
  - apply bool_decide_ext. rewrite elem_of_cons.
    split; [by right | by intros [?|?]].
Qed.

Lemma py_max_elem (x : string) (l : list string) :
  exists m, py_max (x :: l) = Return m /\ m ∈ x :: l.
Proof.
  simpl. eexists; split; [done|].
  revert x. induction l as [|y l IH]; intros x; simpl; [by left|].
  destruct (String.ltb x y).
  - right. apply IH.
  - specialize (IH x). apply elem_of_cons in IH as [->|?].
    + by left.
    + by do 2 right.
Qed.

(** ** The dataset marks *)

Section Marks.

Context {graph : Type} `{EqDecision graph}.
Implicit Types (T : list (string * option graph)) (g : option graph).
Implicit Types (given : list (option graph * string)).
Implicit Types (o : LineageObj (graph := graph)).
Implicit Types (objs marked : list (LineageObj (graph := graph))).

Lemma update_keep T t g :
  t ∉ T.*1 ->
  map (fun kv : string * option graph =>
         if String.eqb kv.1 t then (kv.1, g) else kv) T = T.
Proof.
  induction T as [|[k v] T IH]; simpl; [done|].
  rewrite not_elem_of_cons. intros [Hk HT]. rewrite IH by done.
  destruct (String.eqb_spec k t); [congruence | done].
Qed.

Lemma dict_has_spec {V} (k : string) (d : list (string * V)) :
  dict_has k d = bool_decide (k ∈ d.*1).
Proof. apply str_in_spec. Qed.

Lemma dict_update_append T t g :
  t ∉ T.*1 -> dict_update t g T = T ++ [(t, g)].
Proof.
  intros Ht. unfold dict_update.
  by rewrite dict_has_spec, bool_decide_eq_false_2.
Qed.

Lemma dict_update_replace T t v g :
  NoDup T.*1 -> (t, v) ∈ T ->
  exists T1 T2, T = T1 ++ (t, v) :: T2 /\
                dict_update t g T = T1 ++ (t, g) :: T2.
Proof.
  intros Hnd Hin. destruct (list_elem_of_split _ _ Hin) as (T1 & T2 & ->).
  exists T1, T2. split; [done|].
  rewrite fmap_app, fmap_cons in Hnd. simpl in Hnd.
  apply NoDup_app in Hnd as (_ & Hdisj & Hnd2).
  apply NoDup_cons in Hnd2 as [Ht2 _].
  assert (Ht1 : t ∉ T1.*1).
  { intros Hc. apply (Hdisj _ Hc). by left. }
  unfold dict_update. rewrite dict_has_spec, bool_decide_eq_true_2.
  - rewrite map_app. simpl. rewrite String.eqb_refl.
    by rewrite !update_keep.
  - rewrite fmap_app, fmap_cons. apply elem_of_app. right. by left.
Qed.

Lemma snd_unique T a b (v : option graph) :
  NoDup T.*2 -> (a, v) ∈ T -> (b, v) ∈ T -> a = b.
Proof.
  induction T as [|[k x] T IH]; simpl; intros Hnd Ha Hb.
  - by apply elem_of_nil in Ha.
  - apply NoDup_cons in Hnd as [Hx Hnd].
    apply elem_of_cons in Ha as [Ha|Ha], Hb as [Hb|Hb].
    + congruence.
    + exfalso. apply Hx. inversion Ha; subst.
      eapply list_elem_of_fmap_2'; [exact Hb | done].
    + exfalso. apply Hx. inversion Hb; subst.
      eapply list_elem_of_fmap_2'; [exact Ha | done].
    + by apply IH.
Qed.

Lemma key_not_zero T k : table_ok T -> k ∈ T.*1 -> String.eqb k "0" = false.
Proof.
  intros (_ & Hkeys & _) Hk. destruct (Hkeys _ Hk) as (n & Hn & ->).
  apply String.eqb_neq. intros E. apply (py_str_inj n 0) in E. lia.
Qed.

Lemma find_mark_cases T g :
  table_ok T ->
  (exists k, find_mark g T = k /\ String.eqb k "0" = false /\ (k, g) ∈ T) \/
  (find_mark g T = "0" /\ g ∉ T.*2).
Proof.
  intros HT. unfold find_mark.
  destruct (List.find _ T) as [[k v]|] eqn:E; simpl.
  - left. exists k. apply List.find_some in E as [Hin Hv]. simpl in Hv.
    apply bool_decide_eq_true in Hv. subst v.
    apply list_elem_of_In in Hin. split; [done|]. split; [|done].
    apply (key_not_zero T); [done|].
    by apply (list_elem_of_fmap_2 fst _ (k, g)).
  - right. split; [done|]. intros Hg.
    apply list_elem_of_fmap in Hg as ([k v] & -> & Hin).
    apply list_elem_of_In in Hin.
    pose proof (List.find_none _ _ E _ Hin) as Hv. simpl in Hv.
    by apply bool_decide_eq_false in Hv.
Qed.

Lemma find_mark_none_graph T : table_ok T -> find_mark None T = "1".
Proof.
  intros (Hhd & _). destruct T as [|kv T]; [done|]. simpl in Hhd.
  by simplify_eq.
Qed.

Lemma new_mark_ok T :
  table_ok T -> exists n : nat, (1 <= n)%nat /\ new_mark T = Return (py_str (n + 1)).
Proof.
  intros (Hhd & Hkeys & _). destruct T as [|[k v] T]; [done|].
  unfold new_mark. destruct (py_max_elem k T.*1) as (m & Hm & Hin).
  rewrite fmap_cons. simpl fst. rewrite Hm. simpl.
  destruct (Hkeys m) as (n & Hn & ->); [by rewrite fmap_cons|].
  exists n. split; [done|]. by rewrite py_int_py_str.
Qed.

Lemma new_mark_keys T T' : T.*1 = T'.*1 -> new_mark T = new_mark T'.
Proof. unfold new_mark. by intros ->. Qed.

Lemma consistent_snoc_found T given g k :
  table_ok T -> consistent T given -> (k, g) ∈ T ->
  consistent T (given ++ [(g, k)]).
Proof.
  intros (_ & _ & _ & Hvals) Hcons Hin g' m' Hg'.
  apply elem_of_app in Hg' as [Hg'|Hg']; [by apply Hcons|].
  apply list_elem_of_singleton in Hg'. simplify_eq. split.
  - intros m'' Hm''. by apply (snd_unique T m'' k g).
  - intros Hno. exfalso. apply Hno.
    by apply (list_elem_of_fmap_2 snd _ (k, g)).
Qed.

Lemma consistent_snoc_append T given g t :
  consistent T given -> g ∉ T.*2 -> t ∉ T.*1 -> new_mark T = Return t ->
  consistent (T ++ [(t, g)]) (given ++ [(g, t)]).
Proof.
  intros Hcons Hg Ht Hnew g' m' Hg'.
  apply elem_of_app in Hg' as [Hg'|Hg'].
  - destruct (Hcons _ _ Hg') as [HA HB].
    assert (Hin : g' ∈ T.*2).
    { destruct (decide (g' ∈ T.*2)) as [|Hno]; [done|].
      destruct (HB Hno) as [Hm Hk]. rewrite Hnew in Hm. simplify_eq. done. }
    split.
    + intros m'' Hm''. apply elem_of_app in Hm'' as [Hm''|Hm'']; [by apply HA|].
      apply list_elem_of_singleton in Hm''. simplify_eq. done.
    + intros Hno. exfalso. apply Hno. rewrite fmap_app. apply elem_of_app. by left.
  - apply list_elem_of_singleton in Hg'. simplify_eq. split.
    + intros m'' Hm''. apply elem_of_app in Hm'' as [Hm''|Hm''].
      * exfalso. apply Hg. by apply (list_elem_of_fmap_2 snd _ (m'', g)).
      * apply list_elem_of_singleton in Hm''. by simplify_eq.
    + intros Hno. exfalso. apply Hno. rewrite fmap_app. apply elem_of_app.
      right. simpl. by left.
Qed.

Lemma consistent_snoc_replace T1 T2 given g t v :
  consistent (T1 ++ (t, v) :: T2) given ->
  g ∉ (T1 ++ (t, v) :: T2).*2 ->
  new_mark (T1 ++ (t, v) :: T2) = Return t ->
  consistent (T1 ++ (t, g) :: T2) (given ++ [(g, t)]).
Proof.
  intros Hcons Hg Hnew.
  assert (Hkeys : (T1 ++ (t, g) :: T2).*1 = (T1 ++ (t, v) :: T2).*1)
    by (by rewrite !fmap_app, !fmap_cons).
  assert (Hnew' : new_mark (T1 ++ (t, g) :: T2) = Return t)
    by (by rewrite (new_mark_keys _ _ Hkeys)).
  assert (Hold : forall k x, x <> g -> (k, x) ∈ T1 ++ (t, g) :: T2 ->
                             (k, x) ∈ T1 ++ (t, v) :: T2).
  { intros k x Hx Hin. apply elem_of_app in Hin as [Hin|Hin];
      apply elem_of_app; [by left|]. right.
    apply elem_of_cons in Hin as [Hin|Hin]; [by simplify_eq | by right]. }
  assert (Hgin : (t, g) ∈ T1 ++ (t, g) :: T2)
    by (apply elem_of_app; right; by left).
  intros g' m' Hg'. apply elem_of_app in Hg' as [Hg'|Hg'].
  - destruct (Hcons _ _ Hg') as [HA HB].
    destruct (decide (g' = g)) as [->|Hne].
    + destruct (HB Hg) as [Hm Hk]. rewrite Hnew in Hm. simplify_eq. split.
      * intros m'' Hm''. apply elem_of_app in Hm'' as [Hm''|Hm''].
        -- exfalso. apply Hg. apply (list_elem_of_fmap_2' snd _ (m'', g)); [|done].
           apply elem_of_app. by left.
        -- apply elem_of_cons in Hm'' as [Hm''|Hm'']; [by simplify_eq|].
           exfalso. apply Hg. apply (list_elem_of_fmap_2' snd _ (m'', g)); [|done].
           apply elem_of_app. right. by right.
      * intros Hno. exfalso. apply Hno.
        by apply (list_elem_of_fmap_2' snd _ (m', g)).
    + split.
      * intros m'' Hm''. apply HA. by apply Hold.
      * intros Hno. rewrite Hkeys.
        destruct (decide (g' ∈ (T1 ++ (t, v) :: T2).*2)) as [Hin|Hnin].
        -- apply list_elem_of_fmap in Hin as ([k x] & -> & Hin). simpl in *.
           pose proof (HA _ Hin) as ->.
           assert (m' = t) as ->.
           { apply elem_of_app in Hin as [Hin|Hin].
             - exfalso. apply Hno. apply (list_elem_of_fmap_2' snd _ (m', x)); [|done].
               apply elem_of_app. by left.
             - apply elem_of_cons in Hin as [Hin|Hin]; [by simplify_eq|].
               exfalso. apply Hno. apply (list_elem_of_fmap_2' snd _ (m', x)); [|done].
               apply elem_of_app. right. by right. }
           split; [exact Hnew'|].
           rewrite fmap_app, fmap_cons. apply elem_of_app. right. by left.
        -- destruct (HB Hnin) as [Hm Hk]. split; [|done].
           by rewrite (new_mark_keys _ _ Hkeys).
  - apply list_elem_of_singleton in Hg'. simplify_eq. split.
    + intros m'' Hm''. apply elem_of_app in Hm'' as [Hm''|Hm''].
      * exfalso. apply Hg. apply (list_elem_of_fmap_2' snd _ (m'', g)); [|done].
        apply elem_of_app. by left.
      * apply elem_of_cons in Hm'' as [Hm''|Hm'']; [by simplify_eq|].
        exfalso. apply Hg. apply (list_elem_of_fmap_2' snd _ (m'', g)); [|done].
        apply elem_of_app. right. by right.
    + intros Hno. exfalso. apply Hno.
      by apply (list_elem_of_fmap_2' snd _ (t, g)).
Qed.

Lemma table_ok_append T t g (n : nat) :
  table_ok T -> g ∉ T.*2 -> t ∉ T.*1 -> (1 <= n)%nat -> t = py_str n ->
  table_ok (T ++ [(t, g)]).
Proof.
  intros (Hhd & Hkeys & Hnk & Hnv) Hg Ht Hn ->. repeat split.
  - by destruct T.
  - intros k. rewrite fmap_app. intros [Hk|Hk]%elem_of_app; [by apply Hkeys|].
    apply list_elem_of_singleton in Hk. simpl in Hk. subst k. by exists n.
  - rewrite fmap_app. apply NoDup_app. repeat split; [done| |apply NoDup_singleton].
    intros k Hk Hk'. apply list_elem_of_singleton in Hk'. simpl in Hk'. by subst.
  - rewrite fmap_app. apply NoDup_app. repeat split; [done| |apply NoDup_singleton].
    intros x Hx Hx'. apply list_elem_of_singleton in Hx'. simpl in Hx'. by subst.
Qed.

Lemma table_ok_replace T1 T2 t v g (n : nat) :
  table_ok (T1 ++ (t, v) :: T2) -> g ∉ (T1 ++ (t, v) :: T2).*2 ->
  (1 <= n)%nat -> t = py_str (n + 1) ->
  table_ok (T1 ++ (t, g) :: T2).
Proof.
  intros (Hhd & Hkeys & Hnk & Hnv) Hg Hn ->. repeat split.
  - destruct T1 as [|kv T1]; [|done]. simpl in Hhd. exfalso.
    injection Hhd as E _. change "1" with (py_str 1) in E.
    apply py_str_inj in E. lia.
  - intros k Hk. apply Hkeys. by rewrite fmap_app, fmap_cons in *.
  - by rewrite fmap_app, fmap_cons in *.
  - rewrite fmap_app, fmap_cons in *. simpl in *.
    apply NoDup_app in Hnv as (Hn1 & Hdisj & Hn2).
    apply NoDup_cons in Hn2 as [Hv Hn2].
    apply NoDup_app. repeat split; [done| |].
    + intros x Hx [->|Hx']%elem_of_cons.
      * apply Hg. apply elem_of_app. by left.
      * apply (Hdisj x Hx). by right.
    + apply NoDup_cons. split; [|done]. intros Hg2. apply Hg.
      apply elem_of_app. right. by right.
Qed.

Lemma mark_one_step T given o :
  table_ok T -> consistent T given ->
  exists m T', mark_one T o = Return (m, T') /\ table_ok T' /\
    consistent T' (given ++ [(dataset_graph o, m)]) /\
    (dataset_graph o = None -> m = "1").
Proof.
  intros HT Hcons. unfold mark_one.
  destruct (find_mark_cases T (dataset_graph o) HT)
    as [(k & Hk & Hk0 & Hin) | [H0 Hg]].
  - rewrite Hk, Hk0. exists k, T. split; [done|]. split; [done|]. split.
    + by apply consistent_snoc_found.
    + intros Hnone. rewrite Hnone in Hk.
      by rewrite find_mark_none_graph in Hk.
  - rewrite H0. simpl.
    destruct (new_mark_ok T HT) as (n & Hn & Hnew). rewrite Hnew. simpl.
    eexists _, _. split; [done|].
    assert (Hsome : dataset_graph o <> None).
    { intros Hnone. apply Hg. rewrite Hnone. destruct HT as (Hhd & _).
      destruct T as [|kv T]; [done|]. simpl in Hhd. simplify_eq.
      rewrite fmap_cons. by left. }
    destruct (decide (py_str (n + 1) ∈ T.*1)) as [Hpresent|Habsent].
    + apply list_elem_of_fmap in Hpresent as ([k v] & Hkv & Hpresent).
      simpl in Hkv. subst k.
      destruct (dict_update_replace T _ v (dataset_graph o)
                  (proj1 (proj2 (proj2 HT))) Hpresent) as (T1 & T2 & -> & ->).
      split; [by eapply table_ok_replace|].
      split; [by apply (consistent_snoc_replace _ _ _ _ _ v)|done].
    + rewrite dict_update_append by done.
      split; [eapply (table_ok_append _ _ _ (n + 1)); (done || lia)|].
      split; [by apply consistent_snoc_append|done].
Qed.

Lemma consistent_functional T given g m1 m2 :
  consistent T given -> (g, m1) ∈ given -> (g, m2) ∈ given -> m1 = m2.
Proof.
  intros Hcons H1 H2.
  destruct (Hcons _ _ H1) as [HA1 HB1], (Hcons _ _ H2) as [HA2 HB2].
  destruct (decide (g ∈ T.*2)) as [Hin|Hnin].
  - apply list_elem_of_fmap in Hin as ([k x] & -> & Hin). simpl in *.
    by rewrite <- (HA1 _ Hin), <- (HA2 _ Hin).
  - destruct (HB1 Hnin) as [E1 _], (HB2 Hnin) as [E2 _]. congruence.
Qed.

(** The pass over the records, from any well-formed table: it returns,
    it changes nothing but the marks, and the marks it gives, together
    with those given before, are a function of the graph. *)
Lemma mark_all_spec objs :
  forall T given, table_ok T -> consistent T given ->
  exists marked,
    mark_all T objs = Return marked /\
    Forall2 (fun o o' => exists m, o' = set_dataset_mark o m) objs marked /\
    (forall g m1 m2, (g, m1) ∈ given ++ marks_of marked ->
                     (g, m2) ∈ given ++ marks_of marked -> m1 = m2) /\
    (forall o', o' ∈ marked -> dataset_graph o' = None ->
                dataset_mark o' = Some "1").
Proof.
  induction objs as [|o objs IH]; intros T given HT Hcons.
  - exists []. split; [done|]. split; [constructor|]. split.
    + intros g m1 m2. rewrite app_nil_r. by apply (consistent_functional T).
    + by intros o' Ho'%elem_of_nil.
  - simpl. destruct (mark_one_step T given o HT Hcons)
      as (m & T' & -> & HT' & Hcons' & Hnone).
    simpl. destruct (IH T' _ HT' Hcons') as (marked & -> & Hall & Hfun & Hone).
    simpl. eexists. split; [done|]. split; [|split].
    + constructor; [by exists m | done].
    + intros g m1 m2. unfold marks_of. simpl. fold (marks_of marked).
      rewrite <- !app_assoc in Hfun. simpl in Hfun. apply Hfun.
    + intros o' [->|Ho']%elem_of_cons Hg.
      * simpl in *. by rewrite (Hnone Hg).
      * by apply Hone.
Qed.

Lemma initial_table_ok : table_ok [("1", @None graph)].
Proof.
  split; [done|]. split; [|split].
  - intros k Hk. apply list_elem_of_singleton in Hk. subst k. by exists 1%nat.
  - apply NoDup_singleton.
  - apply NoDup_singleton.
Qed.

Lemma initial_consistent : consistent [("1", @None graph)] [].
Proof. by intros g m Hin%elem_of_nil. Qed.

Lemma marks_of_elem marked o m :
  o ∈ marked -> dataset_mark o = Some m -> (dataset_graph o, m) ∈ marks_of marked.
Proof.
  intros Ho Hm. unfold marks_of. apply list_elem_of_omap.
  exists o. split; [done|]. by rewrite Hm.
Qed.

Lemma marked_has_mark objs marked (o' : LineageObj (graph := graph)) :
  Forall2 (fun o o' => exists m, o' = set_dataset_mark o m) objs marked ->
  o' ∈ marked -> exists m, dataset_mark o' = Some m.
Proof.
  intros Hall Ho'. apply list_elem_of_lookup in Ho' as [i Hi].
  destruct (Forall2_lookup_r _ _ _ _ _ Hall Hi) as (o & _ & m & ->).
  by exists m.
Qed.

(** C4.  The grouping pass returns for every record sequence; it changes
    nothing but the marks; after it any two records with equal dataset
    graphs carry the same mark, and every record without a dataset graph
    carries the mark ["1"].  The sequence is arbitrary, so this holds for
    every order of ingestion. *)
Theorem add_dataset_mark_groups objs :
  exists marked,
    _add_dataset_mark objs = Return marked /\
    Forall2 (fun o o' => exists m, o' = set_dataset_mark o m) objs marked /\
    (forall o1 o2, o1 ∈ marked -> o2 ∈ marked ->
       dataset_graph o1 = dataset_graph o2 ->
       exists m, dataset_mark o1 = Some m /\ dataset_mark o2 = Some m) /\
    (forall o, o ∈ marked -> dataset_graph o = None ->
       dataset_mark o = Some "1").
Proof.
  destruct (mark_all_spec objs _ [] initial_table_ok initial_consistent)
    as (marked & Hrun & Hall & Hfun & Hnone).
  exists marked. split; [done|]. split; [done|]. split; [|done].
  intros o1 o2 Ho1 Ho2 Hg.
  destruct (marked_has_mark _ _ _ Hall Ho1) as [m1 Hm1].
  destruct (marked_has_mark _ _ _ Hall Ho2) as [m2 Hm2].
  exists m1. split; [done|]. rewrite Hm2. f_equal. symmetry.
  apply (Hfun (dataset_graph o1)); simpl.
  - by apply marks_of_elem.
  - rewrite Hg. by apply marks_of_elem.
Qed.

Lemma add_dataset_mark_returns objs :
  exists marked,
    _add_dataset_mark objs = Return marked /\
    Forall2 (fun o o' => exists m, o' = set_dataset_mark o m) objs marked.
Proof.
  destruct (mark_all_spec objs _ [] initial_table_ok initial_consistent)
    as (marked & Hrun & Hall & _). by exists marked.
Qed.

End Marks.

(** ** Ingestion and retry *)

Section Ingestion.

Context {graph : Type} `{EqDecision graph}.
Implicit Types (q : Querier (graph := graph)) (w : analyzer (graph := graph)).
Implicit Types (o : LineageObj (graph := graph)).
Implicit Types (objs marked : list (LineageObj (graph := graph))).

Lemma attempt_dir w p o : attempt w p = Return o -> summary_dir o = dirname p.
Proof.
  unfold attempt, LineageObj_init. destruct (w p) as [info|]; simpl; [|done].
  destruct (train_lineage info); [|done].
  destruct (_ && _); [|done]. by intros [= <-].
Qed.

Lemma same_record_refl o : same_record o o.
Proof. done. Qed.

Lemma same_record_trans o1 o2 o3 :
  same_record o1 o2 -> same_record o2 o3 -> same_record o1 o3.
Proof.
  intros (? & ? & ?) (? & ? & ?). repeat split; congruence.
Qed.

Lemma same_records_refl objs : Forall2 same_record objs objs.
Proof. induction objs; by constructor. Qed.

Lemma same_records_trans objs1 objs2 objs3 :
  Forall2 same_record objs1 objs2 -> Forall2 same_record objs2 objs3 ->
  Forall2 same_record objs1 objs3.
Proof.
  intros H12. revert objs3. induction H12; intros objs3 H23;
    inversion H23; subst; constructor; eauto using same_record_trans.
Qed.

Lemma same_records_marked objs marked :
  Forall2 (fun o o' => exists m, o' = set_dataset_mark o m) objs marked ->
  Forall2 same_record objs marked.
Proof. induction 1 as [|o o' ? ? [m ->]]; by constructor. Qed.

Lemma same_records_dirs objs1 objs2 :
  Forall2 same_record objs1 objs2 ->
  summary_dir <$> objs2 = summary_dir <$> objs1.
Proof.
  induction 1 as [|o o' ? ? (Hd & _)]; [done|]. rewrite !fmap_cons. congruence.
Qed.

(** The three ways [_parse_summary_log] ends. *)
Lemma parse_log_success w p index flag q o :
  attempt w p = Return o ->
  exists marked,
    Forall2 same_record (_lineage_objects q ++ [o]) marked /\
    _add_dataset_mark (_lineage_objects q ++ [o]) = Return marked /\
    _parse_summary_log w p index flag q =
      (Return true,
       {| _lineage_objects := marked;
          _index_map := <[dirname p := index]> (_index_map q);
          _parse_failed_paths := _parse_failed_paths q;
          _size := _size q;
          analyzer_calls := analyzer_calls q ++ [p] |}).
Proof.
  intros Ha. destruct (add_dataset_mark_returns (_lineage_objects q ++ [o]))
    as (marked & Hrun & Hall).
  exists marked. split; [by apply same_records_marked|]. split; [done|].
  unfold _parse_summary_log. unfold attempt in Ha. cbv zeta. rewrite Ha.
  simpl. by rewrite Hrun.
Qed.

Lemma parse_log_caught w p index flag q e :
  attempt w p = Raise e -> is_caught e = true ->
  _parse_summary_log w p index flag q =
    (Return false,
     {| _lineage_objects := _lineage_objects q;
        _index_map := _index_map q;
        _parse_failed_paths :=
          if flag then _parse_failed_paths q ++ [p] else _parse_failed_paths q;
        _size := _size q;
        analyzer_calls := analyzer_calls q ++ [p] |}).
Proof.
  intros Ha He. unfold _parse_summary_log. unfold attempt in Ha.
  cbv zeta. rewrite Ha, He. by destruct flag.
Qed.

Lemma parse_log_fatal w p index flag q e :
  attempt w p = Raise e -> is_caught e = false ->
  _parse_summary_log w p index flag q = (Raise e, with_call p q).
Proof.
  intros Ha He. unfold _parse_summary_log. unfold attempt in Ha.
  cbv zeta. by rewrite Ha, He.
Qed.

Lemma retryable_cases w p :
  retryable w p = true ->
  (exists o, attempt w p = Return o /\ parses w p = true) \/
  (exists e, attempt w p = Raise e /\ is_caught e = true /\ parses w p = false).
Proof.
  unfold retryable, parses. destruct (attempt w p) as [o|e]; intros Hr.
  - left. by exists o.
  - right. by exists e.
Qed.

(** The loop of the constructor over a list of paths none of which
    fails with an exception that is not caught. *)
Lemma parse_paths_spec w (l : list string) :
  forall index q,
    forallb (retryable w) l = true ->
    exists q',
      parse_paths w l index q = (Return tt, q') /\
      Forall2 same_record (_lineage_objects q ++ built w l) (_lineage_objects q') /\
      _index_map q' = index_from (_index_map q) index (List.filter (parses w) l) /\
      _parse_failed_paths q'
        = _parse_failed_paths q ++ List.filter (fun p => negb (parses w p)) l /\
      _size q' = _size q /\
      analyzer_calls q' = analyzer_calls q ++ l.
Proof.
  induction l as [|p l IH]; intros index q Hall.
  - exists q. simpl. rewrite !app_nil_r. repeat split; try done.
    apply same_records_refl.
  - simpl in Hall. apply andb_prop in Hall as [Hp Hl].
    destruct (retryable_cases w p Hp) as [(o & Ha & Hps)|(e & Ha & He & Hps)].
    + destruct (parse_log_success w p index true q o Ha) as (marked & Hsame & _ & Hrun).
      simpl. rewrite Hrun, Hps.
      match goal with |- context [parse_paths w l ?i ?q1] =>
        destruct (IH i q1 Hl) as (q' & -> & Hobjs & Hidx & Hfail & Hsize & Hcalls)
      end.
      simpl in *. exists q'. split; [done|]. unfold built in *. simpl. rewrite Ha.
      repeat split; try done.
      * eapply same_records_trans; [|exact Hobjs].
        rewrite (cons_middle o), app_assoc.
        apply Forall2_app; [done | apply same_records_refl].
      * by rewrite Hcalls, <- app_assoc.
    + simpl. rewrite (parse_log_caught w p index true q e Ha He), Hps.
      match goal with |- context [parse_paths w l ?i ?q1] =>
        destruct (IH i q1 Hl) as (q' & -> & Hobjs & Hidx & Hfail & Hsize & Hcalls)
      end.
      simpl in *. exists q'. split; [done|]. unfold built in *. simpl. rewrite Ha.
      repeat split; try done.
      * by rewrite Hfail, <- app_assoc.
      * by rewrite Hcalls, <- app_assoc.
Qed.

Lemma retry_paths_spec w (paths : list string) :
  forall failed_paths q,
    forallb (retryable w) paths = true ->
    exists q',
      retry_paths w paths failed_paths q
        = (Return (failed_paths ++ List.filter (fun p => negb (parses w p)) paths), q') /\
      Forall2 same_record (_lineage_objects q ++ built w paths) (_lineage_objects q') /\
      _index_map q'
        = index_from (_index_map q) (_size q) (List.filter (parses w) paths) /\
      _parse_failed_paths q' = _parse_failed_paths q /\
      _size q' = (_size q + length (List.filter (parses w) paths))%nat /\
      analyzer_calls q' = analyzer_calls q ++ paths.
Proof.
  induction paths as [|p l IH]; intros acc q Hall.
  - exists q. simpl. rewrite !app_nil_r.
    repeat split; try done; try lia; apply same_records_refl.
  - simpl in Hall. apply andb_prop in Hall as [Hp Hl].
    destruct (retryable_cases w p Hp) as [(o & Ha & Hps)|(e & Ha & He & Hps)].
    + destruct (parse_log_success w p (_size q) false q o Ha)
        as (marked & Hsame & _ & Hrun).
      simpl. rewrite Hrun, Hps.
      match goal with |- context [retry_paths w l ?a ?q1] =>
        destruct (IH a q1 Hl) as (q' & -> & Hobjs & Hidx & Hfail & Hsize & Hcalls)
      end.
      simpl in *. exists q'. split; [done|]. unfold built in *. simpl. rewrite Ha.
      repeat split; try done.
      * eapply same_records_trans; [|exact Hobjs].
        rewrite (cons_middle o), app_assoc.
        apply Forall2_app; [done | apply same_records_refl].
      * lia.
      * by rewrite Hcalls, <- app_assoc.
    + simpl. rewrite (parse_log_caught w p (_size q) false q e Ha He), Hps.
      match goal with |- context [retry_paths w l ?a ?q1] =>
        destruct (IH a q1 Hl) as (q' & -> & Hobjs & Hidx & Hfail & Hsize & Hcalls)
      end.
      simpl in *. exists q'. rewrite <- app_assoc. split; [done|].
      unfold built in *. simpl. rewrite Ha.
      repeat split; try done.
      by rewrite Hcalls, <- app_assoc.
Qed.

Lemma with_failed_same q : with_failed (_parse_failed_paths q) q = q.
Proof. by destruct q. Qed.


Lemma built_length w (l : list string) :
  length (built w l) = length (List.filter (parses w) l).
Proof.
  unfold built, parses. induction l as [|p l IH]; simpl; [done|].
  destruct (attempt w p); simpl; [f_equal|]; exact IH.
Qed.

Lemma same_records_length objs1 objs2 :
  Forall2 same_record objs1 objs2 -> length objs2 = length objs1.
Proof. intros Hsame. symmetry. by eapply Forall2_length. Qed.

Lemma init_list w (l : list string) :
  l <> [] -> forallb (retryable w) l = true ->
  exists q',
    parse_paths w l 0 empty_querier = (Return tt, q') /\
    analyzer_calls q' = l /\
    Forall2 same_record (built w l) (_lineage_objects q') /\
    _index_map q' = index_from ∅ 0 (List.filter (parses w) l) /\
    _parse_failed_paths q' = List.filter (fun p => negb (parses w p)) l /\
    _parse_summary_logs w (PathList l) empty_querier
      = (if bool_decide (List.filter (parses w) l = [])
         then Raise LineageSummaryParseException else Return tt, q').
Proof.
  intros Hne Hall.
  destruct (parse_paths_spec w l 0 empty_querier Hall)
    as (q' & Hrun & Hobjs & Hidx & Hfail & Hsize & Hcalls).
  exists q'. simpl in *. repeat (split; [done|]).
  unfold _parse_summary_logs. simpl.
  rewrite (bool_decide_eq_false_2 (l = [])) by done. simpl. rewrite Hrun.
  pose proof (same_records_length _ _ Hobjs) as Hlen.
  rewrite built_length in Hlen.
  destruct (List.filter (parses w) l) as [|p' l'] eqn:Hf.
  - destruct (_lineage_objects q'); [done | simpl in Hlen; lia].
  - destruct (_lineage_objects q'); [simpl in Hlen; lia | done].
Qed.

(** C9, as the code has it.  The constructor attempts every path of a
    list, in order, whatever earlier paths did, as long as none fails with
    an exception that is not caught: the paths that parse give the records,
    the others make the failed list.  Afterwards it raises the error for
    logs that all fail to parse exactly when no path parsed, and returns the
    querier otherwise.  Before any parsing, a falsy argument of any type (an
    empty string, an empty list, [None]) raises the parameter error for
    an empty path, and a truthy argument that is neither a string nor a
    list raises the type error. *)
Theorem parse_summary_logs_ingestion w :
  (forall l : list string,
      l <> [] -> forallb (retryable w) l = true ->
      exists q',
        (_parse_summary_logs w (PathList l) empty_querier).2 = q' /\
        analyzer_calls q' = l /\
        Forall2 same_record (built w l) (_lineage_objects q') /\
        _parse_failed_paths q' = List.filter (fun p => negb (parses w p)) l /\
        if bool_decide (List.filter (parses w) l = [])
        then __init__ w (PathList l) = Raise LineageSummaryParseException
        else __init__ w (PathList l)
             = Return (with_size (length (List.filter (parses w) l)) q')) /\
  (forall s : string,
      s <> "" -> retryable w s = true ->
      if parses w s
      then exists q, __init__ w (PathStr s) = Return q /\
                     Forall2 same_record (built w [s]) (_lineage_objects q) /\
                     _parse_failed_paths q = [] /\ _size q = 1%nat
      else __init__ w (PathStr s) = Raise LineageSummaryParseException) /\
  (forall (a : path_arg) q,
      truthy a = false ->
      _parse_summary_logs w a q
        = (Raise (LineageQuerierParamException "The summary path is empty."), q) /\
      __init__ w a
        = Raise (LineageQuerierParamException "The summary path is empty.")) /\
  (forall q,
      _parse_summary_logs w (PathOther true) q = (Raise LineageParamTypeError, q) /\
      __init__ w (PathOther true) = Raise LineageParamTypeError).
Proof.
  split; [|split; [|split]].
  - intros l Hne Hall.
    destruct (init_list w l Hne Hall)
      as (q' & Hrun & Hcalls & Hobjs & Hidx & Hfail & Hlogs).
    exists q'. rewrite Hlogs. repeat (split; [done|]).
    unfold __init__. rewrite Hlogs.
    pose proof (same_records_length _ _ Hobjs) as Hlen.
    rewrite built_length in Hlen.
    case_bool_decide; [done|]. by rewrite Hlen.
  - intros s Hne Hs. unfold __init__, _parse_summary_logs. simpl.
    rewrite (proj2 (String.eqb_neq s "") Hne). simpl.
    destruct (retryable_cases w s Hs) as [(o & Ha & ->)|(e & Ha & He & ->)].
    + destruct (parse_log_success w s 0 true empty_querier o Ha)
        as (marked & Hsame & _ & ->). simpl in *.
      inversion Hsame as [|? o' ? marked' ? Hnil]; subst.
      inversion Hnil; subst. simpl. eexists. split; [done|].
      unfold built. simpl. rewrite Ha. simpl. by repeat split.
    + by rewrite (parse_log_caught w s 0 true empty_querier e Ha He).
  - intros a q Ha. unfold __init__, _parse_summary_logs. by rewrite !Ha.
  - done.
Qed.

(** *** The index map *)

Lemma index_ok_insert q p (index : nat) o marked :
  index_ok q -> index = length (_lineage_objects q) ->
  dirname p ∉ summary_dir <$> _lineage_objects q ->
  summary_dir o = dirname p ->
  Forall2 same_record (_lineage_objects q ++ [o]) marked ->
  forall (i : nat) o', marked !! i = Some o' ->
    <[dirname p := index]> (_index_map q) !! summary_dir o' = Some i.
Proof.
  intros Hok -> Hfresh Hdir Hsame i o' Hi.
  destruct (Forall2_lookup_r _ _ _ _ _ Hsame Hi) as (o0 & Ho0 & (Hd & _)).
  rewrite Hd. apply lookup_app_Some in Ho0 as [Ho0|[Hlen Ho0]].
  - rewrite lookup_insert_ne; [by apply Hok|].
    intros E. apply Hfresh. rewrite E.
    apply list_elem_of_fmap_2. by eapply list_elem_of_lookup_2.
  - apply list_lookup_singleton_Some in Ho0 as [Hi0 <-].
    rewrite Hdir, lookup_insert_eq. f_equal. lia.
Qed.

Lemma parse_paths_indexed w (l : list string) :
  forall (index : nat) q q',
    parse_paths w l index q = (Return tt, q') ->
    index = length (_lineage_objects q) -> index_ok q ->
    NoDup ((summary_dir <$> _lineage_objects q)
           ++ (dirname <$> _parse_failed_paths q) ++ (dirname <$> l)) ->
    index_ok q' /\ dirs_distinct q'.
Proof.
  induction l as [|p l IH]; intros index q q' Hrun Hindex Hok Hnd.
  - simpl in Hrun. simplify_eq. split; [done|].
    unfold dirs_distinct. by rewrite fmap_nil, app_nil_r in Hnd.
  - simpl in Hrun. rewrite fmap_cons in Hnd.
    destruct (attempt w p) as [o|e] eqn:Ha.
    + destruct (parse_log_success w p index true q o Ha)
        as (marked & Hsame & _ & Hlog).
      rewrite Hlog in Hrun. simpl in Hrun.
      assert (Hfresh : dirname p ∉ summary_dir <$> _lineage_objects q).
      { intros Hin. apply NoDup_app in Hnd as (_ & Hdisj & _).
        apply (Hdisj _ Hin). apply elem_of_app. right. by left. }
      apply IH in Hrun; [done| | |]; simpl.
      * apply same_records_length in Hsame. rewrite Hsame, length_app. simpl. lia.
      * intros i o'. simpl.
        by apply (index_ok_insert q p index o marked Hok Hindex Hfresh
                    (attempt_dir _ _ _ Ha) Hsame).
      * rewrite (same_records_dirs _ _ Hsame), fmap_app. simpl.
        rewrite (attempt_dir _ _ _ Ha).
        eapply NoDup_Permutation_proper; [|exact Hnd]. solve_Permutation.
    + destruct (is_caught e) eqn:He.
      * rewrite (parse_log_caught w p index true q e Ha He) in Hrun.
        apply IH in Hrun; [done|done|done|]. simpl. rewrite fmap_app. simpl.
        eapply NoDup_Permutation_proper; [|exact Hnd]. solve_Permutation.
      * by rewrite (parse_log_fatal w p index true q e Ha He) in Hrun.
Qed.

Lemma retry_paths_indexed w (l : list string) :
  forall failed_paths q failed_paths' q',
    retry_paths w l failed_paths q = (Return failed_paths', q') ->
    _size q = length (_lineage_objects q) -> index_ok q ->
    NoDup ((summary_dir <$> _lineage_objects q)
           ++ (dirname <$> failed_paths) ++ (dirname <$> l)) ->
    _size q' = length (_lineage_objects q') /\ index_ok q' /\
    NoDup ((summary_dir <$> _lineage_objects q') ++ (dirname <$> failed_paths')).
Proof.
  induction l as [|p l IH]; intros acc q acc' q' Hrun Hsize Hok Hnd.
  - simpl in Hrun. simplify_eq. by rewrite fmap_nil, app_nil_r in Hnd.
  - simpl in Hrun. rewrite fmap_cons in Hnd.
    destruct (attempt w p) as [o|e] eqn:Ha.
    + destruct (parse_log_success w p (_size q) false q o Ha)
        as (marked & Hsame & _ & Hlog).
      rewrite Hlog in Hrun. simpl in Hrun.
      assert (Hfresh : dirname p ∉ summary_dir <$> _lineage_objects q).
      { intros Hin. apply NoDup_app in Hnd as (_ & Hdisj & _).
        apply (Hdisj _ Hin). apply elem_of_app. right. by left. }
      apply IH in Hrun; [done| | |]; simpl.
      * apply same_records_length in Hsame. rewrite Hsame, length_app. simpl. lia.
      * intros i o'. simpl.
        by apply (index_ok_insert q p (_size q) o marked Hok Hsize Hfresh
                    (attempt_dir _ _ _ Ha) Hsame).
      * rewrite (same_records_dirs _ _ Hsame), fmap_app. simpl.
        rewrite (attempt_dir _ _ _ Ha).
        eapply NoDup_Permutation_proper; [|exact Hnd]. solve_Permutation.
    + destruct (is_caught e) eqn:He.
      * rewrite (parse_log_caught w p (_size q) false q e Ha He) in Hrun.
        apply IH in Hrun; [done|done|done|]. simpl. rewrite fmap_app. simpl.
        eapply NoDup_Permutation_proper; [|exact Hnd]. solve_Permutation.
      * by rewrite (parse_log_fatal w p (_size q) false q e Ha He) in Hrun.
Qed.

Lemma empty_querier_index_ok : index_ok (empty_querier (graph := graph)).
Proof. by intros i o Hi. Qed.

Lemma well_indexed_init w (a : path_arg) q :
  NoDup (dirname <$> paths_of a) -> __init__ w a = Return q -> well_indexed q.
Proof.
  intros Hnd. unfold __init__, _parse_summary_logs.
  destruct (truthy a); simpl; [|done].
  destruct a as [s|l|b]; simpl in *.
  - destruct (_parse_summary_log w s 0 true empty_querier) as [[r|e] q1] eqn:Hlog;
      [|done].
    assert (Hpaths : parse_paths w [s] 0 empty_querier = (Return tt, q1)).
    { simpl. rewrite Hlog. by destruct r. }
    apply parse_paths_indexed in Hpaths as [Hok Hdist];
      [|done|apply empty_querier_index_ok|done].
    case_bool_decide; [done|]. intros [= <-]. by repeat split.
  - destruct (parse_paths w l 0 empty_querier) as [[r|e] q1] eqn:Hpaths; [|done].
    destruct r. apply parse_paths_indexed in Hpaths as [Hok Hdist];
      [|done|apply empty_querier_index_ok|done].
    case_bool_decide; [done|]. intros [= <-]. by repeat split.
  - done.
Qed.

Lemma well_indexed_retry w q q' :
  well_indexed q -> _parse_fail_summary_logs w q = (Return tt, q') ->
  well_indexed q'.
Proof.
  intros (Hsize & Hok & Hdist). unfold _parse_fail_summary_logs.
  destruct (_parse_failed_paths q) as [|p l] eqn:Hfailed.
  - intros [= <-]. by repeat split.
  - destruct (retry_paths w (p :: l) [] q) as [[failed'|e] q1] eqn:Hrun; [|done].
    intros [= <-]. unfold dirs_distinct in Hdist. rewrite Hfailed in Hdist.
    apply retry_paths_indexed in Hrun as (Hsize1 & Hok1 & Hnd1); [|done|done|done].
    by repeat split.
Qed.

Lemma reachable_well_indexed (a : path_arg) q :
  NoDup (dirname <$> paths_of a) -> reachable a q -> well_indexed q.
Proof.
  intros Hnd. induction 1 as [w q Hinit | w q q' _ IH Hretry].
  - by eapply well_indexed_init.
  - by eapply well_indexed_retry.
Qed.

(** As long as every retry pass returns: for a querier built from paths
    in pairwise distinct directories, after the construction and after every
    completed retry pass the index map gives each held record its position
    in the record sequence; so a query for the directory of a record that is
    held once the retry pass of that query is over, be it a record of this
    very pass, returns the summary of that record.  A pass that ends
    with an exception is not a completed pass. *)
Theorem index_map_positions (summary_path : path_arg) q :
  NoDup (dirname <$> paths_of summary_path) ->
  reachable summary_path q ->
  index_ok q /\
  (forall w q',
      _parse_fail_summary_logs w q = (Return tt, q') ->
      index_ok q' /\
      forall o filter_keys keys,
        o ∈ _lineage_objects q' ->
        resolve_filter_keys filter_keys = Return keys ->
        get_summary_lineage w (Some (summary_dir o)) filter_keys q
          = (Return [summary_info o keys], q')).
Proof.
  intros Hnd Hreach.
  pose proof (reachable_well_indexed _ _ Hnd Hreach) as Hwf.
  split; [apply Hwf|]. intros w q' Hretry.
  destruct (well_indexed_retry w q q' Hwf Hretry) as (_ & Hok & _).
  split; [done|]. intros o filter_keys keys Ho Hkeys.
  apply list_elem_of_lookup in Ho as [i Hi].
  unfold get_summary_lineage. rewrite Hretry, Hkeys. simpl.
  by rewrite (Hok i o Hi), Hi.
Qed.

End Ingestion.

(** ** Sorting *)

Section StableSort.

Context {A : Type} (lt : A -> A -> bool).
Hypothesis lt_irrefl : forall a, lt a a = false.
Hypothesis lt_trans : forall a b c, lt a b = true -> lt b c = true -> lt a c = true.
Hypothesis lt_negtrans :
  forall a b c, lt a b = false -> lt b c = false -> lt a c = false.

Lemma insert_by_perm (x : A) (l : list A) : insert_by lt x l ≡ₚ x :: l.
Proof.
  induction l as [|y l IH]; simpl; [done|].
  destruct (lt y x); [|done]. rewrite IH. apply Permutation_swap.
Qed.

Lemma sort_by_perm (l : list A) : sort_by lt l ≡ₚ l.
Proof.
  induction l as [|x l IH]; simpl; [done|]. by rewrite insert_by_perm, IH.
Qed.

Lemma insert_by_sorted (x : A) (l : list A) :
  StronglySorted (fun a b => lt b a = false) l ->
  StronglySorted (fun a b => lt b a = false) (insert_by lt x l).
Proof.
  induction 1 as [|y l Hsorted IH Hy]; simpl.
  - repeat constructor.
  - destruct (lt y x) eqn:Hyx.
    + constructor; [done|].
      rewrite Forall_forall in *. intros z Hz.
      rewrite insert_by_perm in Hz.
      apply elem_of_cons in Hz as [->|Hz].
      * destruct (lt x y) eqn:Hxy; [|done].
        pose proof (lt_trans _ _ _ Hyx Hxy) as Hyy. by rewrite lt_irrefl in Hyy.
      * by apply Hy.
    + constructor; [by constructor|].
      constructor; [done|].
      rewrite Forall_forall in *. intros z Hz.
      apply (lt_negtrans z y x); [by apply Hy | done].
Qed.

Lemma sort_by_sorted (l : list A) :
  StronglySorted (fun a b => lt b a = false) (sort_by lt l).
Proof.
  induction l as [|x l IH]; simpl; [constructor | by apply insert_by_sorted].
Qed.

Lemma tied_trans (x a b : A) :
  tied lt x a = true -> tied lt x b = true -> lt a b = false.
Proof.
  unfold tied. intros [Hxa Hax]%andb_prop [Hxb Hbx]%andb_prop.
  apply negb_true_iff in Hxa, Hax, Hxb, Hbx.
  by apply (lt_negtrans a x b).
Qed.

Lemma insert_by_stable (x a : A) (l : list A) :
  List.filter (tied lt x) (insert_by lt a l) = List.filter (tied lt x) (a :: l).
Proof.
  induction l as [|y l IH]; [done|].
  simpl insert_by. destruct (lt y a) eqn:Hya; [|done].
  simpl in *. rewrite IH.
  destruct (tied lt x y) eqn:Hy, (tied lt x a) eqn:Ha; try done.
  by rewrite (tied_trans x y a Hy Ha) in Hya.
Qed.

Lemma sort_by_stable (x : A) (l : list A) :
  List.filter (tied lt x) (sort_by lt l) = List.filter (tied lt x) l.
Proof.
  induction l as [|a l IH]; [done|].
  simpl sort_by. rewrite insert_by_stable. simpl. rewrite IH. done.
Qed.

Lemma sorted_rev (R : A -> A -> Prop) (l : list A) :
  StronglySorted R l -> StronglySorted (fun a b => R b a) (rev l).
Proof.
  induction 1 as [|x l Hsorted IH Hx]; simpl; [constructor|].
  apply StronglySorted_app_2; [|done|repeat constructor].
  intros x1 x2 Hx1 ->%list_elem_of_singleton.
  rewrite Forall_forall in Hx. apply Hx.
  apply list_elem_of_In, in_rev. by apply list_elem_of_In.
Qed.

(** The sort of the code is this sort when its comparisons return. *)
Lemma insert_sorted_pure (ltm : A -> A -> outcome bool) (x : A) (l : list A) :
  (forall y, y ∈ l -> ltm y x = Return (lt y x)) ->
  insert_sorted ltm x l = Return (insert_by lt x l).
Proof.
  induction l as [|y l IH]; intros Hret; simpl; [done|].
  rewrite Hret by (by left). simpl. destruct (lt y x); [|done].
  rewrite IH; [done|]. intros z Hz. apply Hret. by right.
Qed.

Lemma stable_sort_pure (ltm : A -> A -> outcome bool) (l : list A) :
  (forall a b, a ∈ l -> b ∈ l -> ltm a b = Return (lt a b)) ->
  stable_sort ltm l = Return (sort_by lt l).
Proof.
  induction l as [|x l IH]; intros Hret; simpl; [done|].
  rewrite IH by (intros a b Ha Hb; apply Hret; by right). simpl.
  apply insert_sorted_pure. intros y Hy. apply Hret; [|by left].
  right. by rewrite <- (sort_by_perm l).
Qed.

End StableSort.

(** *** The order of the field values *)

Lemma str_compare_refl (s : string) : String.compare s s = Eq.
Proof.
  pose proof (String.compare_antisym s s) as H.
  destruct (String.compare s s); simpl in H; congruence.
Qed.

Lemma str_compare_trans (s t u : string) :
  String.compare s t = Lt -> String.compare t u = Lt -> String.compare s u = Lt.
Proof.
  intros H1 H2. apply String_as_OT.cmp_lt.
  apply String_as_OT.cmp_lt in H1, H2.
  by apply (String_as_OT.lt_trans s t u).
Qed.

Lemma str_compare_gt (s t : string) :
  String.compare s t = Gt <-> String.compare t s = Lt.
Proof.
  rewrite (String.compare_antisym t s).
  destruct (String.compare s t); simpl; split; congruence.
Qed.

Lemma value_lt_irrefl (a : value) : value_lt a a = false.
Proof.
  destruct a as [[x|s]|]; simpl; [apply Z.ltb_irrefl| |done].
  unfold String.ltb. by rewrite str_compare_refl.
Qed.

Lemma value_lt_trans (a b c : value) :
  value_lt a b = true -> value_lt b c = true -> value_lt a c = true.
Proof.
  destruct a as [[x|s]|], b as [[y|t]|], c as [[z|u]|]; simpl; try done.
  - rewrite !Z.ltb_lt. lia.
  - unfold String.ltb.
    destruct (String.compare s t) eqn:H1; try done.
    destruct (String.compare t u) eqn:H2; try done.
    by rewrite (str_compare_trans s t u H1 H2).
Qed.

Lemma value_lt_negtrans (a b c : value) :
  value_lt a b = false -> value_lt b c = false -> value_lt a c = false.
Proof.
  destruct a as [[x|s]|], b as [[y|t]|], c as [[z|u]|]; simpl; try done.
  - rewrite !Z.ltb_ge. lia.
  - unfold String.ltb. intros H1 H2.
    destruct (String.compare s t) eqn:E1; try done;
      destruct (String.compare t u) eqn:E2; try done.
    + apply String.compare_eq_iff in E1 as ->. by rewrite E2.
    + apply String.compare_eq_iff in E1 as ->. by rewrite E2.
    + apply String.compare_eq_iff in E2 as ->. by rewrite E1.
    + apply str_compare_gt in E1, E2.
      pose proof (str_compare_trans u t s E2 E1) as E3.
      apply str_compare_gt in E3. by rewrite E3.
Qed.

Lemma value_lt_total (a b : value) :
  value_lt a b = false -> value_lt b a = false -> a = b.
Proof.
  destruct a as [[x|s]|], b as [[y|t]|]; simpl; try done.
  - rewrite !Z.ltb_ge. intros. do 2 f_equal. lia.
  - unfold String.ltb. intros H1 H2.
    destruct (String.compare s t) eqn:E1; try done.
    + by apply String.compare_eq_iff in E1 as ->.
    + apply str_compare_gt in E1. by rewrite E1 in H2.
Qed.

Lemma dict_get_has {V} (k : string) (d : list (string * V)) (v : V) :
  dict_get k d = Some v -> dict_has k d = true.
Proof.
  unfold dict_get, dict_has, str_in.
  induction d as [|[k' v'] d IH]; simpl; [done|].
  rewrite (String.eqb_sym k k'). destruct (String.eqb k' k); [done|]. apply IH.
Qed.

Section Sorting.

Context {graph : Type} `{EqDecision graph}.
Variable FIELD_MAPPING : gset string.
Implicit Types (o x a : LineageObj (graph := graph)).
Implicit Types (l : list (LineageObj (graph := graph))).

Lemma key_lt_irrefl name o : key_lt name o o = false.
Proof. apply value_lt_irrefl. Qed.

Lemma key_lt_trans name o1 o2 o3 :
  key_lt name o1 o2 = true -> key_lt name o2 o3 = true -> key_lt name o1 o3 = true.
Proof. apply value_lt_trans. Qed.

Lemma key_lt_negtrans name o1 o2 o3 :
  key_lt name o1 o2 = false -> key_lt name o2 o3 = false ->
  key_lt name o1 o3 = false.
Proof. apply value_lt_negtrans. Qed.

Lemma tied_same_key name x a : tied (key_lt name) x a = same_key name x a.
Proof.
  unfold tied, same_key, key_lt.
  destruct (value_lt (get_value_by_key x name) (get_value_by_key a name)) eqn:H1;
    simpl.
  - symmetry. apply bool_decide_eq_false. intros E. rewrite E in H1.
    by rewrite value_lt_irrefl in H1.
  - destruct (value_lt (get_value_by_key a name) (get_value_by_key x name)) eqn:H2;
      simpl; symmetry.
    + apply bool_decide_eq_false. intros E. rewrite E in H2.
      by rewrite value_lt_irrefl in H2.
    + apply bool_decide_eq_true. by apply value_lt_total.
Qed.

Lemma filter_tied_same_key name x l :
  List.filter (tied (key_lt name) x) l = List.filter (same_key name x) l.
Proof. apply List.filter_ext. intros a. apply tied_same_key. Qed.

(** What [_cmp] returns. *)
Lemma cmp_values name o1 o2 :
  _cmp name o1 o2 =
    match get_value_by_key o1 name, get_value_by_key o2 name with
    | None, None => Return 0
    | None, Some _ => Return (-1)
    | Some _, None => Return 1
    | Some (SNum x), Some (SNum y) => Return (Z.sgn (x - y))
    | Some (SStr s), Some (SStr t) =>
        Return (match String.compare s t with Lt => -1 | Eq => 0 | Gt => 1 end)
    | Some _, Some _ => Raise TypeError
    end.
Proof.
  unfold _cmp.
  destruct (get_value_by_key o1 name) as [[x|s]|],
           (get_value_by_key o2 name) as [[y|t]|]; simpl; try done.
  - f_equal. destruct (Z.ltb_spec y x), (Z.ltb_spec x y); simpl; lia.
  - f_equal. unfold py_gt, py_lt, String.ltb. simpl.
    rewrite (String.compare_antisym t s).
    by destruct (String.compare s t).
Qed.

Lemma cmp_to_key_lt name o1 o2 :
  comparable (get_value_by_key o1 name) (get_value_by_key o2 name) = true ->
  cmp_to_key (_cmp name) o1 o2 = Return (key_lt name o1 o2).
Proof.
  unfold cmp_to_key, key_lt. rewrite cmp_values.
  destruct (get_value_by_key o1 name) as [[x|s]|],
           (get_value_by_key o2 name) as [[y|t]|]; simpl; try done.
  - intros _. f_equal. destruct (Z.ltb_spec x y), (Z.ltb_spec (Z.sgn (x - y)) 0); lia.
  - intros _. f_equal. unfold String.ltb. by destruct (String.compare s t).
Qed.

Lemma keys_comparable_elem name l a b :
  keys_comparable name l = true -> a ∈ l -> b ∈ l ->
  comparable (get_value_by_key a name) (get_value_by_key b name) = true.
Proof.
  unfold keys_comparable. intros Hall Ha Hb.
  rewrite forallb_forall in Hall. apply list_elem_of_In in Ha, Hb.
  specialize (Hall a Ha). rewrite forallb_forall in Hall. by apply Hall.
Qed.

Lemma sorted_ascending name l :
  keys_comparable name l = true ->
  sorted l (cmp_to_key (_cmp name)) false = Return (sort_by (key_lt name) l).
Proof.
  intros Hall. unfold sorted.
  apply stable_sort_pure.
  intros a b Ha Hb. apply cmp_to_key_lt. by eapply keys_comparable_elem.
Qed.

Lemma sorted_descending name l :
  keys_comparable name l = true ->
  sorted l (cmp_to_key (_cmp name)) true
    = Return (rev (sort_by (key_lt name) (rev l))).
Proof.
  intros Hall. unfold sorted.
  rewrite (stable_sort_pure (key_lt name)); [done|].
  intros a b Ha Hb. apply cmp_to_key_lt.
  apply (keys_comparable_elem name l); [done| |].
  - apply list_elem_of_In, in_rev. by apply list_elem_of_In.
  - apply list_elem_of_In, in_rev. by apply list_elem_of_In.
Qed.

(** C6, as the code has it.  [_cmp] takes two [None] values of the field
    as equal, puts [None] before any other value, and otherwise follows the
    order of the numbers or of the strings.  On records whose values for
    the field are comparable, the sort returns a permutation of the
    sequence that is ordered by that comparison, ascending by default and
    descending when [sorted_type] is ["descending"]; in both directions the
    records with the same value keep the relative order they had in the
    sequence.  The descending output is the reversal of the stable
    ascending sort of the reversed sequence. *)
Theorem sort_result_order (sorted_name : string) (c : condition) l :
  dict_get ConditionParam.SORTED_NAME c = Some (CStr sorted_name) ->
  _is_valid_field FIELD_MAPPING sorted_name = false ->
  keys_comparable sorted_name l = true ->
  (forall o1 o2,
      _cmp sorted_name o1 o2 =
        match get_value_by_key o1 sorted_name, get_value_by_key o2 sorted_name with
        | None, None => Return 0
        | None, Some _ => Return (-1)
        | Some _, None => Return 1
        | Some (SNum x), Some (SNum y) => Return (Z.sgn (x - y))
        | Some (SStr s), Some (SStr t) =>
            Return (match String.compare s t with Lt => -1 | Eq => 0 | Gt => 1 end)
        | Some _, Some _ => Raise TypeError
        end) /\
  exists out,
    sort_result FIELD_MAPPING c l = Return out /\
    out ≡ₚ l /\
    (forall x, List.filter (same_key sorted_name x) out
               = List.filter (same_key sorted_name x) l) /\
    if get_is_str (dict_get ConditionParam.SORTED_TYPE c) "descending"
    then out = rev (sort_by (key_lt sorted_name) (rev l)) /\
         StronglySorted (fun a b => key_lt sorted_name a b = false) out
    else out = sort_by (key_lt sorted_name) l /\
         StronglySorted (fun a b => key_lt sorted_name b a = false) out.
Proof.
  intros Hname Hvalid Hcomp. split; [intros o1 o2; apply cmp_values|].
  unfold sort_result. rewrite (dict_get_has _ _ _ Hname), Hname. simpl.
  rewrite Hvalid.
  destruct (get_is_str (dict_get ConditionParam.SORTED_TYPE c) "descending").
  - rewrite (sorted_descending _ _ Hcomp). eexists. split; [done|].
    split; [|split; [|split; [done|]]].
    + by rewrite <- Permutation_rev, sort_by_perm, <- Permutation_rev.
    + intros x. rewrite <- !filter_tied_same_key, List.filter_rev.
      rewrite sort_by_stable by apply key_lt_negtrans.
      by rewrite List.filter_rev, rev_involutive.
    + apply (sorted_rev (fun a b => key_lt sorted_name b a = false)).
      apply sort_by_sorted;
        [apply key_lt_irrefl | apply key_lt_trans | apply key_lt_negtrans].
  - rewrite (sorted_ascending _ _ Hcomp). eexists. split; [done|].
    split; [|split; [|split; [done|]]].
    + apply sort_by_perm.
    + intros x. rewrite <- !filter_tied_same_key.
      apply sort_by_stable, key_lt_negtrans.
    + apply sort_by_sorted;
        [apply key_lt_irrefl | apply key_lt_trans | apply key_lt_negtrans].
Qed.

End Sorting.

(** ** The filter query *)

Section Query.

Context {graph : Type} `{EqDecision graph}.
Variable FIELD_MAPPING : gset string.
Implicit Types (o : LineageObj (graph := graph)).
Implicit Types (l : list (LineageObj (graph := graph))).
Implicit Types (q : Querier (graph := graph)) (w : analyzer (graph := graph)).

Lemma insert_sorted_perm {A} (ltm : A -> A -> outcome bool) (x : A) (l s : list A) :
  insert_sorted ltm x l = Return s -> s ≡ₚ x :: l.
Proof.
  revert s. induction l as [|y l IH]; intros s; simpl.
  - by intros [= <-].
  - destruct (ltm y x) as [[]|]; simpl; [|by intros [= <-]|done].
    destruct (insert_sorted ltm x l) as [r|]; simpl; [|done].
    intros [= <-]. rewrite (IH r eq_refl). apply Permutation_swap.
Qed.

Lemma stable_sort_perm {A} (ltm : A -> A -> outcome bool) (l s : list A) :
  stable_sort ltm l = Return s -> s ≡ₚ l.
Proof.
  revert s. induction l as [|x l IH]; intros s; simpl.
  - by intros [= <-].
  - destruct (stable_sort ltm l) as [r|]; simpl; [|done].
    intros Hins%insert_sorted_perm. by rewrite Hins, (IH r eq_refl).
Qed.

Lemma sorted_perm {A} (ltm : A -> A -> outcome bool) (reverse : bool) (l s : list A) :
  sorted l ltm reverse = Return s -> s ≡ₚ l.
Proof.
  unfold sorted. destruct reverse.
  - destruct (stable_sort ltm (rev l)) as [r|] eqn:Hr; simpl; [|done].
    intros [= <-]. apply stable_sort_perm in Hr.
    by rewrite <- Permutation_rev, Hr, <- Permutation_rev.
  - apply stable_sort_perm.
Qed.

Lemma sort_result_perm (c : condition) l s :
  sort_result FIELD_MAPPING c l = Return s -> s ≡ₚ l.
Proof.
  unfold sort_result. destruct (dict_has _ c); [|by intros [= <-]].
  destruct (default CNone _); try done.
  destruct (_is_valid_field _ _); [done|]. apply sorted_perm.
Qed.

Lemma handle_limit_and_offset_length {A} (c : condition) (l window : list A) :
  _handle_limit_and_offset c l = Return window ->
  (length window <= length l)%nat.
Proof.
  unfold _handle_limit_and_offset. destruct (_ && _); [by intros [= <-]|].
  destruct (if dict_has ConditionParam.OFFSET c then _ else _); try done.
  destruct (if dict_has ConditionParam.LIMIT c then _ else _); try done.
  intros [= <-]. apply py_slice_length.
Qed.

(** The value of [limit] and of [offset] has no part in the filter and
    in the sort. *)
Lemma filter_same_but_paging (c1 c2 : condition) o :
  same_but_paging c1 c2 ->
  _filter FIELD_MAPPING c1 o = _filter FIELD_MAPPING c2 o.
Proof.
  induction 1 as [|[k1 v1] [k2 v2] c1 c2 [Hk Hv] _ IH]; [done|].
  simpl in *. subst k2. destruct Hv as [-> | [-> | ->]]; try done.
  by rewrite IH.
Qed.

Lemma dict_has_same_but_paging (k : string) (c1 c2 : condition) :
  same_but_paging c1 c2 -> dict_has k c1 = dict_has k c2.
Proof.
  unfold dict_has. intros Hsame. f_equal.
  induction Hsame as [|[k1 v1] [k2 v2] c1 c2 [Hk _] _ IH]; [done|].
  rewrite !fmap_cons. simpl in *. congruence.
Qed.

Lemma dict_get_same_but_paging (k : string) (c1 c2 : condition) :
  k <> ConditionParam.LIMIT -> k <> ConditionParam.OFFSET ->
  same_but_paging c1 c2 -> dict_get k c1 = dict_get k c2.
Proof.
  intros Hl Ho. unfold dict_get.
  induction 1 as [|[k1 v1] [k2 v2] c1 c2 [Hk Hv] _ IH]; [done|].
  simpl in *. subst k2. destruct (String.eqb_spec k1 k) as [->|Hne]; [|done].
  simpl. by destruct Hv as [? | [? | ->]].
Qed.

Lemma sort_same_but_paging (c1 c2 : condition) l :
  same_but_paging c1 c2 ->
  sort_result FIELD_MAPPING c1 l = sort_result FIELD_MAPPING c2 l.
Proof.
  intros Hsame. unfold sort_result.
  rewrite (dict_has_same_but_paging _ _ _ Hsame).
  rewrite (dict_get_same_but_paging ConditionParam.SORTED_NAME _ _
             ltac:(done) ltac:(done) Hsame).
  by rewrite (dict_get_same_but_paging ConditionParam.SORTED_TYPE _ _
                ltac:(done) ltac:(done) Hsame).
Qed.

Lemma py_filter_ext {A} (f g : A -> outcome bool) (l : list A) :
  (forall x, f x = g x) -> py_filter f l = py_filter g l.
Proof. intros Hfg. induction l as [|x l IH]; simpl; [done|]. by rewrite Hfg, IH. Qed.

(** C8.  When [filter_summary_lineage] returns, its [count] is the length
    of the sequence that the filter keeps, which the sort only permutes,
    whatever [limit] and [offset] are: the objects are the projections of
    the window that the pagination cuts from that sequence, and a second
    condition that differs only in the values of [limit] and [offset]
    gives the same count.  When no record passes the filter the result is
    the empty object list with count 0. *)
Theorem filter_summary_lineage_count w (c : option condition) q r q' :
  filter_summary_lineage FIELD_MAPPING w c q = (Return r, q') ->
  _parse_fail_summary_logs w q = (Return tt, q') /\
  (exists filtered ordered window,
      py_filter (_filter FIELD_MAPPING (default [] c)) (_lineage_objects q')
        = Return filtered /\
      sort_result FIELD_MAPPING (default [] c) filtered = Return ordered /\
      ordered ≡ₚ filtered /\
      _handle_limit_and_offset (default [] c) ordered = Return window /\
      object r = map (project (default [] c)) window /\
      count r = length filtered /\
      count r = length ordered /\
      (length (object r) <= count r)%nat /\
      (filtered = [] -> r = {| object := []; count := 0%nat |})) /\
  (forall c2 r2 q2,
      same_but_paging (default [] c) c2 ->
      filter_summary_lineage FIELD_MAPPING w (Some c2) q = (Return r2, q2) ->
      count r2 = count r).
Proof.
  unfold filter_summary_lineage.
  destruct (_parse_fail_summary_logs w q) as [[[]|e] q1] eqn:Hretry; [|done].
  set (c0 := default [] c).
  destruct (py_filter (_filter FIELD_MAPPING c0) (_lineage_objects q1))
    as [filtered|] eqn:Hfilter; simpl; [|done].
  destruct (sort_result FIELD_MAPPING c0 filtered) as [ordered|] eqn:Hsort;
    simpl; [|done].
  destruct (_handle_limit_and_offset c0 ordered) as [window|] eqn:Hwindow;
    simpl; [|done].
  intros [= <- <-]. split; [done|].
  pose proof (sort_result_perm _ _ _ Hsort) as Hperm.
  pose proof (handle_limit_and_offset_length _ _ _ Hwindow) as Hlen.
  split.
  - exists filtered, ordered, window. simpl.
    do 5 (split; [done|]).
    split; [by rewrite Hperm|]. split; [done|].
    split; [by rewrite length_map|].
    intros ->. apply Permutation_nil_r in Hperm. subst ordered.
    destruct window; [done | simpl in Hlen; lia].
  - intros c2 r2 q2 Hsame. simpl.
    rewrite <- (py_filter_ext _ _ _ (fun o => filter_same_but_paging c0 c2 o Hsame)).
    rewrite Hfilter. simpl.
    rewrite <- (sort_same_but_paging c0 c2 filtered Hsame), Hsort. simpl.
    destruct (_handle_limit_and_offset c2 ordered); simpl; [|done].
    by intros [= <- _].
Qed.

End Query.

(** ** The properties on the sample data *)

(** C3.  Once nine graphs are registered the table holds the marks ["1"]
    to ["10"], and the mark made for a graph that matches none of them is
    ["10"] again: [max] takes the greatest key as a string, which is ["9"].
    The last two of ten records with different graphs so share the mark
    ["10"], where the successor of the greatest number would be ["11"]. *)
Theorem new_mark_after_ten_groups :
  Sample.nine_groups.*1 = map py_str (seq 1 10) /\
  find_mark (Some "g10") Sample.nine_groups = "0" /\
  py_max Sample.nine_groups.*1 = Return "9" /\
  new_mark Sample.nine_groups = Return "10" /\
  py_str (10 + 1) = "11" /\
  (marked <-! _add_dataset_mark Sample.ten_records;
   Return (map dataset_mark marked))
  = Return [Some "2"; Some "3"; Some "4"; Some "5"; Some "6"; Some "7";
            Some "8"; Some "9"; Some "10"; Some "10"].
Proof. repeat split; vm_compute; reflexivity. Qed.

(** C2.  On a querier that holds one record, a condition whose first field
    the record does not match returns the empty result although its second
    field is not a field at all, and so does one whose second expression is
    not an expression; the same unknown field alone raises the parameter
    error. *)
Theorem unknown_entry_after_mismatch :
  filter_summary_lineage Sample.FIELD_MAPPING Sample.w_first
    (Some Sample.mismatch_then_unknown_field) Sample.q_one
  = (Return {| object := []; count := 0 |}, Sample.q_one) /\
  filter_summary_lineage Sample.FIELD_MAPPING Sample.w_first
    (Some Sample.mismatch_then_unknown_expression) Sample.q_one
  = (Return {| object := []; count := 0 |}, Sample.q_one) /\
  filter_summary_lineage Sample.FIELD_MAPPING Sample.w_first
    (Some Sample.unknown_field) Sample.q_one
  = (Raise (LineageQuerierParamException "The field not_a_field not supported"),
     Sample.q_one) /\
  length (_lineage_objects Sample.q_one) = 1%nat.
Proof. repeat split; vm_compute; reflexivity. Qed.

(** Against C6 as stated: two records with the same value for the sort
    field come out of the descending sort in the order they went in, which is also their order in
    the ascending output, and not the reverse of it. *)
Lemma descending_is_not_reversed_ascending :
  exists out_desc out_asc,
    sort_result Sample.FIELD_MAPPING Sample.desc_cond Sample.tied_pair
      = Return out_desc /\
    sort_result Sample.FIELD_MAPPING Sample.asc_cond Sample.tied_pair
      = Return out_asc /\
    out_desc = Sample.tied_pair /\
    out_desc <> rev out_asc.
Proof.
  exists Sample.tied_pair, Sample.tied_pair.
  split; [vm_compute; reflexivity|]. split; [vm_compute; reflexivity|].
  split; [reflexivity|]. vm_compute. intros E. discriminate E.
Qed.

(** Against C9 as stated: [None] is neither a string nor a list, and the
    constructor raises the parameter error for an empty path on it, not the type error. *)
Lemma falsy_argument_is_not_a_type_error :
  __init__ Sample.w_first (PathOther false)
    = Raise (LineageQuerierParamException "The summary path is empty.") /\
  __init__ Sample.w_first (PathOther false) <> Raise LineageParamTypeError.
Proof. split; [reflexivity|]. vm_compute. intros E. discriminate E. Qed.


(** C10.  Three logs in three different directories, of which the first
    alone parses at the construction.  A query while the second parses and
    reading the third raises an exception that is not caught ends with that
    exception and leaves the second path in the failed list, its record
    held; the next query, when all three parse, parses the second log again.
    The querier then holds four records for three logs, the second run
    twice, the index map sends the directory of the second run to position 2
    and no directory to position 1, and the filter query counts four. *)
Theorem index_map_after_aborted_pass :
  NoDup (dirname <$> [Sample.run1; Sample.run2; MoreSample.run3]) /\
  __init__ Sample.w_first (PathList [Sample.run1; Sample.run2; MoreSample.run3])
    = Return MoreSample.q_three /\
  exists q1 q2 r,
    get_summary_lineage MoreSample.w_abort None None MoreSample.q_three
      = (Raise (OtherError "OSError"), q1) /\
    filter_summary_lineage Sample.FIELD_MAPPING MoreSample.w_all None q1
      = (Return r, q2) /\
    count r = 4%nat /\
    summary_dir <$> _lineage_objects q2
      = ["/base/run1"; "/base/run2"; "/base/run2"; "/base/run3"] /\
    _index_map q2 !! "/base/run2" = Some 2%nat /\
    ~ index_ok q2.
Proof.
  split; [apply (bool_decide_unpack _); vm_compute; exact I|].
  split; [vm_compute; reflexivity|].
  set (q1 := (get_summary_lineage MoreSample.w_abort None None MoreSample.q_three).2).
  set (res := filter_summary_lineage Sample.FIELD_MAPPING MoreSample.w_all None q1).
  assert (Hr : exists r, res.1 = Return r /\ count r = 4%nat).
  { vm_compute. eexists. split; reflexivity. }
  destruct Hr as (r & Hr & Hcount).
  exists q1, res.2, r.
  split; [vm_compute; reflexivity|].
  split; [rewrite <- Hr; apply surjective_pairing|].
  split; [exact Hcount|].
  assert (Hdirs : summary_dir <$> _lineage_objects res.2
                  = ["/base/run1"; "/base/run2"; "/base/run2"; "/base/run3"])
    by (vm_compute; reflexivity).
  assert (Hindex : _index_map res.2 !! "/base/run2" = Some 2%nat)
    by (vm_compute; reflexivity).
  split; [exact Hdirs|]. split; [exact Hindex|].
  intros Hok.
  destruct (_lineage_objects res.2 !! 1%nat) as [o|] eqn:Ho;
    [|vm_compute in Ho; discriminate Ho].
  assert (Hdir : summary_dir o = "/base/run2").
  { apply (f_equal (fmap summary_dir)) in Ho. rewrite <- list_lookup_fmap in Ho.
    rewrite Hdirs in Ho. simpl in Ho. congruence. }
  specialize (Hok 1%nat o Ho). rewrite Hdir, Hindex in Hok. discriminate Hok.
Qed.


Lemma add_dataset_mark_groups_witness :
  exists marked,
    _add_dataset_mark (Sample.ten_records ++ Sample.tied_pair ++ Sample.ten_records)
      = Return marked /\
    (forall o1 o2, o1 ∈ marked -> o2 ∈ marked ->
       dataset_graph o1 = dataset_graph o2 ->
       exists m, dataset_mark o1 = Some m /\ dataset_mark o2 = Some m) /\
    (forall o, o ∈ marked -> dataset_graph o = None -> dataset_mark o = Some "1").
Proof.
  destruct (add_dataset_mark_groups
              (Sample.ten_records ++ Sample.tied_pair ++ Sample.ten_records))
    as (marked & Hrun & _ & Hsame & Hnone).
  exists marked. split; [exact Hrun|]. split; [exact Hsame | exact Hnone].
Defined.

Lemma sort_result_order_witness :
  dict_get ConditionParam.SORTED_NAME Sample.desc_cond = Some (CStr "epoch") /\
  _is_valid_field Sample.FIELD_MAPPING "epoch" = false /\
  keys_comparable "epoch" Sample.tied_pair = true /\
  sort_result Sample.FIELD_MAPPING Sample.desc_cond Sample.tied_pair
    = Return Sample.tied_pair.
Proof.
  split; [reflexivity|]. split; [vm_compute; reflexivity|].
  split; [vm_compute; reflexivity|].
  destruct (sort_result_order Sample.FIELD_MAPPING "epoch" Sample.desc_cond
              Sample.tied_pair) as (_ & out & Hrun & _ & _ & Hout);
    [reflexivity | vm_compute; reflexivity | vm_compute; reflexivity |].
  change (get_is_str (dict_get ConditionParam.SORTED_TYPE Sample.desc_cond)
            "descending") with true in Hout.
  destruct Hout as [Hout _]. rewrite Hrun, Hout. vm_compute. reflexivity.
Defined.

Lemma handle_limit_and_offset_window_witness :
  exists window,
    _handle_limit_and_offset Sample.page_cond [10; 11; 12; 13; 14]%nat
      = Return window /\
    (forall i : nat,
        window !! i = if bool_decide (i < 2)%nat
                      then [10; 11; 12; 13; 14]%nat !! (1 * 2 + i)%nat else None) /\
    (length window <= 2)%nat.
Proof.
  apply (proj1 (proj2 (handle_limit_and_offset_window Sample.page_cond
                         [10; 11; 12; 13; 14]%nat)) 1%nat 2%nat); reflexivity.
Defined.

Lemma filter_summary_lineage_count_witness :
  exists r q',
    filter_summary_lineage Sample.FIELD_MAPPING Sample.w_both
      (Some Sample.page_cond) Sample.q_two = (Return r, q') /\
    _parse_fail_summary_logs Sample.w_both Sample.q_two = (Return tt, q') /\
    (length (object r) <= count r)%nat.
Proof.
  destruct (filter_summary_lineage Sample.FIELD_MAPPING Sample.w_both
              (Some Sample.page_cond) Sample.q_two) as [[r|e] q'] eqn:Hrun;
    [|vm_compute in Hrun; discriminate Hrun].
  exists r, q'. split; [reflexivity|].
  destruct (filter_summary_lineage_count Sample.FIELD_MAPPING Sample.w_both
              (Some Sample.page_cond) Sample.q_two r q' Hrun)
    as (Hretry & (filtered & ordered & window & _ & _ & _ & _ & _ & _ & _ & Hlen & _) & _).
  split; [exact Hretry | exact Hlen].
Defined.

Lemma parse_summary_logs_ingestion_witness :
  [Sample.run1; Sample.run2] <> [] /\
  forallb (retryable Sample.w_first) [Sample.run1; Sample.run2] = true /\
  exists q',
    (_parse_summary_logs Sample.w_first (PathList [Sample.run1; Sample.run2])
       empty_querier).2 = q' /\
    analyzer_calls q' = [Sample.run1; Sample.run2] /\
    _parse_failed_paths q' = [Sample.run2].
Proof.
  split; [discriminate|]. split; [vm_compute; reflexivity|].
  destruct (proj1 (parse_summary_logs_ingestion Sample.w_first)
              [Sample.run1; Sample.run2])
    as (q' & Hq' & Hcalls & _ & Hfailed & _);
    [discriminate | vm_compute; reflexivity |].
  exists q'. split; [exact Hq'|]. split; [exact Hcalls|].
  rewrite Hfailed. vm_compute. reflexivity.
Defined.

Lemma index_map_positions_witness :
  NoDup (dirname <$> paths_of (PathList [Sample.run1; Sample.run2])) /\
  reachable (PathList [Sample.run1; Sample.run2]) Sample.q_two /\
  exists o q',
    _lineage_objects q' !! 1%nat = Some o /\
    summary_dir o = "/base/run2" /\
    get_summary_lineage Sample.w_both (Some "/base/run2") None Sample.q_two
      = (Return [summary_info o LineageFilterKey.get_key_list], q').
Proof.
  assert (Hnd : NoDup (dirname <$> paths_of (PathList [Sample.run1; Sample.run2]))).
  { apply (bool_decide_unpack _). vm_compute. exact I. }
  assert (Hreach : reachable (PathList [Sample.run1; Sample.run2]) Sample.q_two).
  { apply (reachable_init _ Sample.w_first). vm_compute. reflexivity. }
  split; [exact Hnd|]. split; [exact Hreach|].
  destruct (index_map_positions _ _ Hnd Hreach) as [_ Hquery].
  set (q' := (_parse_fail_summary_logs Sample.w_both Sample.q_two).2).
  assert (Hretry : _parse_fail_summary_logs Sample.w_both Sample.q_two
                   = (Return tt, q')) by (vm_compute; reflexivity).
  destruct (Hquery Sample.w_both q' Hretry) as [_ Hget].
  destruct (_lineage_objects q' !! 1%nat) as [o|] eqn:Ho;
    [|vm_compute in Ho; discriminate Ho].
  assert (Hdir : summary_dir o = "/base/run2").
  { vm_compute in Ho. injection Ho as <-. reflexivity. }
  exists o, q'. split; [exact Ho|]. split; [exact Hdir|].
  rewrite <- Hdir. apply Hget; [|reflexivity].
  eapply list_elem_of_lookup_2. exact Ho.
Defined.

(** ** More on the dataset marks *)

Section MarksMore.

Context {graph : Type} `{EqDecision graph}.
Implicit Types (T : list (string * option graph)) (g : option graph).
Implicit Types (given : list (option graph * string)).
Implicit Types (o : LineageObj (graph := graph)).
Implicit Types (objs marked : list (LineageObj (graph := graph))).

Lemma mark_all_idem objs :
  forall T marked, mark_all T objs = Return marked -> mark_all T marked = Return marked.
Proof.
  induction objs as [|o objs IH]; intros T marked; simpl.
  - by intros [= <-].
  - destruct (mark_one T o) as [[m T']|] eqn:Hone; simpl; [|done].
    destruct (mark_all T' objs) as [rest|] eqn:Hrest; simpl; [|done].
    intros [= <-]. simpl.
    change (mark_one T (set_dataset_mark o m)) with (mark_one T o).
    rewrite Hone. simpl. by rewrite (IH T' rest Hrest).
Qed.

Lemma mark_all_app (l1 : list LineageObj) :
  forall T (l2 m : list LineageObj),
    mark_all T (l1 ++ l2) = Return m ->
    exists m1 m2, mark_all T l1 = Return m1 /\ m = m1 ++ m2 /\
                  length m1 = length l1 /\ length m2 = length l2.
Proof.
  induction l1 as [|o l1 IH]; intros T l2 m; simpl.
  - intros Hrun. exists [], m. repeat split; try done.
    revert T m Hrun. induction l2 as [|o l2 IH2]; intros T m; simpl.
    + by intros [= <-].
    + destruct (mark_one T o) as [[k T']|]; simpl; [|done].
      destruct (mark_all T' l2) as [rest|] eqn:Hrest; simpl; [|done].
      intros [= <-]. simpl. f_equal. by apply (IH2 T').
  - destruct (mark_one T o) as [[k T']|]; simpl; [|done].
    destruct (mark_all T' (l1 ++ l2)) as [rest|] eqn:Hrest; simpl; [|done].
    intros [= <-]. destruct (IH T' l2 rest Hrest) as (m1 & m2 & -> & -> & Hl1 & Hl2).
    simpl. exists (set_dataset_mark o k :: m1), m2. simpl.
    repeat split; try done. by rewrite Hl1.
Qed.

(** Where a turn of the loop leaves the table: as it was when a group has
    the graph, and updated under the new mark when none has. *)
Lemma mark_one_cases T o :
  table_ok T ->
  (exists k, mark_one T o = Return (k, T) /\ (k, dataset_graph o) ∈ T) \/
  (exists t, new_mark T = Return t /\ (dataset_graph o ∉ T.*2) /\
             mark_one T o = Return (t, dict_update t (dataset_graph o) T)).
Proof.
  intros HT. unfold mark_one.
  destruct (find_mark_cases T (dataset_graph o) HT)
    as [(k & Hk & Hk0 & Hin) | [H0 Hg]].
  - left. exists k. by rewrite Hk, Hk0.
  - right. rewrite H0. simpl.
    destruct (new_mark_ok T HT) as (n & Hn & Hnew).
    exists (py_str (n + 1)). by rewrite Hnew.
Qed.

Lemma dict_update_keys T t g : dict_has t T = true -> (dict_update t g T).*1 = T.*1.
Proof.
  intros Hhas. unfold dict_update. rewrite Hhas. clear Hhas.
  induction T as [|[k v] T IH]; [done|]. cbn [map]. rewrite !fmap_cons.
  f_equal; [|exact IH]. simpl. by destruct (String.eqb k t).
Qed.

Lemma dict_update_other T t g k v :
  k <> t -> (k, v) ∈ T -> (k, v) ∈ dict_update t g T.
Proof.
  intros Hne Hin. unfold dict_update. destruct (dict_has t T).
  - apply list_elem_of_In, in_map_iff. exists (k, v). simpl.
    rewrite (proj2 (String.eqb_neq k t) Hne). split; [done|].
    by apply list_elem_of_In.
  - apply elem_of_app. by left.
Qed.

Lemma dict_update_new T t g : (t, g) ∈ dict_update t g T.
Proof.
  unfold dict_update. destruct (dict_has t T) eqn:Hhas.
  - rewrite dict_has_spec in Hhas. apply bool_decide_eq_true in Hhas.
    apply list_elem_of_fmap in Hhas as ([k v] & -> & Hin). simpl.
    apply list_elem_of_In, in_map_iff. exists (k, v). simpl.
    rewrite String.eqb_refl. split; [done|]. by apply list_elem_of_In.
  - apply elem_of_app. right. by left.
Qed.

Lemma py_max_digits (k : nat) :
  (1 <= k <= 10)%nat ->
  py_max (map py_str (seq 1 k)) = Return (py_str (k `min` 9)).
Proof.
  intros Hk. do 11 (destruct k as [|k]; [first [lia | reflexivity]|]). lia.
Qed.

Lemma new_mark_digits T (k : nat) :
  (1 <= k <= 10)%nat -> T.*1 = map py_str (seq 1 k) ->
  new_mark T = Return (py_str (k `min` 9 + 1)).
Proof.
  intros Hk Hkeys. unfold new_mark. rewrite Hkeys, (py_max_digits k Hk).
  simpl. by rewrite py_int_py_str.
Qed.

Lemma marks_upto_elem (k : nat) (m : string) :
  m ∈ map py_str (seq 1 k) <-> exists n : nat, (1 <= n <= k)%nat /\ m = py_str n.
Proof.
  rewrite list_elem_of_In, in_map_iff. split.
  - intros (n & <- & Hn). apply in_seq in Hn. exists n. split; [lia|done].
  - intros (n & Hn & ->). exists n. split; [done|]. apply in_seq. lia.
Qed.

Lemma fst_unique {V} (T : list (string * V)) k (a b : V) :
  NoDup T.*1 -> (k, a) ∈ T -> (k, b) ∈ T -> a = b.
Proof.
  induction T as [|[k' x] T IH]; simpl; intros Hnd Ha Hb.
  - by apply elem_of_nil in Ha.
  - apply NoDup_cons in Hnd as [Hx Hnd].
    apply elem_of_cons in Ha as [Ha|Ha], Hb as [Hb|Hb].
    + congruence.
    + exfalso. apply Hx. inversion Ha; subst.
      eapply list_elem_of_fmap_2'; [exact Hb | done].
    + exfalso. apply Hx. inversion Hb; subst.
      eapply list_elem_of_fmap_2'; [exact Ha | done].
    + by apply IH.
Qed.

Lemma bounded_step T given o m T' :
  table_ok T -> bounded_table T given ->
  mark_one T o = Return (m, T') ->
  table_ok T' /\ bounded_table T' (given ++ [(dataset_graph o, m)]).
Proof.
  intros HT (k & Hk & Hkeys & Hgiven & Hvals) Hone.
  split.
  { destruct (mark_one_step T [] o HT) as (m0 & T0 & Hone0 & HT0 & _).
    - by intros g' m' Hin%elem_of_nil.
    - rewrite Hone in Hone0. by simplify_eq. }
  destruct (mark_one_cases T o HT) as [(k0 & Hrun & Hin)|(t & Hnew & Hg & Hrun)];
    rewrite Hone in Hrun; simplify_eq.
  - exists k. split; [done|]. split; [done|]. split.
    + intros g' m' [Hin'|Hin']%elem_of_app; [by apply Hgiven|].
      apply list_elem_of_singleton in Hin'. simplify_eq.
      split; [|done]. by apply (list_elem_of_fmap_2 fst _ (k0, dataset_graph o)).
    + intros m' g' Hin'. destruct (Hvals _ _ Hin') as [->|Hg']; [by left|].
      right. rewrite fmap_app. apply elem_of_app. by left.
  - rewrite (new_mark_digits T k Hk Hkeys) in Hnew. simplify_eq.
    assert (Hvals' : forall m' g',
      (m', g') ∈ dict_update (py_str (k `min` 9 + 1)) (dataset_graph o) T ->
      g' = None \/ g' ∈ (given ++ [(dataset_graph o, py_str (k `min` 9 + 1))]).*1).
    { intros m' g' Hin'. rewrite fmap_app.
      destruct (decide (g' = dataset_graph o)) as [->|Hne].
      - right. apply elem_of_app. right. simpl. by left.
      - assert (Hold : (m', g') ∈ T).
        { unfold dict_update in Hin'. destruct (dict_has _ T).
          - apply list_elem_of_In, in_map_iff in Hin' as ([k1 v1] & Heq & Hin1).
            simpl in Heq. destruct (String.eqb k1 _); simplify_eq.
            by apply list_elem_of_In.
          - apply elem_of_app in Hin' as [?|Hin']; [done|].
            apply list_elem_of_singleton in Hin'. by simplify_eq. }
        destruct (Hvals _ _ Hold) as [->|Hg']; [by left|].
        right. apply elem_of_app. by left. }
    destruct (decide (k = 10)%nat) as [->|Hk10].
    + (* the table is full: the mark is ["10"] again *)
      assert (Hhas : dict_has (py_str (10 `min` 9 + 1)) T = true).
      { rewrite dict_has_spec. apply bool_decide_eq_true. rewrite Hkeys.
        apply marks_upto_elem. exists 10%nat. split; [lia|done]. }
      exists 10%nat. split; [done|].
      split; [by rewrite (dict_update_keys _ _ _ Hhas)|]. split; [|done].
      rewrite (dict_update_keys _ _ _ Hhas).
      intros g' m' [Hin'|Hin']%elem_of_app.
      * destruct (Hgiven _ _ Hin') as [Hm Hkeep]. split; [done|].
        intros Hne. apply dict_update_other; [|by apply Hkeep].
        intros ->. by apply Hne.
      * apply list_elem_of_singleton in Hin'. simplify_eq. split; [|done].
        rewrite Hkeys. apply marks_upto_elem. exists 10%nat. split; [lia|done].
    + (* a new mark is put last *)
      replace (k `min` 9 + 1)%nat with (S k) in * by lia.
      assert (Hfresh : py_str (S k) ∉ T.*1).
      { rewrite Hkeys. intros (n & Hn & E)%marks_upto_elem.
        apply py_str_inj in E. lia. }
      rewrite dict_update_append in * by done.
      exists (S k). split; [lia|]. split; [|split; [|done]].
      * rewrite fmap_app, Hkeys, seq_S, map_app. done.
      * intros g' m' [Hin'|Hin']%elem_of_app.
        -- destruct (Hgiven _ _ Hin') as [Hm Hkeep]. split.
           ++ rewrite fmap_app. apply elem_of_app. by left.
           ++ intros Hne. apply elem_of_app. left. by apply Hkeep.
        -- apply list_elem_of_singleton in Hin'. simplify_eq. split.
           ++ rewrite fmap_app. apply elem_of_app. right. simpl. by left.
           ++ intros _. apply elem_of_app. right. by left.
Qed.

Lemma marks_of_cons o m marked :
  marks_of (set_dataset_mark o m :: marked) = (dataset_graph o, m) :: marks_of marked.
Proof. done. Qed.

Lemma mark_all_bounded objs :
  forall T given, table_ok T -> bounded_table T given ->
  exists marked T',
    mark_all T objs = Return marked /\
    Forall2 (fun o o' => exists m, o' = set_dataset_mark o m) objs marked /\
    table_ok T' /\ bounded_table T' (given ++ marks_of marked).
Proof.
  induction objs as [|o objs IH]; intros T given HT Hb.
  - exists [], T. unfold marks_of. simpl. rewrite app_nil_r.
    split; [done|]. split; [constructor|]. by split.
  - simpl. destruct (mark_one_step T [] o HT) as (m & T1 & Hone & _).
    { by intros g' m' Hin%elem_of_nil. }
    rewrite Hone. simpl.
    destruct (bounded_step T given o m T1 HT Hb Hone) as [HT1 Hb1].
    destruct (IH T1 _ HT1 Hb1) as (marked & T' & -> & Hall & HT' & Hb').
    simpl. exists (set_dataset_mark o m :: marked), T'.
    split; [done|]. split; [constructor; [by exists m | done]|]. split; [done|].
    rewrite marks_of_cons. by rewrite <- app_assoc in Hb'.
Qed.

Lemma initial_bounded : bounded_table [("1", @None graph)] [].
Proof.
  exists 1%nat. split; [lia|]. split; [done|]. split.
  - by intros g m Hin%elem_of_nil.
  - intros m g Hin%list_elem_of_singleton. left. by simplify_eq.
Qed.

Lemma add_dataset_mark_bounded objs :
  exists marked T',
    _add_dataset_mark objs = Return marked /\
    Forall2 (fun o o' => exists m, o' = set_dataset_mark o m) objs marked /\
    table_ok T' /\ bounded_table T' (marks_of marked).
Proof.
  destruct (mark_all_bounded objs _ [] initial_table_ok initial_bounded)
    as (marked & T' & Hrun & Hall & HT' & Hb).
  by exists marked, T'.
Qed.

Lemma marks_of_graph objs marked g :
  Forall2 (fun o o' => exists m, o' = set_dataset_mark o m) objs marked ->
  g ∈ (marks_of marked).*1 -> g ∈ dataset_graph <$> objs.
Proof.
  intros Hall Hg. apply list_elem_of_fmap in Hg as ([g' m] & -> & Hin).
  unfold marks_of in Hin. apply list_elem_of_omap in Hin as (o' & Ho' & Hpair).
  apply list_elem_of_lookup in Ho' as [i Hi].
  destruct (Forall2_lookup_r _ _ _ _ _ Hall Hi) as (o & Ho & m' & ->).
  simpl in Hpair. simplify_eq. simpl.
  apply list_elem_of_fmap_2. by eapply list_elem_of_lookup_2.
Qed.

(** X1.  The grouping pass never gives a mark beyond ["10"]: whatever the
    records, every mark it gives is the decimal of a number from 1 to 10. *)
Theorem add_dataset_mark_at_most_ten objs :
  exists marked,
    _add_dataset_mark objs = Return marked /\
    forall o, o ∈ marked ->
      exists n : nat, (1 <= n <= 10)%nat /\ dataset_mark o = Some (py_str n).
Proof.
  destruct (add_dataset_mark_bounded objs)
    as (marked & T' & Hrun & Hall & HT' & (k & Hk & Hkeys & Hgiven & _)).
  exists marked. split; [done|]. intros o Ho.
  destruct (marked_has_mark _ _ _ Hall Ho) as [m Hm].
  destruct (Hgiven _ _ (marks_of_elem _ _ _ Ho Hm)) as [Hin _].
  rewrite Hkeys in Hin. apply marks_upto_elem in Hin as (n & Hn & ->).
  exists n. split; [lia | done].
Qed.

(** X2.  A mark other than ["10"] stands for one dataset graph: two
    records that the pass gives the same mark, not ["10"], have equal
    graphs. *)
Theorem marks_other_than_ten_identify_graph objs :
  exists marked,
    _add_dataset_mark objs = Return marked /\
    forall o1 o2 m,
      o1 ∈ marked -> o2 ∈ marked ->
      dataset_mark o1 = Some m -> dataset_mark o2 = Some m -> m <> "10" ->
      dataset_graph o1 = dataset_graph o2.
Proof.
  destruct (add_dataset_mark_bounded objs)
    as (marked & T' & Hrun & Hall & HT' & (k & Hk & Hkeys & Hgiven & _)).
  exists marked. split; [done|]. intros o1 o2 m Ho1 Ho2 Hm1 Hm2 Hne.
  destruct (Hgiven _ _ (marks_of_elem _ _ _ Ho1 Hm1)) as [_ Hin1].
  destruct (Hgiven _ _ (marks_of_elem _ _ _ Ho2 Hm2)) as [_ Hin2].
  apply (fst_unique T' m); [apply HT' | by apply Hin1 | by apply Hin2].
Qed.

(** X3.  When [None] and the dataset graphs of the records make at most
    nine different values (eight graphs at most), the marks tell the graphs
    apart exactly: two records carry the same mark if and only if their
    graphs are equal. *)
Theorem marks_exact_up_to_eight_graphs objs :
  (length (remove_dups (None :: (dataset_graph <$> objs))) <= 9)%nat ->
  exists marked,
    _add_dataset_mark objs = Return marked /\
    forall o1 o2, o1 ∈ marked -> o2 ∈ marked ->
      (dataset_mark o1 = dataset_mark o2 <-> dataset_graph o1 = dataset_graph o2).
Proof.
  intros Hfew.
  destruct (add_dataset_mark_bounded objs)
    as (marked & T' & Hrun & Hall & HT' & (k & Hk & Hkeys & Hgiven & Hvals)).
  destruct (mark_all_spec objs _ [] initial_table_ok initial_consistent)
    as (marked' & Hrun' & _ & Hfun & _).
  unfold _add_dataset_mark in Hrun. rewrite Hrun in Hrun'. simplify_eq.
  exists marked'. split; [done|].
  assert (Hlen : (k <= 9)%nat).
  { assert (Hsub : T'.*2 ⊆+ remove_dups (None :: (dataset_graph <$> objs))).
    { apply NoDup_submseteq; [apply HT'|]. intros g Hg.
      apply elem_of_remove_dups.
      apply list_elem_of_fmap in Hg as ([m g'] & -> & Hin). simpl.
      destruct (Hvals _ _ Hin) as [->|Hg']; [by left|]. right.
      by eapply marks_of_graph. }
    apply submseteq_length in Hsub.
    assert (length T'.*2 = k) as <-; [|lia].
    rewrite length_fmap, <- (length_fmap fst), Hkeys, length_map, length_seq. done. }
  assert (Hnot10 : forall o m, o ∈ marked' -> dataset_mark o = Some m -> m <> "10").
  { intros o m Ho Hm ->.
    destruct (Hgiven _ _ (marks_of_elem _ _ _ Ho Hm)) as [Hin _].
    rewrite Hkeys in Hin. apply marks_upto_elem in Hin as (n & Hn & E).
    change "10" with (py_str 10) in E. apply py_str_inj in E. lia. }
  intros o1 o2 Ho1 Ho2.
  destruct (marked_has_mark _ _ _ Hall Ho1) as [m1 Hm1].
  destruct (marked_has_mark _ _ _ Hall Ho2) as [m2 Hm2].
  split.
  - rewrite Hm1, Hm2. intros [= ->].
    destruct (Hgiven _ _ (marks_of_elem _ _ _ Ho1 Hm1)) as [_ Hin1].
    destruct (Hgiven _ _ (marks_of_elem _ _ _ Ho2 Hm2)) as [_ Hin2].
    apply (fst_unique T' m2); [apply HT' | |].
    + apply Hin1. by apply (Hnot10 o1).
    + apply Hin2. by apply (Hnot10 o2).
  - intros Hg. rewrite Hm1, Hm2. f_equal.
    apply (Hfun (dataset_graph o1)); simpl.
    + by apply marks_of_elem.
    + rewrite Hg. by apply marks_of_elem.
Qed.


(** X5.  Records that come later change no earlier mark: the pass over a
    sequence followed by more records gives the first records the marks that
    the pass over the first records alone gives them. *)
Theorem add_dataset_mark_prefix (l1 l2 : list (LineageObj (graph := graph))) :
  exists m1 m2,
    _add_dataset_mark l1 = Return m1 /\
    _add_dataset_mark (l1 ++ l2) = Return (m1 ++ m2) /\
    length m1 = length l1 /\ length m2 = length l2.
Proof.
  destruct (add_dataset_mark_returns (l1 ++ l2)) as (m & Hrun & _).
  destruct (mark_all_app l1 _ l2 m Hrun) as (m1 & m2 & H1 & -> & Hl1 & Hl2).
  by exists m1, m2.
Qed.

End MarksMore.

(** ** More on ingestion and retry *)

Section IngestionMore.

Context {graph : Type} `{EqDecision graph}.
Implicit Types (q : Querier (graph := graph)) (w : analyzer (graph := graph)).
Implicit Types (o : LineageObj (graph := graph)).
Implicit Types (objs marked added : list (LineageObj (graph := graph))).

(** A parse that succeeds on a querier whose marks are current appends one
    record and leaves the others as they are. *)
Lemma parse_log_appends w p (index : nat) flag q o :
  marks_current (_lineage_objects q) ->
  attempt w p = Return o ->
  exists m,
    marks_current (_lineage_objects q ++ [set_dataset_mark o m]) /\
    _parse_summary_log w p index flag q =
      (Return true,
       {| _lineage_objects := _lineage_objects q ++ [set_dataset_mark o m];
          _index_map := <[dirname p := index]> (_index_map q);
          _parse_failed_paths := _parse_failed_paths q;
          _size := _size q;
          analyzer_calls := analyzer_calls q ++ [p] |}).
Proof.
  intros Hcur Ha.
  destruct (parse_log_success w p index flag q o Ha) as (marked & _ & Hrun & Hlog).
  destruct (add_dataset_mark_returns (_lineage_objects q ++ [o]))
    as (marked' & Hrun' & Hall).
  rewrite Hrun in Hrun'. simplify_eq.
  destruct (mark_all_app _ _ _ _ Hrun) as (m1 & m2 & H1 & -> & Hl1 & Hl2).
  unfold marks_current, _add_dataset_mark in Hcur. rewrite Hcur in H1. simplify_eq.
  destruct m2 as [|x [|]]; simpl in Hl2; try lia.
  assert (Hx : (_lineage_objects q ++ [x]) !! length (_lineage_objects q) = Some x)
    by apply list_lookup_middle, eq_refl.
  destruct (Forall2_lookup_r _ _ _ _ _ Hall Hx) as (o0 & Ho0 & m & ->).
  rewrite list_lookup_middle in Ho0 by done. simplify_eq.
  exists m. split; [|done].
  unfold marks_current. by apply (mark_all_idem (_lineage_objects q ++ [o0])).
Qed.

Lemma index_last_snoc objs (m : gmap string nat) o :
  index_last objs m ->
  index_last (objs ++ [o]) (<[summary_dir o := length objs]> m).
Proof.
  intros Hlast d i. rewrite fmap_app. simpl.
  assert (Hlen : length (summary_dir <$> objs) = length objs) by apply length_fmap.
  destruct (decide (d = summary_dir o)) as [->|Hne].
  - rewrite lookup_insert_eq. split.
    + intros [= <-]. split.
      * rewrite <- Hlen. by apply list_lookup_middle.
      * intros j Hj. rewrite lookup_ge_None_2; [done|].
        rewrite length_app, Hlen. simpl. lia.
    + intros [Hi Hlater]. f_equal.
      destruct (decide (i < length objs)%nat) as [Hlt|Hge].
      * exfalso. apply (Hlater (length objs) Hlt).
        rewrite <- Hlen. by apply list_lookup_middle.
      * apply lookup_lt_Some in Hi. rewrite length_app, Hlen in Hi. simpl in Hi. lia.
  - rewrite lookup_insert_ne by done. rewrite (Hlast d i). split.
    + intros [Hi Hlater]. split.
      * by apply lookup_app_l_Some.
      * intros j Hj Hjd. apply lookup_app_Some in Hjd as [Hjd|[_ Hjd]].
        -- by apply (Hlater j Hj).
        -- apply list_lookup_singleton_Some in Hjd as [_ Hjd]. congruence.
    + intros [Hi Hlater].
      apply lookup_app_Some in Hi as [Hi|[_ Hi]].
      * split; [done|]. intros j Hj Hjd. apply (Hlater j Hj).
        by apply lookup_app_l_Some.
      * apply list_lookup_singleton_Some in Hi as [_ Hi]. congruence.
Qed.

(** The loop of the constructor, however it ends. *)
Lemma parse_paths_ok w (l : list string) :
  forall (index : nat) q r q',
    parse_paths w l index q = (r, q') ->
    index = length (_lineage_objects q) ->
    index_last (_lineage_objects q) (_index_map q) ->
    marks_current (_lineage_objects q) ->
    index_last (_lineage_objects q') (_index_map q') /\
    marks_current (_lineage_objects q').
Proof.
  induction l as [|p l IH]; intros index q r q' Hrun Hindex Hlast Hcur.
  - simpl in Hrun. by simplify_eq.
  - simpl in Hrun. destruct (attempt w p) as [o|e] eqn:Ha.
    + destruct (parse_log_appends w p index true q o Hcur Ha) as (m & Hcur' & Hlog).
      rewrite Hlog in Hrun. apply IH in Hrun; [done| | |done]; simpl.
      * rewrite length_app. simpl. lia.
      * rewrite <- (attempt_dir _ _ _ Ha), Hindex.
        by apply (index_last_snoc _ _ (set_dataset_mark o m)).
    + destruct (is_caught e) eqn:He.
      * rewrite (parse_log_caught w p index true q e Ha He) in Hrun.
        by apply IH in Hrun.
      * rewrite (parse_log_fatal w p index true q e Ha He) in Hrun.
        by simplify_eq.
Qed.

(** The loop of the retry pass, however it ends. *)
Lemma retry_paths_ok w (l : list string) :
  forall failed_paths q r q',
    retry_paths w l failed_paths q = (r, q') ->
    querier_ok q ->
    querier_ok q' /\
    _parse_failed_paths q' = _parse_failed_paths q /\
    exists added, _lineage_objects q' = _lineage_objects q ++ added.
Proof.
  induction l as [|p l IH]; intros acc q r q' Hrun (Hsize & Hlast & Hcur).
  - simpl in Hrun. simplify_eq. split; [done|]. split; [done|].
    exists []. by rewrite app_nil_r.
  - simpl in Hrun. destruct (attempt w p) as [o|e] eqn:Ha.
    + destruct (parse_log_appends w p (_size q) false q o Hcur Ha)
        as (m & Hcur' & Hlog).
      rewrite Hlog in Hrun. simpl in Hrun.
      apply IH in Hrun as (Hok & Hfailed & added & Hadded).
      * split; [done|]. split; [done|]. simpl in Hadded.
        exists (set_dataset_mark o m :: added). by rewrite Hadded, <- app_assoc.
      * split; [|split]; simpl; [rewrite length_app; simpl; lia| |done].
        rewrite <- (attempt_dir _ _ _ Ha), Hsize.
        by apply (index_last_snoc _ _ (set_dataset_mark o m)).
    + destruct (is_caught e) eqn:He.
      * rewrite (parse_log_caught w p (_size q) false q e Ha He) in Hrun.
        by apply IH in Hrun.
      * rewrite (parse_log_fatal w p (_size q) false q e Ha He) in Hrun.
        simplify_eq. split; [done|]. split; [done|].
        exists []. by rewrite app_nil_r.
Qed.

Lemma retry_pass_ok w q r q' :
  _parse_fail_summary_logs w q = (r, q') -> querier_ok q ->
  querier_ok q' /\ exists added, _lineage_objects q' = _lineage_objects q ++ added.
Proof.
  unfold _parse_fail_summary_logs. intros Hrun Hok.
  destruct (_parse_failed_paths q) as [|p l].
  - simplify_eq. split; [done|]. exists []. by rewrite app_nil_r.
  - destruct (retry_paths w (p :: l) [] q) as [[failed'|e] q1] eqn:Hloop;
      apply retry_paths_ok in Hloop as (Hok1 & _ & Hadded); try done;
      by simplify_eq.
Qed.

Lemma empty_index_last : index_last (@nil (LineageObj (graph := graph))) ∅.
Proof.
  intros d i. rewrite lookup_empty. simpl. split; [done|]. by intros [? _].
Qed.

Lemma empty_marks_current : marks_current (@nil (LineageObj (graph := graph))).
Proof. done. Qed.

Lemma init_ok w (a : path_arg) q : __init__ w a = Return q -> querier_ok q.
Proof.
  unfold __init__, _parse_summary_logs.
  destruct (truthy a); simpl; [|done].
  destruct a as [s|l|b]; simpl.
  - destruct (_parse_summary_log w s 0 true empty_querier) as [[r0|e] q1] eqn:Hlog;
      [|done].
    assert (Hpaths : parse_paths w [s] 0 empty_querier = (Return tt, q1)).
    { simpl. rewrite Hlog. by destruct r0. }
    apply parse_paths_ok in Hpaths as [Hlast Hcur];
      [|done|apply empty_index_last|apply empty_marks_current].
    case_bool_decide; [done|]. intros [= <-]. split; [done|]. by split.
  - destruct (parse_paths w l 0 empty_querier) as [[r0|e] q1] eqn:Hpaths; [|done].
    apply parse_paths_ok in Hpaths as [Hlast Hcur];
      [|done|apply empty_index_last|apply empty_marks_current].
    case_bool_decide; [done|]. intros [= <-]. split; [done|]. by split.
  - done.
Qed.

Lemma reachable_any_ok (a : path_arg) q : reachable_any a q -> querier_ok q.
Proof.
  induction 1 as [w q Hinit | w q r q' _ IH Hretry].
  - by eapply init_ok.
  - by eapply retry_pass_ok.
Qed.

Lemma last_occurrence {A} `{EqDecision A} (l : list A) (d : A) :
  d ∈ l ->
  exists i : nat, l !! i = Some d /\ forall j : nat, (i < j)%nat -> l !! j <> Some d.
Proof.
  induction l as [|x l IH] using rev_ind; [by intros ?%elem_of_nil|].
  intros Hin. destruct (decide (x = d)) as [->|Hne].
  - exists (length l). split; [by apply list_lookup_middle|].
    intros j Hj. rewrite lookup_ge_None_2; [done|]. rewrite length_app. simpl. lia.
  - apply elem_of_app in Hin as [Hin|Hin];
      [|apply list_elem_of_singleton in Hin; congruence].
    destruct (IH Hin) as (i & Hi & Hlater). exists i.
    split; [by apply lookup_app_l_Some|].
    intros j Hj Hjd. apply lookup_app_Some in Hjd as [Hjd|[_ Hjd]].
    + by apply (Hlater j Hj).
    + apply list_lookup_singleton_Some in Hjd as [_ Hjd]. congruence.
Qed.

Lemma get_state w dir keys q :
  (get_summary_lineage w dir keys q).2 = (_parse_fail_summary_logs w q).2.
Proof.
  unfold get_summary_lineage. by destruct (_parse_fail_summary_logs w q) as [[]].
Qed.

Lemma filter_state FIELD_MAPPING w c q :
  (filter_summary_lineage FIELD_MAPPING w c q).2 = (_parse_fail_summary_logs w q).2.
Proof.
  unfold filter_summary_lineage. by destruct (_parse_fail_summary_logs w q) as [[]].
Qed.

(** X6.  In every querier that a construction and any retry passes lead
    to, completed or not, whatever the directories of the paths, [_size] is
    the number of held records and the index map holds for each directory
    the position of the last held record of that directory, and nothing
    else. *)
Theorem index_map_last_record (a : path_arg) q :
  reachable_any a q ->
  _size q = length (_lineage_objects q) /\
  forall (d : string) (i : nat),
    _index_map q !! d = Some i <->
    (summary_dir <$> _lineage_objects q) !! i = Some d /\
    forall j : nat, (i < j)%nat -> (summary_dir <$> _lineage_objects q) !! j <> Some d.
Proof.
  intros Hreach. destruct (reachable_any_ok a q Hreach) as (Hsize & Hlast & _).
  split; [done|]. exact Hlast.
Qed.

(** X7.  Held records are never changed or removed: after a query of
    either kind, however it ends, the records are those held before,
    followed by the records that its retry pass added. *)
Theorem records_append_only (a : path_arg) q :
  reachable_any a q ->
  (forall w dir keys,
      exists added,
        _lineage_objects (get_summary_lineage w dir keys q).2
        = _lineage_objects q ++ added) /\
  (forall FIELD_MAPPING w c,
      exists added,
        _lineage_objects (filter_summary_lineage FIELD_MAPPING w c q).2
        = _lineage_objects q ++ added).
Proof.
  intros Hreach. pose proof (reachable_any_ok a q Hreach) as Hok.
  split.
  - intros w dir keys. rewrite get_state.
    destruct (_parse_fail_summary_logs w q) as [r q'] eqn:Hretry.
    by destruct (retry_pass_ok w q r q' Hretry Hok) as [_ Hadded].
  - intros FM w c. rewrite filter_state.
    destruct (_parse_fail_summary_logs w q) as [r q'] eqn:Hretry.
    by destruct (retry_pass_ok w q r q' Hretry Hok) as [_ Hadded].
Qed.

(** X8.  A query for a directory, once its retry pass has returned and
    the filter keys are accepted, returns the summary of the last held
    record of that directory when there is one, and raises the error for a
    directory that does not exist otherwise; the index never points outside
    the records. *)
Theorem get_summary_lineage_by_dir (a : path_arg) q w q' (dir : string)
    (filter_keys : option (list string)) (keys : list string) :
  reachable_any a q ->
  _parse_fail_summary_logs w q = (Return tt, q') ->
  resolve_filter_keys filter_keys = Return keys ->
  (dir ∈ summary_dir <$> _lineage_objects q' ->
   exists (i : nat) o,
     _lineage_objects q' !! i = Some o /\ summary_dir o = dir /\
     (forall (j : nat) o', (i < j)%nat -> _lineage_objects q' !! j = Some o' ->
                           summary_dir o' <> dir) /\
     get_summary_lineage w (Some dir) filter_keys q
       = (Return [summary_info o keys], q')) /\
  (dir ∉ summary_dir <$> _lineage_objects q' ->
   get_summary_lineage w (Some dir) filter_keys q
     = (Raise (LineageQuerierParamException
                 ("Summary dir " ++ dir ++ " does not exist.")%string), q')).
Proof.
  intros Hreach Hretry Hkeys.
  assert (Hok : querier_ok q').
  { apply (reachable_any_ok a). by eapply reachable_any_retry. }
  destruct Hok as (_ & Hlast & _).
  unfold get_summary_lineage. rewrite Hretry, Hkeys. simpl. split.
  - intros Hin. destruct (last_occurrence _ _ Hin) as (i & Hi & Hlater).
    pose proof (proj2 (Hlast dir i) (conj Hi Hlater)) as Hidx.
    rewrite list_lookup_fmap in Hi.
    destruct (_lineage_objects q' !! i) as [o|] eqn:Ho; [|done].
    simpl in Hi. simplify_eq. exists i, o. split; [done|]. split; [done|].
    split; [|by rewrite Hidx, Ho].
    intros j o' Hj Ho' Hdir. apply (Hlater j Hj).
    by rewrite list_lookup_fmap, Ho', <- Hdir.
  - intros Hnin. destruct (_index_map q' !! dir) as [i|] eqn:Hidx; [|done].
    exfalso. apply Hnin. apply (Hlast dir i) in Hidx as [Hi _].
    by eapply list_elem_of_lookup_2.
Qed.

Lemma check_filter_keys_valid (keys : list string) :
  forallb LineageFilterKey.is_valid_filter_key keys = true ->
  check_filter_keys keys = Return tt.
Proof.
  induction keys as [|k keys IH]; simpl; [done|].
  intros [-> Hkeys]%andb_prop. simpl. by apply IH.
Qed.

Lemma check_filter_keys_invalid (pre post : list string) (key : string) :
  forallb LineageFilterKey.is_valid_filter_key pre = true ->
  LineageFilterKey.is_valid_filter_key key = false ->
  check_filter_keys (pre ++ key :: post)
  = Raise (LineageQuerierParamException
             ("The filter key " ++ key ++ " is invalid.")%string).
Proof.
  induction pre as [|k pre IH]; simpl.
  - intros _ ->. done.
  - intros [-> Hpre]%andb_prop Hkey. simpl. by apply IH.
Qed.

(** X9.  The filter keys are checked after the retry pass and before the
    directory is looked at: a key list with a key outside the vocabulary
    raises the error that names its first such key, whatever the directory
    is, and the querier keeps what the retry pass did; a list of keys of the
    vocabulary, like the default list, is accepted as it is. *)
Theorem get_summary_lineage_filter_keys w q q' :
  _parse_fail_summary_logs w q = (Return tt, q') ->
  (forall (dir : option string) (pre post : list string) (key : string),
      forallb LineageFilterKey.is_valid_filter_key pre = true ->
      LineageFilterKey.is_valid_filter_key key = false ->
      get_summary_lineage w dir (Some (pre ++ key :: post)) q
      = (Raise (LineageQuerierParamException
                  ("The filter key " ++ key ++ " is invalid.")%string), q')) /\
  (forall keys : list string,
      forallb LineageFilterKey.is_valid_filter_key keys = true ->
      get_summary_lineage w None (Some keys) q
      = (Return (map (fun item => summary_info item keys) (_lineage_objects q')), q')) /\
  get_summary_lineage w None None q
  = (Return (map (fun item => summary_info item LineageFilterKey.get_key_list)
                 (_lineage_objects q')), q').
Proof.
  intros Hretry. unfold get_summary_lineage. rewrite Hretry. split; [|split].
  - intros dir pre post key Hpre Hkey. simpl.
    by rewrite (check_filter_keys_invalid pre post key Hpre Hkey).
  - intros keys Hkeys. simpl. by rewrite (check_filter_keys_valid keys Hkeys).
  - done.
Qed.

(** The loop of the retry pass when it ends with an exception. *)
Lemma retry_paths_raise w (l : list string) :
  forall failed_paths q e q',
    retry_paths w l failed_paths q = (Raise e, q') ->
    exists pre p post,
      l = pre ++ p :: post /\
      forallb (retryable w) pre = true /\
      attempt w p = Raise e /\ is_caught e = false /\
      analyzer_calls q' = analyzer_calls q ++ pre ++ [p] /\
      _size q' = (_size q + length (List.filter (parses w) pre))%nat /\
      Forall2 same_record (_lineage_objects q ++ built w pre) (_lineage_objects q') /\
      _parse_failed_paths q' = _parse_failed_paths q.
Proof.
  induction l as [|p l IH]; intros acc q e q' Hrun; [done|].
  simpl in Hrun. destruct (attempt w p) as [o|e0] eqn:Ha.
  - assert (Hps : parses w p = true) by (unfold parses; by rewrite Ha).
    assert (Hr : retryable w p = true) by (unfold retryable; by rewrite Ha).
    destruct (parse_log_success w p (_size q) false q o Ha)
      as (marked & Hsame & _ & Hlog).
    rewrite Hlog in Hrun. simpl in Hrun.
    apply IH in Hrun as (pre & p1 & post & -> & Hpre & Ha1 & He & Hcalls & Hsize
                         & Hobjs & Hfailed).
    simpl in Hcalls, Hsize, Hobjs, Hfailed.
    exists (p :: pre), p1, post. simpl. rewrite Hr, Hps. simpl.
    split; [done|]. split; [done|]. split; [done|]. split; [done|].
    split; [by rewrite Hcalls, <- app_assoc|]. split; [lia|]. split; [|done].
    unfold built. simpl. rewrite Ha. fold (built w pre).
    eapply same_records_trans; [|exact Hobjs].
    rewrite (cons_middle o), app_assoc.
    apply Forall2_app; [done | apply same_records_refl].
  - destruct (is_caught e0) eqn:He0.
    + assert (Hps : parses w p = false) by (unfold parses; by rewrite Ha).
      assert (Hr : retryable w p = true) by (unfold retryable; by rewrite Ha).
      rewrite (parse_log_caught w p (_size q) false q e0 Ha He0) in Hrun.
      apply IH in Hrun as (pre & p1 & post & -> & Hpre & Ha1 & He & Hcalls & Hsize
                           & Hobjs & Hfailed).
      simpl in Hcalls, Hsize, Hobjs, Hfailed.
      exists (p :: pre), p1, post. simpl. rewrite Hr, Hps. simpl.
      split; [done|]. split; [done|]. split; [done|]. split; [done|].
      split; [by rewrite Hcalls, <- app_assoc|]. split; [done|]. split; [|done].
      unfold built. simpl. rewrite Ha. by fold (built w pre).
    + rewrite (parse_log_fatal w p (_size q) false q e0 Ha He0) in Hrun.
      simplify_eq. exists [], p, l. simpl. rewrite app_nil_r.
      split; [done|]. split; [done|]. split; [done|]. split; [done|].
      split; [done|]. split; [lia|]. split; [apply same_records_refl|done].
Qed.

Lemma retry_pass_raise w q e q' :
  _parse_fail_summary_logs w q = (Raise e, q') ->
  _parse_failed_paths q' = _parse_failed_paths q /\
  exists pre p post,
    _parse_failed_paths q = pre ++ p :: post /\
    forallb (retryable w) pre = true /\
    attempt w p = Raise e /\ is_caught e = false /\
    analyzer_calls q' = analyzer_calls q ++ pre ++ [p] /\
    _size q' = (_size q + length (List.filter (parses w) pre))%nat /\
    Forall2 same_record (_lineage_objects q ++ built w pre) (_lineage_objects q').
Proof.
  unfold _parse_fail_summary_logs.
  destruct (_parse_failed_paths q) as [|p0 l] eqn:Hfailed; [done|].
  destruct (retry_paths w (p0 :: l) [] q) as [[failed'|e0] q1] eqn:Hloop; [done|].
  intros [= <- <-].
  apply retry_paths_raise in Hloop
    as (pre & p & post & Hl & Hpre & Ha & He & Hcalls & Hsize & Hobjs & Hf).
  split; [congruence|]. exists pre, p, post. by rewrite Hl.
Qed.

Lemma retry_paths_app w (l1 l2 : list string) :
  forall failed_paths q,
    retry_paths w (l1 ++ l2) failed_paths q =
      match retry_paths w l1 failed_paths q with
      | (Return failed_paths', q1) => retry_paths w l2 failed_paths' q1
      | (Raise e, q1) => (Raise e, q1)
      end.
Proof.
  induction l1 as [|p l1 IH]; intros acc q; simpl; [done|].
  destruct (_parse_summary_log w p (_size q) false q) as [[[]|e] q1]; by rewrite ?IH.
Qed.

(** The retry pass when no failed path raises an exception that is not
    caught. *)
Lemma retry_pass_returns w q :
  forallb (retryable w) (_parse_failed_paths q) = true ->
  exists q',
    _parse_fail_summary_logs w q = (Return tt, q') /\
    Forall2 same_record
      (_lineage_objects q ++ built w (_parse_failed_paths q)) (_lineage_objects q') /\
    _parse_failed_paths q'
      = List.filter (fun p => negb (parses w p)) (_parse_failed_paths q) /\
    _index_map q'
      = index_from (_index_map q) (_size q)
                   (List.filter (parses w) (_parse_failed_paths q)) /\
    _size q' = (_size q + length (List.filter (parses w) (_parse_failed_paths q)))%nat /\
    analyzer_calls q' = analyzer_calls q ++ _parse_failed_paths q.
Proof.
  intros Hall. unfold _parse_fail_summary_logs.
  destruct (_parse_failed_paths q) as [|p l] eqn:Hfailed.
  - exists q. simpl. rewrite Hfailed, !app_nil_r.
    repeat split; try done; try lia; apply same_records_refl.
  - destruct (retry_paths_spec w (p :: l) [] q Hall)
      as (q1 & -> & Hobjs & Hidx & Hfail & Hsize & Hcalls).
    eexists. split; [done|]. simpl. by rewrite Hfailed in Hfail.
Qed.

(** X10.  A retry pass ends with an exception exactly at the first failed
    path whose parse raises an exception that is not caught.  The paths
    before it were attempted and those that parsed are held and counted, the
    paths after it were not attempted, and the failed list is left as it
    was, the paths that parsed included. *)
Theorem parse_fail_summary_logs_aborted w q e q' :
  _parse_fail_summary_logs w q = (Raise e, q') ->
  _parse_failed_paths q' = _parse_failed_paths q /\
  exists pre p post,
    _parse_failed_paths q = pre ++ p :: post /\
    forallb (retryable w) pre = true /\
    attempt w p = Raise e /\ is_caught e = false /\
    analyzer_calls q' = analyzer_calls q ++ pre ++ [p] /\
    _size q' = (_size q + length (List.filter (parses w) pre))%nat /\
    Forall2 same_record (_lineage_objects q ++ built w pre) (_lineage_objects q').
Proof. apply retry_pass_raise. Qed.

Lemma built_dirs w (l : list string) :
  summary_dir <$> built w l = dirname <$> List.filter (parses w) l.
Proof.
  unfold built, parses. induction l as [|p l IH]; [done|]. csimpl.
  destruct (attempt w p) as [o|e] eqn:Ha; csimpl; [|done].
  rewrite IH. f_equal. by apply (attempt_dir w).
Qed.

(** X11.  The retry pass is not safe against exceptions.  When a failed
    path parses and a later one raises an exception that is not caught, the
    pass ends with that exception and the first path, now held, is still in
    the failed list; the next pass parses it again and the querier then
    holds two records of its directory. *)
Theorem record_twice_after_aborted_pass w1 w2 q (pre post : list string)
    (p_bad p : string) e :
  _parse_failed_paths q = pre ++ p_bad :: post ->
  forallb (retryable w1) pre = true ->
  attempt w1 p_bad = Raise e -> is_caught e = false ->
  p ∈ pre -> parses w1 p = true ->
  forallb (retryable w2) (pre ++ p_bad :: post) = true ->
  parses w2 p = true ->
  exists q1 q2,
    _parse_fail_summary_logs w1 q = (Raise e, q1) /\
    _parse_failed_paths q1 = pre ++ p_bad :: post /\
    _parse_fail_summary_logs w2 q1 = (Return tt, q2) /\
    exists i j : nat,
      i <> j /\
      (summary_dir <$> _lineage_objects q2) !! i = Some (dirname p) /\
      (summary_dir <$> _lineage_objects q2) !! j = Some (dirname p).
Proof.
  intros Hfailed Hpre Hbad He Hp Hps1 Hall2 Hps2.
  destruct (retry_paths_spec w1 pre [] q Hpre)
    as (q0 & Hloop & Hobjs0 & _ & Hf0 & _ & _).
  assert (Habort : _parse_fail_summary_logs w1 q
                   = (Raise e, with_call p_bad q0)).
  { unfold _parse_fail_summary_logs. rewrite Hfailed.
    destruct (pre ++ p_bad :: post) as [|x l] eqn:Hl;
      [by destruct pre|]. rewrite <- Hl.
    rewrite retry_paths_app, Hloop. simpl.
    by rewrite (parse_log_fatal w1 p_bad _ false q0 e Hbad He). }
  exists (with_call p_bad q0). simpl.
  assert (Hf1 : _parse_failed_paths (with_call p_bad q0) = pre ++ p_bad :: post)
    by (simpl; congruence).
  rewrite <- Hf1 in Hall2.
  destruct (retry_pass_returns w2 _ Hall2) as (q2 & Hrun & Hobjs & _).
  exists q2. split; [done|]. split; [done|]. split; [done|].
  apply same_records_dirs in Hobjs, Hobjs0.
  rewrite Hobjs, fmap_app, built_dirs. simpl.
  assert (Hin1 : dirname p ∈ summary_dir <$> _lineage_objects q0).
  { rewrite Hobjs0, fmap_app, built_dirs. apply elem_of_app. right.
    apply list_elem_of_fmap_2, list_elem_of_In, filter_In.
    split; [by apply list_elem_of_In | done]. }
  assert (Hin2 : dirname p ∈ dirname <$> List.filter (parses w2) (_parse_failed_paths q0)).
  { apply list_elem_of_fmap_2, list_elem_of_In, filter_In.
    split; [|done]. apply list_elem_of_In. simpl in Hf1. rewrite Hf1.
    apply elem_of_app. by left. }
  apply list_elem_of_lookup in Hin1 as [i Hi], Hin2 as [j Hj].
  exists i, (length (summary_dir <$> _lineage_objects q0) + j)%nat.
  split; [apply lookup_lt_Some in Hi; lia|]. split.
  - by apply lookup_app_l_Some.
  - rewrite lookup_app_r by lia.
    by replace (length (summary_dir <$> _lineage_objects q0) + j
                - length (summary_dir <$> _lineage_objects q0))%nat with j by lia.
Qed.

Lemma retry_paths_all_fail w (l : list string) :
  forall failed_paths q,
    forallb (fun p => retryable w p && negb (parses w p)) l = true ->
    retry_paths w l failed_paths q =
      (Return (failed_paths ++ l),
       {| _lineage_objects := _lineage_objects q;
          _index_map := _index_map q;
          _parse_failed_paths := _parse_failed_paths q;
          _size := _size q;
          analyzer_calls := analyzer_calls q ++ l |}).
Proof.
  induction l as [|p l IH]; intros acc q Hall.
  - simpl. rewrite !app_nil_r. by destruct q.
  - simpl in Hall. apply andb_prop in Hall as [[Hr Hps]%andb_prop Hl].
    destruct (retryable_cases w p Hr) as [(o & _ & Hyes)|(e & Ha & He & _)].
    + by rewrite Hyes in Hps.
    + simpl. rewrite (parse_log_caught w p (_size q) false q e Ha He).
      rewrite IH by done. simpl. by rewrite <- !app_assoc.
Qed.

Lemma forallb_filter_fail w (l : list string) :
  forallb (retryable w) l = true ->
  forallb (fun p => retryable w p && negb (parses w p))
          (List.filter (fun p => negb (parses w p)) l) = true.
Proof.
  induction l as [|p l IH]; simpl; [done|].
  intros [Hr Hl]%andb_prop. destruct (parses w p) eqn:Hps; simpl; [by apply IH|].
  rewrite Hr, Hps. simpl. by apply IH.
Qed.

(** X12.  A second retry pass under the same state of the log files
    changes nothing: after a pass that returned, the paths still in the
    failed list are attempted once more and all fail again, and the records,
    the index map, the failed list and [_size] stay as they were. *)
Theorem parse_fail_summary_logs_twice w q :
  forallb (retryable w) (_parse_failed_paths q) = true ->
  exists q' q'',
    _parse_fail_summary_logs w q = (Return tt, q') /\
    _parse_fail_summary_logs w q' = (Return tt, q'') /\
    _lineage_objects q'' = _lineage_objects q' /\
    _index_map q'' = _index_map q' /\
    _parse_failed_paths q'' = _parse_failed_paths q' /\
    _size q'' = _size q' /\
    analyzer_calls q'' = analyzer_calls q' ++ _parse_failed_paths q'.
Proof.
  intros Hall.
  destruct (retry_pass_returns w q Hall) as (q' & Hrun & _ & Hfailed & _).
  pose proof (forallb_filter_fail w _ Hall) as Hfail. rewrite <- Hfailed in Hfail.
  exists q'. unfold _parse_fail_summary_logs at 2.
  destruct (_parse_failed_paths q') as [|p l] eqn:Hl.
  - exists q'. rewrite app_nil_r. by repeat split.
  - rewrite (retry_paths_all_fail w (p :: l) [] q' Hfail). eexists.
    split; [done|]. split; [done|]. simpl. by repeat split.
Qed.

Lemma parse_paths_fatal w (pre post : list string) (p : string) e :
  forall (index : nat) q,
    forallb (retryable w) pre = true ->
    attempt w p = Raise e -> is_caught e = false ->
    exists q',
      parse_paths w (pre ++ p :: post) index q = (Raise e, q') /\
      analyzer_calls q' = analyzer_calls q ++ pre ++ [p].
Proof.
  induction pre as [|p0 pre IH]; intros index q Hpre Ha He.
  - simpl. rewrite (parse_log_fatal w p index true q e Ha He).
    eexists. split; [done|]. done.
  - simpl in Hpre. apply andb_prop in Hpre as [Hr Hpre].
    destruct (retryable_cases w p0 Hr) as [(o & Ha0 & _)|(e0 & Ha0 & He0 & _)].
    + destruct (parse_log_success w p0 index true q o Ha0)
        as (marked & _ & _ & Hlog).
      simpl. rewrite Hlog.
      match goal with |- context [parse_paths w _ ?i ?q1] =>
        destruct (IH i q1 Hpre Ha He) as (q' & -> & Hcalls)
      end.
      exists q'. split; [done|]. simpl in Hcalls. by rewrite Hcalls, <- app_assoc.
    + simpl. rewrite (parse_log_caught w p0 index true q e0 Ha0 He0).
      match goal with |- context [parse_paths w _ ?i ?q1] =>
        destruct (IH i q1 Hpre Ha He) as (q' & -> & Hcalls)
      end.
      exists q'. split; [done|]. simpl in Hcalls. by rewrite Hcalls, <- app_assoc.
Qed.

(** X13.  An exception of the analyzer or of the record constructor that
    the [except] clause does not catch ends the construction: the
    constructor raises it at the first path that meets it, after the paths
    before it were attempted and without attempting the paths after it,
    whatever those would give. *)
Theorem init_uncaught_exception w (pre post : list string) (p : string) e :
  forallb (retryable w) pre = true ->
  attempt w p = Raise e -> is_caught e = false ->
  __init__ w (PathList (pre ++ p :: post)) = Raise e /\
  analyzer_calls (_parse_summary_logs w (PathList (pre ++ p :: post)) empty_querier).2
    = pre ++ [p] /\
  (p <> "" -> __init__ w (PathStr p) = Raise e).
Proof.
  intros Hpre Ha He.
  destruct (parse_paths_fatal w pre post p e 0 empty_querier Hpre Ha He)
    as (q' & Hrun & Hcalls).
  assert (Htruthy : truthy (PathList (pre ++ p :: post)) = true).
  { simpl. apply negb_true_iff, bool_decide_eq_false. by destruct pre. }
  unfold __init__, _parse_summary_logs. rewrite Htruthy. simpl. rewrite Hrun.
  simpl. split; [done|]. split; [done|].
  intros Hne. rewrite (proj2 (String.eqb_neq p "") Hne). simpl.
  by rewrite (parse_log_fatal w p 0 true empty_querier e Ha He).
Qed.

End IngestionMore.

(** ** More on the filter query *)

Section QueryMore.

Context {graph : Type} `{EqDecision graph}.
Variable FIELD_MAPPING : gset string.
Implicit Types (o : LineageObj (graph := graph)).
Implicit Types (l kept : list (LineageObj (graph := graph))).
Implicit Types (q : Querier (graph := graph)) (w : analyzer (graph := graph)).

Lemma filter_expressions_true (actual : value) (exps : list (string * expected)) :
  filter_expressions actual exps = Return true <->
  Forall (expression_ok actual) exps.
Proof.
  induction exps as [|[ek ev] exps IH]; simpl.
  - split; [constructor | done].
  - rewrite Forall_cons, <- IH. unfold expression_ok. simpl.
    destruct (ExpressionType.is_valid_exp ek); simpl.
    + destruct (ExpressionType.is_match ek ev actual) as [[]|]; simpl.
      * tauto.
      * split; [done | by intros [[_ ?] _]].
      * split; [done | by intros [[_ ?] _]].
    + split; [done | by intros [[? _] _]].
Qed.

(** X14.  A record passes the filter exactly when every entry of the
    condition is a control key or a supported field, given with a
    dictionary of expressions of the six kinds that all match the value of
    the field. *)
Theorem filter_passes_iff (c : condition) o :
  _filter FIELD_MAPPING c o = Return true <-> Forall (entry_ok FIELD_MAPPING o) c.
Proof.
  induction c as [|[k v] c IH]; simpl.
  - split; [constructor | done].
  - rewrite Forall_cons, <- IH. unfold entry_ok at 1. simpl.
    destruct (ConditionParam.is_condition_type k); simpl; [tauto|].
    destruct (_is_valid_field FIELD_MAPPING k); simpl.
    + split; [done | by intros [[?|[? _]] _]].
    + destruct v as [z|s| |exps]; simpl;
        try (split; [done | by intros [[?|[_ (exps' & [=] & _)]] _]]).
      destruct (filter_expressions (get_value_by_key o k) exps) as [[]|] eqn:Hexps;
        simpl.
      * apply filter_expressions_true in Hexps. split.
        -- intros Hrest. split; [|done]. right. split; [done|]. by exists exps.
        -- by intros [_ ?].
      * split; [done|]. intros [[?|[_ (exps' & [= <-] & Hall)]] _]; [done|].
        apply filter_expressions_true in Hall. congruence.
      * split; [done|]. intros [[?|[_ (exps' & [= <-] & Hall)]] _]; [done|].
        apply filter_expressions_true in Hall. congruence.
Qed.

Lemma py_filter_kept {A} (f : A -> outcome bool) (xs kept : list A) :
  py_filter f xs = Return kept ->
  kept = List.filter (fun x => returned_true (f x)) xs.
Proof.
  revert kept. induction xs as [|x xs IH]; intros kept; simpl.
  - by intros [= <-].
  - destruct (f x) as [b|]; simpl; [|done].
    destruct (py_filter f xs) as [r|]; simpl; [|done].
    intros [= <-]. rewrite (IH r eq_refl). by destruct b.
Qed.

Lemma py_filter_all {A} (f : A -> outcome bool) (xs : list A) :
  (forall x, f x = Return true) -> py_filter f xs = Return xs.
Proof.
  intros Hf. induction xs as [|x xs IH]; [done|].
  cbn [py_filter]. by rewrite Hf, IH.
Qed.

(** X15.  Without [sorted_name], [limit] and [offset] in the condition, a
    filter query that returns gives the projections of the held records
    that pass the filter, all of them and in the order in which they are
    held, and their number as count; a query without a condition returns
    the filtration dictionary of every held record. *)
Theorem filter_summary_lineage_plain w (c : condition) q r q' :
  dict_has ConditionParam.SORTED_NAME c = false ->
  dict_has ConditionParam.OFFSET c = false ->
  dict_has ConditionParam.LIMIT c = false ->
  filter_summary_lineage FIELD_MAPPING w (Some c) q = (Return r, q') ->
  object r
    = map (project c)
          (List.filter (fun o => returned_true (_filter FIELD_MAPPING c o))
                       (_lineage_objects q')) /\
  count r = length (object r) /\
  filter_summary_lineage FIELD_MAPPING w None q
    = (Return {| object := map filtration_dict (_lineage_objects q');
                 count := length (_lineage_objects q') |}, q').
Proof.
  intros Hsort Hoffset Hlimit. unfold filter_summary_lineage.
  destruct (_parse_fail_summary_logs w q) as [[[]|e] q1] eqn:Hretry; [|done].
  simpl. unfold sort_result, _handle_limit_and_offset.
  rewrite Hsort, Hoffset, Hlimit.
  destruct (py_filter (_filter FIELD_MAPPING c) (_lineage_objects q1))
    as [kept|] eqn:Hkept; simpl; [|done].
  intros [= <- <-]. simpl. rewrite (py_filter_kept _ _ _ Hkept).
  split; [done|]. split; [by rewrite length_map|].
  by rewrite (py_filter_all _ (_lineage_objects q1) (fun _ => eq_refl)).
Qed.

Lemma filter_raises_first {A} (f : A -> outcome bool) (x : A) (xs : list A) e :
  f x = Raise e -> py_filter f (x :: xs) = Raise e.
Proof. intros Hx. cbn [py_filter]. by rewrite Hx. Qed.

Lemma filter_unknown_field (pre rest : condition) (k : string) (v : cond_value) o :
  Forall (fun kv => ConditionParam.is_condition_type kv.1 = true) pre ->
  ConditionParam.is_condition_type k = false ->
  _is_valid_field FIELD_MAPPING k = true ->
  _filter FIELD_MAPPING (pre ++ (k, v) :: rest) o
    = Raise (LineageQuerierParamException ("The field " ++ k ++ " not supported")%string).
Proof.
  intros Hpre Hk Hfield. induction Hpre as [|[k0 v0] pre Hk0 _ IH]; simpl.
  - by rewrite Hk, Hfield.
  - simpl in Hk0. by rewrite Hk0.
Qed.

Lemma init_nonempty w (a : path_arg) q :
  __init__ w a = Return q -> _lineage_objects q <> [].
Proof.
  unfold __init__, _parse_summary_logs.
  destruct (truthy a); simpl; [|done].
  destruct a as [s|ps|t]; simpl; [| |done].
  - destruct (_parse_summary_log w s 0 true empty_querier) as [[r|e] q1]; [|done].
    case_bool_decide; [done|]. by intros [= <-].
  - destruct (parse_paths w ps 0 empty_querier) as [[r|e] q1]; [|done].
    case_bool_decide; [done|]. by intros [= <-].
Qed.

Lemma reachable_any_nonempty (a : path_arg) q :
  reachable_any a q -> _lineage_objects q <> [].
Proof.
  induction 1 as [w q Hinit | w q r q' Hq IH Hretry].
  - by eapply init_nonempty.
  - apply reachable_any_ok in Hq.
    destruct (retry_pass_ok _ _ _ _ Hretry Hq) as [_ [added ->]].
    by destruct (_lineage_objects q).
Qed.

(** X16.  A querier that a construction and retry passes lead to holds at
    least one record, so a condition whose first entry that is not a
    control key names an unsupported field fails every filter query whose
    retry pass returns, with the error that names the field, whatever
    follows in the condition. *)
Theorem unsupported_field_first_raises (a : path_arg) w q q'
    (pre rest : condition) (k : string) (v : cond_value) :
  reachable_any a q ->
  _parse_fail_summary_logs w q = (Return tt, q') ->
  Forall (fun kv => ConditionParam.is_condition_type kv.1 = true) pre ->
  ConditionParam.is_condition_type k = false ->
  _is_valid_field FIELD_MAPPING k = true ->
  _lineage_objects q' <> [] /\
  filter_summary_lineage FIELD_MAPPING w (Some (pre ++ (k, v) :: rest)) q
    = (Raise (LineageQuerierParamException
                ("The field " ++ k ++ " not supported")%string), q').
Proof.
  intros Hq Hretry Hpre Hk Hfield.
  assert (Hne : _lineage_objects q' <> []).
  { eapply reachable_any_nonempty. by eapply reachable_any_retry. }
  split; [done|]. unfold filter_summary_lineage. rewrite Hretry. simpl.
  destruct (_lineage_objects q') as [|o objs]; [done|].
  rewrite (filter_raises_first _ _ _ _ (filter_unknown_field pre rest k v o Hpre Hk Hfield)).
  done.
Qed.

End QueryMore.

(** ** More on the sort and on the pagination *)

Section SortMore.

Context {A : Type} (lt : A -> A -> bool).
Hypothesis lt_irrefl : forall a, lt a a = false.
Hypothesis lt_trans : forall a b c, lt a b = true -> lt b c = true -> lt a c = true.
Hypothesis lt_negtrans :
  forall a b c, lt a b = false -> lt b c = false -> lt a c = false.

Lemma sort_by_fixed (l : list A) :
  StronglySorted (fun a b => lt b a = false) l -> sort_by lt l = l.
Proof.
  induction 1 as [|x l Hl IH Hx]; [done|].
  simpl. rewrite IH. destruct l as [|y l']; [done|].
  simpl. by rewrite (Forall_inv Hx).
Qed.

Lemma sort_by_idem (l : list A) : sort_by lt (sort_by lt l) = sort_by lt l.
Proof. by apply sort_by_fixed, sort_by_sorted. Qed.

Lemma sort_by_rev_unique (l : list A) :
  (forall a b, a ∈ l -> b ∈ l -> lt a b = false -> lt b a = false -> a = b) ->
  sort_by lt (rev l) = sort_by lt l.
Proof.
  intros Huniq.
  apply (StronglySorted_unique_strong (fun a b => lt b a = false)).
  - intros a b Ha Hb Hab Hba.
    apply Huniq; [| |done|done].
    + by rewrite sort_by_perm, <- Permutation_rev in Ha.
    + by rewrite sort_by_perm in Hb.
  - by apply sort_by_sorted.
  - by apply sort_by_sorted.
  - by rewrite !sort_by_perm, <- Permutation_rev.
Qed.

End SortMore.

Section SortResultMore.

Context {graph : Type} `{EqDecision graph}.
Variable FIELD_MAPPING : gset string.
Implicit Types (o x a : LineageObj (graph := graph)).
Implicit Types (l : list (LineageObj (graph := graph))).

Lemma keys_comparable_perm name l l' :
  l' ≡ₚ l -> keys_comparable name l = true -> keys_comparable name l' = true.
Proof.
  intros Hperm Hl. unfold keys_comparable.
  apply forallb_forall. intros a Ha%list_elem_of_In.
  apply forallb_forall. intros b Hb%list_elem_of_In.
  rewrite Hperm in Ha, Hb. by eapply keys_comparable_elem.
Qed.

(** X17.  Sorting is idempotent: on records whose values for a supported
    [sorted_name] are comparable, sorting the sorted sequence again under
    the same condition, ascending or descending, returns it unchanged. *)
Theorem sort_result_idempotent (sorted_name : string) (c : condition) l :
  dict_get ConditionParam.SORTED_NAME c = Some (CStr sorted_name) ->
  _is_valid_field FIELD_MAPPING sorted_name = false ->
  keys_comparable sorted_name l = true ->
  exists out,
    sort_result FIELD_MAPPING c l = Return out /\
    sort_result FIELD_MAPPING c out = Return out.
Proof.
  intros Hname Hvalid Hcomp.
  unfold sort_result. rewrite (dict_get_has _ _ _ Hname), Hname. simpl.
  rewrite Hvalid.
  destruct (get_is_str (dict_get ConditionParam.SORTED_TYPE c) "descending").
  - rewrite (sorted_descending _ _ Hcomp). eexists. split; [done|].
    rewrite sorted_descending.
    + rewrite rev_involutive, sort_by_idem;
        [done | apply key_lt_irrefl | apply key_lt_trans | apply key_lt_negtrans].
    + eapply keys_comparable_perm; [|done].
      by rewrite <- Permutation_rev, sort_by_perm, <- Permutation_rev.
  - rewrite (sorted_ascending _ _ Hcomp). eexists. split; [done|].
    rewrite sorted_ascending.
    + rewrite sort_by_idem;
        [done | apply key_lt_irrefl | apply key_lt_trans | apply key_lt_negtrans].
    + eapply keys_comparable_perm; [|done]. apply sort_by_perm.
Qed.

Lemma NoDup_fmap_eq {B C} (f : B -> C) (xs : list B) (a b : B) :
  NoDup (f <$> xs) -> a ∈ xs -> b ∈ xs -> f a = f b -> a = b.
Proof.
  induction xs as [|x xs IH]; [by intros _ ?%elem_of_nil|].
  rewrite fmap_cons, NoDup_cons. intros [Hx Hnd].
  rewrite !elem_of_cons. intros [->|Ha] [->|Hb] Hab; [done| | |by apply IH].
  - destruct Hx. rewrite Hab. by apply list_elem_of_fmap_2.
  - destruct Hx. rewrite <- Hab. by apply list_elem_of_fmap_2.
Qed.

(** X18.  When no two records have the same value for the sort field,
    the descending output is the reversal of the ascending output. *)
Theorem descending_reverses_distinct_keys (sorted_name : string)
    (c_asc c_desc : condition) l :
  dict_get ConditionParam.SORTED_NAME c_asc = Some (CStr sorted_name) ->
  dict_get ConditionParam.SORTED_NAME c_desc = Some (CStr sorted_name) ->
  get_is_str (dict_get ConditionParam.SORTED_TYPE c_asc) "descending" = false ->
  get_is_str (dict_get ConditionParam.SORTED_TYPE c_desc) "descending" = true ->
  _is_valid_field FIELD_MAPPING sorted_name = false ->
  keys_comparable sorted_name l = true ->
  NoDup ((fun o => get_value_by_key o sorted_name) <$> l) ->
  exists out,
    sort_result FIELD_MAPPING c_asc l = Return out /\
    sort_result FIELD_MAPPING c_desc l = Return (rev out).
Proof.
  intros Hasc Hdesc Htasc Htdesc Hvalid Hcomp Hnodup.
  unfold sort_result.
  rewrite (dict_get_has _ _ _ Hasc), Hasc, (dict_get_has _ _ _ Hdesc), Hdesc.
  simpl. rewrite Hvalid, Htasc, Htdesc.
  rewrite (sorted_descending _ _ Hcomp), (sorted_ascending _ _ Hcomp).
  eexists. split; [done|]. f_equal. f_equal.
  apply sort_by_rev_unique;
    [apply key_lt_irrefl | apply key_lt_trans | apply key_lt_negtrans |].
  intros a b Ha Hb Hab Hba.
  apply (NoDup_fmap_eq _ l a b Hnodup Ha Hb).
  by apply value_lt_total.
Qed.

(** X19.  The check of [sorted_name] does not depend on the records: a
    query whose retry pass and filter return fails with the error that
    names the sort field when it is unsupported, also when the filter kept
    no record; and without [sorted_name] the filtered sequence is not
    reordered, whatever [sorted_type] says. *)
Theorem sort_result_name_check (c : condition) l :
  (forall sorted_name,
      dict_get ConditionParam.SORTED_NAME c = Some (CStr sorted_name) ->
      _is_valid_field FIELD_MAPPING sorted_name = true ->
      forall w q q',
        _parse_fail_summary_logs w q = (Return tt, q') ->
        py_filter (_filter FIELD_MAPPING c) (_lineage_objects q') = Return l ->
        filter_summary_lineage FIELD_MAPPING w (Some c) q
          = (Raise (LineageQuerierParamException
                      ("The sorted name " ++ sorted_name ++ " not supported.")%string),
             q')) /\
  (dict_has ConditionParam.SORTED_NAME c = false ->
   sort_result FIELD_MAPPING c l = Return l).
Proof.
  split.
  - intros name Hname Hvalid w q q' Hretry Hfilter.
    unfold filter_summary_lineage. rewrite Hretry. simpl. rewrite Hfilter. simpl.
    unfold sort_result. rewrite (dict_get_has _ _ _ Hname), Hname. simpl.
    by rewrite Hvalid.
  - intros Hno. unfold sort_result. by rewrite Hno.
Qed.

End SortResultMore.

Section Pages.

Context {A : Type}.

Lemma py_slice_nat (l : list A) (s n : nat) :
  py_slice l (Z.of_nat s) (Z.of_nat (s + n)) = take n (drop s l).
Proof.
  apply list_eq. intros i. rewrite py_slice_lookup, lookup_take, lookup_drop.
  case_bool_decide; case_decide; done || lia.
Qed.

(** X20.  Pages tile the sequence: for a limit and an offset that are
    not negative, the records before page [offset] followed by page
    [offset] are the first [(offset + 1) * limit] records; so the pages 0,
    1, 2, ... of one limit are consecutive parts of the sequence, without
    gap or overlap. *)
Theorem pages_tile (result : list A) (offset limit : nat) :
  exists window,
    _handle_limit_and_offset (page (Z.of_nat offset) (Z.of_nat limit)) result
      = Return window /\
    take (offset * limit) result ++ window = take (S offset * limit) result.
Proof.
  eexists. split; [done|].
  replace (Z.of_nat offset * Z.of_nat limit) with (Z.of_nat (offset * limit)) by lia.
  replace (Z.of_nat limit * (Z.of_nat offset + 1))
    with (Z.of_nat (offset * limit + limit)) by lia.
  rewrite py_slice_nat, take_take_drop. f_equal. lia.
Qed.

(** X21.  A negative limit or offset does not raise: the bounds of the
    slice count from the end.  With offset 0 and limit [-k] the window is
    the sequence without its last [k] records; with offset -1 and a limit
    that is not negative the window is empty; with offset [-k] for [k] at
    least 2 the window is page [k] counted from the end, from record
    [len - k * limit] up to record [len - (k - 1) * limit]. *)
Theorem negative_limit_and_offset (result : list A) (k n : nat) :
  _handle_limit_and_offset (page 0 (- Z.of_nat (S k))) result
    = Return (take (length result - S k) result) /\
  _handle_limit_and_offset (page (-1) (Z.of_nat n)) result = Return [] /\
  _handle_limit_and_offset (page (- Z.of_nat (k + 2)) (Z.of_nat n)) result
    = Return (take ((length result - (k + 1) * n) - (length result - (k + 2) * n))
                   (drop (length result - (k + 2) * n) result)).
Proof.
  split; [|split].
  - unfold _handle_limit_and_offset, page. simpl. f_equal.
    unfold py_slice, slice_bound.
    destruct (Z.ltb_spec (0 * - Z.of_nat (S k)) 0) as [?|_]; [lia|].
    destruct (Z.ltb_spec (- Z.of_nat (S k) * (0 + 1)) 0) as [_|?]; [|lia].
    replace (Z.to_nat ((0 * - Z.of_nat (S k)) `min` Z.of_nat (length result)))
      with 0%nat by lia.
    rewrite drop_0. f_equal. lia.
  - unfold _handle_limit_and_offset, page. simpl. f_equal.
    unfold py_slice, slice_bound.
    set (len := Z.of_nat (length result)).
    match goal with |- take ?c _ = _ => replace c with 0%nat; [done|] end.
    destruct (Z.ltb_spec (Z.of_nat n * (-1 + 1)) 0),
             (Z.ltb_spec (-1 * Z.of_nat n) 0); lia.
  - unfold _handle_limit_and_offset, page. simpl. f_equal.
    unfold py_slice, slice_bound.
    set (len := length result).
    destruct (decide (n = 0%nat)) as [->|Hpos].
    { rewrite !Nat.mul_0_r, !Nat.sub_0_r, Nat.sub_diag.
      match goal with |- take ?c _ = _ => replace c with 0%nat; [done|] end.
      destruct (Z.ltb_spec (Z.of_nat 0 * (- Z.of_nat (k + 2) + 1)) 0),
               (Z.ltb_spec (- Z.of_nat (k + 2) * Z.of_nat 0) 0); lia. }
    set (s := - Z.of_nat (k + 2) * Z.of_nat n).
    set (e := Z.of_nat n * (- Z.of_nat (k + 2) + 1)).
    assert (Hs : s = - Z.of_nat ((k + 2) * n)) by (subst s; lia).
    assert (He : e = - Z.of_nat ((k + 1) * n)) by (subst e; lia).
    assert (Hk : ((k + 2) * n = (k + 1) * n + n)%nat) by lia.
    assert (Hn : (n <= (k + 1) * n)%nat) by nia.
    clearbody s e len. subst s e. revert Hk Hn.
    generalize ((k + 2) * n)%nat ((k + 1) * n)%nat. intros a b -> Hn.
    destruct (Z.ltb_spec (- Z.of_nat b) 0), (Z.ltb_spec (- Z.of_nat (b + n)) 0);
      f_equal; try f_equal; lia.
Qed.

End Pages.

(** ** More on the expressions and on the location key *)

Lemma str_ltb_compare (s t : string) :
  String.ltb s t = match String.compare s t with Lt => true | _ => false end.
Proof. done. Qed.

Lemma str_leb_compare (s t : string) :
  String.leb s t = match String.compare s t with Gt => false | _ => true end.
Proof. done. Qed.

Lemma str_eqb_compare (s t : string) :
  String.eqb s t = match String.compare s t with Eq => true | _ => false end.
Proof.
  destruct (String.eqb_spec s t) as [->|Hne].
  - by rewrite str_compare_refl.
  - destruct (String.compare s t) eqn:Hc; [|done|done].
    by apply String.compare_eq_iff in Hc.
Qed.

(** X22.  On two numbers or two strings the six kinds agree with each
    other: exactly one of [lt], [eq] and [gt] matches, [le] matches when
    [lt] or [eq] does, [ge] when [gt] or [eq] does, and [lt] with the two
    values exchanged is [gt]. *)
Theorem is_match_kinds_agree (a b : scalar) :
  comparable (Some a) (Some b) = true ->
  exists lt eq gt : bool,
    ExpressionType.is_match "lt" (EVal (Some b)) (Some a) = Return lt /\
    ExpressionType.is_match "eq" (EVal (Some b)) (Some a) = Return eq /\
    ExpressionType.is_match "gt" (EVal (Some b)) (Some a) = Return gt /\
    ExpressionType.is_match "le" (EVal (Some b)) (Some a) = Return (lt || eq) /\
    ExpressionType.is_match "ge" (EVal (Some b)) (Some a) = Return (gt || eq) /\
    ExpressionType.is_match "lt" (EVal (Some a)) (Some b) = Return gt /\
    (lt, eq, gt) ∈ [(true, false, false); (false, true, false); (false, false, true)].
Proof.
  destruct a as [x|s], b as [y|t]; simpl; try done; intros _.
  - exists (x <? y), (x =? y), (y <? x).
    unfold ExpressionType.is_match. simpl.
    repeat (split; [f_equal; lia || done|]).
    destruct (Z.ltb_spec x y), (Z.eqb_spec x y), (Z.ltb_spec y x); try lia;
      repeat constructor.
  - exists (String.ltb s t), (String.eqb s t), (String.ltb t s).
    unfold ExpressionType.is_match. simpl.
    rewrite !str_leb_compare, !str_ltb_compare, str_eqb_compare.
    rewrite (String.compare_antisym t s).
    destruct (String.compare s t); simpl; repeat (split; [done|]);
      repeat constructor.
Qed.

(** X23.  What an expression of one of the six kinds can raise is a
    [TypeError] and nothing else.  [eq] never raises, and [in] never raises
    on a list.  An ordering kind raises the [TypeError] on a value that is
    not [None] when the expected value is a list, is [None], or is a string
    for a number or a number for a string; [in] raises it when the expected
    value is a number or [None]. *)
Theorem is_match_raises_type_error_only (key : string) (e : expected) (a : value) :
  (forall ex, ExpressionType.is_valid_exp key = true ->
              ExpressionType.is_match key e a = Raise ex -> ex = TypeError) /\
  (exists b, ExpressionType.is_match "eq" e a = Return b) /\
  (forall vs, exists b, ExpressionType.is_match "in" (EList vs) a = Return b) /\
  (forall x, str_in key ["lt"; "gt"; "le"; "ge"] = true ->
       (forall vs, ExpressionType.is_match key (EList vs) (Some x) = Raise TypeError) /\
       ExpressionType.is_match key (EVal None) (Some x) = Raise TypeError /\
       (forall y, comparable (Some x) (Some y) = false ->
                  ExpressionType.is_match key (EVal (Some y)) (Some x) = Raise TypeError)) /\
  (forall n, ExpressionType.is_match "in" (EVal (Some (SNum n))) a = Raise TypeError) /\
  ExpressionType.is_match "in" (EVal None) a = Raise TypeError.
Proof.
  assert (Hkeys : forall k, str_in k ["lt"; "gt"; "le"; "ge"] = true ->
                            k = "lt" \/ k = "gt" \/ k = "le" \/ k = "ge").
  { intros k Hk. rewrite str_in_spec in Hk. apply bool_decide_eq_true in Hk.
    rewrite !elem_of_cons, elem_of_nil in Hk. tauto. }
  split; [|split; [|split; [|split; [|split]]]].
  - intros ex Hvalid. unfold ExpressionType.is_valid_exp in Hvalid.
    rewrite str_in_spec in Hvalid. apply bool_decide_eq_true in Hvalid.
    assert (Hcases : key = "eq" \/ key = "lt" \/ key = "gt" \/ key = "le"
                     \/ key = "ge" \/ key = "in").
    { unfold ExpressionType._value2member_map_ in Hvalid.
      rewrite !elem_of_cons, elem_of_nil in Hvalid. tauto. }
    destruct Hcases as [-> | [-> | [-> | [-> | [-> | ->]]]]];
      unfold ExpressionType.is_match; simpl;
      destruct a as [[x|s]|], e as [[[y|t]|]|vs]; simpl; congruence.
  - unfold ExpressionType.is_match.
    destruct a as [[x|s]|], e as [[[y|t]|]|vs]; simpl; by eexists.
  - intros vs. unfold ExpressionType.is_match.
    destruct a as [[x|s]|]; simpl; by eexists.
  - intros x Hkey.
    destruct (Hkeys _ Hkey) as [-> | [-> | [-> | ->]]];
      unfold ExpressionType.is_match; simpl;
      (split; [done|]; split; [by destruct x|]);
      intros y; destruct x, y; simpl; done.
  - intros n. unfold ExpressionType.is_match. by destruct a as [[x|s]|].
  - unfold ExpressionType.is_match. by destruct a as [[x|s]|].
Qed.

(** *** [dirname] *)

Lemma append_nonempty (d : string) (c : ascii) (f : string) :
  (d ++ String c f)%string <> EmptyString.
Proof. by destruct d. Qed.

Lemma str_contains_sep (c : ascii) (f : string) :
  str_contains (String c f) "/" = is_sep c || str_contains f "/".
Proof.
  cbn [str_contains String.prefix]. unfold is_sep.
  destruct (ascii_dec "/" c) as [<-|Hc].
  - by destruct f.
  - destruct (Ascii.eqb_spec c "/") as [->|_]; done.
Qed.

Lemma upto_last_sep_name (f : string) :
  str_contains f "/" = false -> upto_last_sep f = EmptyString.
Proof.
  induction f as [|c f IH]; [done|].
  rewrite str_contains_sep. intros [Hc Hf]%orb_false_elim.
  simpl. by rewrite (IH Hf), Hc.
Qed.

Lemma upto_last_sep_join (d f : string) :
  str_contains f "/" = false ->
  upto_last_sep (d ++ String "/" f) = (d ++ "/")%string.
Proof.
  intros Hf. induction d as [|c d IH]; simpl.
  - by rewrite (upto_last_sep_name f Hf).
  - rewrite IH. by destruct d.
Qed.

Lemma rstrip_sep_join (d : string) (c : ascii) :
  is_sep c = false ->
  rstrip_sep (d ++ String c "/") = (d ++ String c "")%string.
Proof.
  intros Hc. induction d as [|c' d IH]; simpl.
  - by rewrite Hc.
  - rewrite IH. by destruct d.
Qed.

Lemma all_sep_join (d : string) (c : ascii) (f : string) :
  is_sep c = false -> all_sep (d ++ String c f) = false.
Proof.
  intros Hc. induction d as [|c' d IH]; simpl.
  - by rewrite Hc.
  - rewrite IH. apply andb_false_r.
Qed.

Lemma append_assoc (a b c : string) :
  ((a ++ b) ++ c = a ++ (b ++ c))%string.
Proof. induction a as [|x a IH]; [done|]. exact (f_equal (String x) IH). Qed.

Lemma dirname_join (d : string) (c : ascii) (f : string) :
  is_sep c = false -> str_contains f "/" = false ->
  dirname ((d ++ String c "") ++ String "/" f) = (d ++ String c "")%string.
Proof.
  intros Hc Hf. unfold dirname. rewrite (upto_last_sep_join _ f Hf).
  rewrite append_assoc.
  change (String c "" ++ "/")%string with (String c "/").
  rewrite (all_sep_join d c "/" Hc), andb_true_r.
  destruct (String.eqb_spec (d ++ String c "/") "") as [Hd|_].
  - by apply append_nonempty in Hd.
  - simpl. by apply rstrip_sep_join.
Qed.

Section Location.

Context {graph : Type} `{EqDecision graph}.

(** X24.  The location key of a record is the directory that holds its
    log file: for a log path made of a directory that does not end in a
    slash, a slash and a file name without slash, the record that a
    successful parse builds has that directory as [summary_dir]; a log
    directly under the root has ["/"]. *)
Theorem summary_dir_is_directory (w : analyzer (graph := graph))
    (d : string) (c : ascii) (f : string) (o : LineageObj (graph := graph)) :
  is_sep c = false -> str_contains f "/" = false ->
  (attempt w ((d ++ String c "") ++ String "/" f) = Return o ->
   summary_dir o = (d ++ String c "")%string) /\
  (attempt w (String "/" f) = Return o -> summary_dir o = "/").
Proof.
  intros Hc Hf. split; intros Hrun.
  - rewrite (attempt_dir _ _ _ Hrun). by apply dirname_join.
  - rewrite (attempt_dir _ _ _ Hrun). unfold dirname. simpl.
    by rewrite (upto_last_sep_name f Hf).
Qed.

End Location.

(** ** Instances *)

Lemma marks_other_than_ten_identify_graph_witness :
  exists marked,
    _add_dataset_mark Sample.ten_records = Return marked /\
    forall o1 o2 m,
      o1 ∈ marked -> o2 ∈ marked ->
      dataset_mark o1 = Some m -> dataset_mark o2 = Some m -> m <> "10" ->
      dataset_graph o1 = dataset_graph o2.
Proof. exact (marks_other_than_ten_identify_graph Sample.ten_records). Defined.

Lemma marks_exact_up_to_eight_graphs_witness :
  (length (remove_dups (None :: (dataset_graph <$> MoreSample.distinct_records))) <= 9)%nat /\
  exists marked,
    _add_dataset_mark MoreSample.distinct_records = Return marked /\
    forall o1 o2, o1 ∈ marked -> o2 ∈ marked ->
      (dataset_mark o1 = dataset_mark o2 <-> dataset_graph o1 = dataset_graph o2).
Proof.
  assert (Hlen : (length (remove_dups
                    (None :: (dataset_graph <$> MoreSample.distinct_records))) <= 9)%nat).
  { vm_compute. lia. }
  split; [exact Hlen|].
  exact (marks_exact_up_to_eight_graphs MoreSample.distinct_records Hlen).
Defined.

Lemma reachable_any_q_two :
  reachable_any (PathList [Sample.run1; Sample.run2]) Sample.q_two.
Proof. apply (reachable_any_init _ Sample.w_first). vm_compute. reflexivity. Defined.

Lemma index_map_last_record_witness :
  reachable_any (PathList [Sample.run1; Sample.run2]) Sample.q_two /\
  _size Sample.q_two = length (_lineage_objects Sample.q_two) /\
  _index_map Sample.q_two !! "/base/run1" = Some 0%nat.
Proof.
  split; [exact reachable_any_q_two|].
  destruct (index_map_last_record _ _ reachable_any_q_two) as [Hsize Hindex].
  split; [exact Hsize|].
  apply Hindex. split; [vm_compute; reflexivity|].
  intros j Hj. destruct j as [|j]; [lia|]. vm_compute. discriminate.
Defined.

Lemma records_append_only_witness :
  reachable_any (PathList [Sample.run1; Sample.run2]) Sample.q_two /\
  exists added,
    _lineage_objects
      (filter_summary_lineage Sample.FIELD_MAPPING Sample.w_both None Sample.q_two).2
    = _lineage_objects Sample.q_two ++ added.
Proof.
  split; [exact reachable_any_q_two|].
  exact (proj2 (records_append_only _ _ reachable_any_q_two)
           Sample.FIELD_MAPPING Sample.w_both None).
Defined.

Lemma get_summary_lineage_by_dir_witness :
  reachable_any (PathList [Sample.run1; Sample.run2]) Sample.q_two /\
  exists q',
    _parse_fail_summary_logs Sample.w_both Sample.q_two = (Return tt, q') /\
    resolve_filter_keys (Some ["model"]) = Return ["model"] /\
    ("/base/run9" ∉ summary_dir <$> _lineage_objects q') /\
    get_summary_lineage Sample.w_both (Some "/base/run9") (Some ["model"]) Sample.q_two
      = (Raise (LineageQuerierParamException "Summary dir /base/run9 does not exist."),
         q').
Proof.
  split; [exact reachable_any_q_two|].
  set (q' := (_parse_fail_summary_logs Sample.w_both Sample.q_two).2).
  assert (Hretry : _parse_fail_summary_logs Sample.w_both Sample.q_two
                   = (Return tt, q')) by (vm_compute; reflexivity).
  assert (Hkeys : resolve_filter_keys (Some ["model"]) = Return ["model"])
    by (vm_compute; reflexivity).
  assert (Hdir : "/base/run9" ∉ summary_dir <$> _lineage_objects q').
  { apply (bool_decide_unpack _). vm_compute. exact I. }
  exists q'. split; [exact Hretry|]. split; [exact Hkeys|]. split; [exact Hdir|].
  exact (proj2 (get_summary_lineage_by_dir _ _ _ _ "/base/run9" _ _
                  reachable_any_q_two Hretry Hkeys) Hdir).
Defined.

Lemma get_summary_lineage_filter_keys_witness :
  exists q',
    _parse_fail_summary_logs Sample.w_both Sample.q_two = (Return tt, q') /\
    get_summary_lineage Sample.w_both (Some "/base/run1")
      (Some ["model"; "optimizer"; "metric"]) Sample.q_two
    = (Raise (LineageQuerierParamException "The filter key optimizer is invalid."), q').
Proof.
  set (q' := (_parse_fail_summary_logs Sample.w_both Sample.q_two).2).
  assert (Hretry : _parse_fail_summary_logs Sample.w_both Sample.q_two
                   = (Return tt, q')) by (vm_compute; reflexivity).
  exists q'. split; [exact Hretry|].
  apply (proj1 (get_summary_lineage_filter_keys _ _ _ Hretry)
           (Some "/base/run1") ["model"] ["metric"] "optimizer");
    vm_compute; reflexivity.
Defined.

Lemma parse_fail_summary_logs_aborted_witness :
  exists q',
    _parse_fail_summary_logs MoreSample.w_abort MoreSample.q_three
      = (Raise (OtherError "OSError"), q') /\
    _parse_failed_paths q' = [Sample.run2; MoreSample.run3].
Proof.
  set (q' := (_parse_fail_summary_logs MoreSample.w_abort MoreSample.q_three).2).
  assert (Hretry : _parse_fail_summary_logs MoreSample.w_abort MoreSample.q_three
                   = (Raise (OtherError "OSError"), q')) by (vm_compute; reflexivity).
  exists q'. split; [exact Hretry|].
  rewrite (proj1 (parse_fail_summary_logs_aborted _ _ _ _ Hretry)).
  vm_compute. reflexivity.
Defined.

Lemma record_twice_after_aborted_pass_witness :
  _parse_failed_paths MoreSample.q_three = [Sample.run2] ++ MoreSample.run3 :: [] /\
  exists q1 q2,
    _parse_fail_summary_logs MoreSample.w_abort MoreSample.q_three
      = (Raise (OtherError "OSError"), q1) /\
    _parse_failed_paths q1 = [Sample.run2] ++ MoreSample.run3 :: [] /\
    _parse_fail_summary_logs MoreSample.w_all q1 = (Return tt, q2) /\
    exists i j : nat,
      i <> j /\
      (summary_dir <$> _lineage_objects q2) !! i = Some (dirname Sample.run2) /\
      (summary_dir <$> _lineage_objects q2) !! j = Some (dirname Sample.run2).
Proof.
  assert (Hfailed : _parse_failed_paths MoreSample.q_three
                    = [Sample.run2] ++ MoreSample.run3 :: [])
    by (vm_compute; reflexivity).
  split; [exact Hfailed|].
  apply (record_twice_after_aborted_pass MoreSample.w_abort MoreSample.w_all
           MoreSample.q_three [Sample.run2] [] MoreSample.run3 Sample.run2
           (OtherError "OSError") Hfailed);
    try (vm_compute; reflexivity).
  apply list_elem_of_singleton. reflexivity.
Defined.

Lemma parse_fail_summary_logs_twice_witness :
  forallb (retryable Sample.w_first) (_parse_failed_paths Sample.q_two) = true /\
  exists q' q'',
    _parse_fail_summary_logs Sample.w_first Sample.q_two = (Return tt, q') /\
    _parse_fail_summary_logs Sample.w_first q' = (Return tt, q'') /\
    _lineage_objects q'' = _lineage_objects q' /\
    _parse_failed_paths q'' = _parse_failed_paths q'.
Proof.
  assert (Hall : forallb (retryable Sample.w_first)
                   (_parse_failed_paths Sample.q_two) = true)
    by (vm_compute; reflexivity).
  split; [exact Hall|].
  destruct (parse_fail_summary_logs_twice _ _ Hall)
    as (q' & q'' & H1 & H2 & Hobjs & _ & Hfailed & _).
  exists q', q''. split; [exact H1|]. split; [exact H2|].
  split; [exact Hobjs | exact Hfailed].
Defined.

Lemma init_uncaught_exception_witness :
  forallb (retryable MoreSample.w_abort) [Sample.run1; Sample.run2] = true /\
  __init__ MoreSample.w_abort (PathList ([Sample.run1; Sample.run2] ++ MoreSample.run3 :: []))
    = Raise (OtherError "OSError").
Proof.
  assert (Hpre : forallb (retryable MoreSample.w_abort) [Sample.run1; Sample.run2] = true)
    by (vm_compute; reflexivity).
  split; [exact Hpre|].
  assert (Hbad : attempt (graph := string) MoreSample.w_abort MoreSample.run3
                 = Raise (OtherError "OSError")) by (vm_compute; reflexivity).
  exact (proj1 (init_uncaught_exception MoreSample.w_abort [Sample.run1; Sample.run2] []
                  MoreSample.run3 (OtherError "OSError") Hpre Hbad eq_refl)).
Defined.

Lemma filter_summary_lineage_plain_witness :
  exists r q',
    filter_summary_lineage Sample.FIELD_MAPPING Sample.w_both
      (Some (MoreSample.epoch_at_least 15)) Sample.q_two = (Return r, q') /\
    count r = 1%nat /\ count r = length (object r).
Proof.
  destruct (filter_summary_lineage Sample.FIELD_MAPPING Sample.w_both
              (Some (MoreSample.epoch_at_least 15)) Sample.q_two)
    as [[r|e] q'] eqn:Hrun; [|vm_compute in Hrun; discriminate Hrun].
  exists r, q'. split; [reflexivity|].
  destruct (filter_summary_lineage_plain Sample.FIELD_MAPPING Sample.w_both
              (MoreSample.epoch_at_least 15) Sample.q_two r q')
    as (_ & Hcount & _); [reflexivity | reflexivity | reflexivity | exact Hrun |].
  split; [|exact Hcount].
  assert (Hr : (filter_summary_lineage Sample.FIELD_MAPPING Sample.w_both
                  (Some (MoreSample.epoch_at_least 15)) Sample.q_two).1 = Return r)
    by (rewrite Hrun; reflexivity).
  vm_compute in Hr. injection Hr as Hr. rewrite <- Hr. reflexivity.
Defined.

Lemma unsupported_field_first_raises_witness :
  exists q',
    _parse_fail_summary_logs Sample.w_both Sample.q_two = (Return tt, q') /\
    filter_summary_lineage Sample.FIELD_MAPPING Sample.w_both
      (Some MoreSample.unknown_after_control) Sample.q_two
    = (Raise (LineageQuerierParamException "The field not_a_field not supported"), q').
Proof.
  set (q' := (_parse_fail_summary_logs Sample.w_both Sample.q_two).2).
  assert (Hretry : _parse_fail_summary_logs Sample.w_both Sample.q_two
                   = (Return tt, q')) by (vm_compute; reflexivity).
  assert (Hpre : Forall (fun kv : string * cond_value =>
                            ConditionParam.is_condition_type kv.1 = true)
                         [("lineage_type", CStr "model")]).
  { apply Forall_cons_2; [reflexivity | apply Forall_nil_2]. }
  exists q'. split; [exact Hretry|].
  exact (proj2 (unsupported_field_first_raises Sample.FIELD_MAPPING _ _ _ _
                  [("lineage_type", CStr "model")] [] "not_a_field"
                  (CDict [("eq", EVal (Some (SNum 1)))])
                  reachable_any_q_two Hretry Hpre eq_refl eq_refl)).
Defined.

Lemma sort_result_idempotent_witness :
  exists out,
    sort_result Sample.FIELD_MAPPING Sample.desc_cond MoreSample.distinct_records
      = Return out /\
    sort_result Sample.FIELD_MAPPING Sample.desc_cond out = Return out.
Proof.
  apply (sort_result_idempotent Sample.FIELD_MAPPING "epoch");
    vm_compute; reflexivity.
Defined.

Lemma descending_reverses_distinct_keys_witness :
  NoDup ((fun o => get_value_by_key o "epoch") <$> MoreSample.distinct_records) /\
  exists out,
    sort_result Sample.FIELD_MAPPING Sample.asc_cond MoreSample.distinct_records
      = Return out /\
    sort_result Sample.FIELD_MAPPING Sample.desc_cond MoreSample.distinct_records
      = Return (rev out).
Proof.
  assert (Hnd : NoDup ((fun o => get_value_by_key o "epoch")
                         <$> MoreSample.distinct_records)).
  { apply (bool_decide_unpack _). vm_compute. exact I. }
  split; [exact Hnd|].
  apply (descending_reverses_distinct_keys Sample.FIELD_MAPPING "epoch");
    try (vm_compute; reflexivity).
  exact Hnd.
Defined.

Lemma sort_result_name_check_witness :
  exists q',
    _parse_fail_summary_logs Sample.w_both Sample.q_two = (Return tt, q') /\
    filter_summary_lineage Sample.FIELD_MAPPING Sample.w_both
      (Some MoreSample.sorted_by_unknown) Sample.q_two
    = (Raise (LineageQuerierParamException "The sorted name not_a_field not supported."),
       q').
Proof.
  set (q' := (_parse_fail_summary_logs Sample.w_both Sample.q_two).2).
  assert (Hretry : _parse_fail_summary_logs Sample.w_both Sample.q_two
                   = (Return tt, q')) by (vm_compute; reflexivity).
  exists q'. split; [exact Hretry|].
  apply (proj1 (sort_result_name_check Sample.FIELD_MAPPING
                  MoreSample.sorted_by_unknown (_lineage_objects q'))
           "not_a_field" eq_refl eq_refl _ _ _ Hretry).
  vm_compute. reflexivity.
Defined.

Lemma is_match_kinds_agree_witness :
  exists lt eq gt : bool,
    ExpressionType.is_match "lt" (EVal (Some (SStr "b"))) (Some (SStr "a")) = Return lt /\
    ExpressionType.is_match "eq" (EVal (Some (SStr "b"))) (Some (SStr "a")) = Return eq /\
    ExpressionType.is_match "gt" (EVal (Some (SStr "b"))) (Some (SStr "a")) = Return gt /\
    ExpressionType.is_match "le" (EVal (Some (SStr "b"))) (Some (SStr "a"))
      = Return (lt || eq) /\
    ExpressionType.is_match "ge" (EVal (Some (SStr "b"))) (Some (SStr "a"))
      = Return (gt || eq) /\
    ExpressionType.is_match "lt" (EVal (Some (SStr "a"))) (Some (SStr "b")) = Return gt /\
    (lt, eq, gt) ∈ [(true, false, false); (false, true, false); (false, false, true)].
Proof. exact (is_match_kinds_agree (SStr "a") (SStr "b") eq_refl). Defined.

Lemma is_match_raises_type_error_only_witness :
  ExpressionType.is_match "lt" (EVal (Some (SStr "10"))) (Some (SNum 10))
  = Raise TypeError.
Proof.
  apply (proj1 (proj2 (proj2 (proj2
           (is_match_raises_type_error_only "lt" (EVal None) None))))
           (SNum 10) eq_refl).
  reflexivity.
Defined.

Lemma summary_dir_is_directory_witness :
  exists o,
    attempt Sample.w_first Sample.run1 = Return o /\
    summary_dir o = "/base/run1".
Proof.
  destruct (attempt Sample.w_first Sample.run1) as [o|e] eqn:Hrun;
    [|vm_compute in Hrun; discriminate Hrun].
  exists o. split; [reflexivity|].
  apply (proj1 (summary_dir_is_directory Sample.w_first "/base/run" "1"
                  "events.summary" o eq_refl eq_refl)).
  exact Hrun.
Defined.
